(** * Deferred rendering command layer: vertex backend and command queue

    A shallow embedding of [internal/graphics/vertex.go] (package
    [graphics]) and of the command queue of package [graphicscommand],
    with the properties of the specification stated over it.

    Conventions of the embedding.
    - [float32] values are IEEE 754 binary32 numbers: the Standard Library's
      [spec_float] at precision 24 and maximal exponent 128, with its
      executable operations (round to nearest, ties to even).
    - [uint16] values are integers in [0, 65536); the wrap-around of the
      arithmetic on them is written out.
    - Go's [int] is the 64-bit two's complement integer.  The arithmetic of
      [vertex.go] on caller-chosen integers carries its wrap-around
      ([int_wrap]).  The counters of the command queue are sums of lengths
      of slices that exist in memory, and are kept as plain integers.
    - A slice that is only read is the list of its elements; a slice into a
      shared backing array is the array together with a range.
    - [make] of the vertex backend, whose length the caller chooses, panics
      beyond the bound of the runtime on one allocation ([maxAlloc]), which
      depends on the platform and is a parameter of that part.  The scratch
      buffer of the command queue grows by 40 floats for each queued draw:
      its lengths are those of slices that exist in memory, and
      [roundUpPower2] and [make] are taken on them without wrap-around and
      without that panic.
    - The uniforms of a queued draw are slices of the scratch buffer; a
      command keeps them as the values written when it was enqueued.  The
      two differ only after a [Flush] that ends the frame and whose [Begin]
      fails: it rewinds the buffer under the commands it leaves queued, and
      the draws enqueued next overwrite their uniforms.
    - A panic, and a loop that does not end, are outcomes of their own. *)

From Stdlib Require Import ZArith QArith Qround List Bool Lia Lqa String.
From Stdlib Require Import SpecFloat.
Import ListNotations.
Local Open Scope Z_scope.

(** ** Outcomes of a call *)

Inductive outcome (A : Type) : Type :=
| Ret (a : A)            (* the call returned *)
| Panic (msg : string)   (* the call panicked *)
| Diverge.               (* the call does not return *)
Arguments Ret {A} a.
Arguments Panic {A} msg.
Arguments Diverge {A}.

Definition error := string.

(** [len s] is Go's [len(s)]. *)
Definition len {A : Type} (l : list A) : Z := Z.of_nat (List.length l).

(** ** Machine integers *)

Definition int_wrap (z : Z) : Z := (z + 2 ^ 63) mod 2 ^ 64 - 2 ^ 63.
Definition uint16 (z : Z) : Z := z mod 2 ^ 16.

Definition minInt64 : Z := - 2 ^ 63.
Definition maxInt64 : Z := 2 ^ 63 - 1.

(** ** binary32 numbers *)

Module Float32.

Definition prec : Z := 24.
Definition emax : Z := 128.

Definition float32 := spec_float.

Definition add : float32 -> float32 -> float32 := SFadd prec emax.
Definition sub : float32 -> float32 -> float32 := SFsub prec emax.
Definition div : float32 -> float32 -> float32 := SFdiv prec emax.

(** Go's [<], [==] and [!=] on floats: false, false and true on a NaN. *)
Definition ltb : float32 -> float32 -> bool := SFltb.
Definition eqb : float32 -> float32 -> bool := SFeqb.
Definition neqb (x y : float32) : bool := negb (SFeqb x y).

Definition zero : float32 := S754_zero false.
Definition posInf : float32 := S754_infinity false.
Definition negInf : float32 := S754_infinity true.

(** The binary32 number nearest to [m * 2^e]. *)
Definition of_scaled (m e : Z) : float32 := binary_normalize prec emax m e false.

(** [float32(n)] for an integer [n]. *)
Definition of_int (n : Z) : float32 := of_scaled n 0.

(** The integer part of [m * 2^e], for [m] positive. *)
Definition trunc_pos (m : positive) (e : Z) : Z :=
  if 0 <=? e then Z.pos m * 2 ^ e else Z.pos m / 2 ^ (- e).

(** [int(x)]: the value truncated towards zero.  Where [int] cannot hold it
    (a NaN, an infinity, a magnitude of 2^63 or more) Go leaves the result
    to the implementation; amd64 gives the smallest [int]. *)
Definition to_int (x : float32) : Z :=
  match x with
  | S754_zero _ => 0
  | S754_finite s m e =>
      let t := cond_Zopp s (trunc_pos m e) in
      if (minInt64 <=? t) && (t <=? maxInt64) then t else minInt64
  | _ => minInt64
  end.

(** ** The numbers the floats stand for *)

(** A zero or a finite number; and a number in the form binary32 stores. *)
Definition isFinite (x : float32) : bool :=
  match x with
  | S754_zero _ | S754_finite _ _ _ => true
  | _ => false
  end.

Definition valid (x : float32) : bool := valid_binary prec emax x.

(** The rational number [(-1)^s * m * 2^e] of a finite float. *)
Definition value (x : float32) : Q :=
  match x with
  | S754_finite s m e =>
      if 0 <=? e then inject_Z (cond_Zopp s (Z.pos m * 2 ^ e))
      else Qmake (cond_Zopp s (Z.pos m)) (Z.to_pos (2 ^ (- e)))
  | _ => 0%Q
  end.

Definition floor (x : float32) : Z := Qfloor (value x).

(** [p * 2^k] on binary positive numbers: [k] zero bits after [p]. *)
Definition pshift (p : positive) (k : nat) : positive := Nat.iter k xO p.

(** The float of [(-1)^s * c * 2^e] for [c] of at most 24 digits: the
    mantissa is brought to 24 digits. *)
Definition normal (s : bool) (c : positive) (e : Z) : float32 :=
  S754_finite s (pshift c (Z.to_nat (24 - Z.pos (digits2_pos c))))
    (e + Z.pos (digits2_pos c) - 24).

(** The value in units of 2^-149, the spacing of the smallest binary32
    numbers; every finite binary32 number is a whole number of them. *)
Definition scaled (x : float32) : Z :=
  match x with
  | S754_finite s m e => cond_Zopp s (Z.pos m * 2 ^ (e + 149))
  | _ => 0
  end.

(** Strict order of the rationals, as a boolean. *)
Definition Qltb (p q : Q) : bool := Qnum p * QDen q <? Qnum q * QDen p.

(** A number binary32 stores: in canonical form, and not an infinity or a NaN. *)
Definition real (x : float32) : Prop := valid x = true /\ isFinite x = true.

End Float32.

Import Float32.

(** * Package graphics ([internal/graphics/vertex.go]) *)

Module Graphics.

Definition ShaderImageCount : Z := 4.

Definition PreservedUniformVariablesCount : Z := 1 + 1 + 1 + 1 + 1 + 1 + 1 + 1.

Definition TextureDestinationSizeUniformVariableIndex : Z := 0.
Definition TextureSourceSizesUniformVariableIndex : Z := 1.
Definition TextureDestinationRegionOriginUniformVariableIndex : Z := 2.
Definition TextureDestinationRegionSizeUniformVariableIndex : Z := 3.
Definition TextureSourceOffsetsUniformVariableIndex : Z := 4.
Definition TextureSourceRegionOriginUniformVariableIndex : Z := 5.
Definition TextureSourceRegionSizeUniformVariableIndex : Z := 6.
Definition ProjectionMatrixUniformVariableIndex : Z := 7.

Definition IndicesCount : Z := Z.shiftl 1 16 / 3 * 3.
Definition VertexFloatCount : Z := 8.

(** ** The vertex backend *)

(** [backend] is the backing array, [pos] the write cursor and
    [notFullyUsedTime] the decay counter.  [arrays] counts the backing arrays
    made so far: it names the current one, as the slice's pointer does in Go. *)
Record verticesBackend : Type := {
  backend : list float32;
  pos : Z;
  notFullyUsedTime : Z;
  arrays : nat
}.

Definition theVerticesBackend : verticesBackend :=
  {| backend := []; pos := 0; notFullyUsedTime := 0; arrays := 0 |}.

(** A slice of a backing array: the array, the first index and the length. *)
Record vslice : Type := {
  vs_array : nat;
  vs_off : Z;
  vs_len : Z
}.

(** [for l < size { l *= 2 }]: [None] when the loop is still running after
    [fuel] rounds. *)
Fixpoint doubleUntil (fuel : nat) (l size : Z) : option Z :=
  match fuel with
  | O => None
  | S k => if l <? size then doubleUntil k (int_wrap (l * 2)) size else Some l
  end.

(** After 64 doublings a 64-bit [l] is 0 and stays 0, so a loop that has not
    ended by then never does. *)
Definition verticesBackendFloat32Size (size : Z) : option Z :=
  doubleUntil 66 (128 * VertexFloatCount) size.

Definition max (a b : Z) : Z := if a >? b then a else b.

(** [n] floats, all zero. *)
Definition zeros (n : Z) : list float32 := repeat zero (Z.to_nat n).

Section Backend.

(** The bound of the runtime on the bytes of one allocation ([maxAlloc] in
    [runtime/malloc.go]).  It depends on the platform: 2^48 on amd64. *)
Variable maxAlloc : Z.

(** [make([]float32, n)]: the runtime panics when [n] is negative and when
    the [4 * n] bytes overflow a machine word or exceed [maxAlloc]. *)
Definition make (n : Z) : outcome (list float32) :=
  if (n <? 0) || (2 ^ 64 <=? 4 * n) || (maxAlloc <? 4 * n)
  then Panic "makeslice: len out of range"
  else Ret (zeros n).

Definition slice (v : verticesBackend) (n : Z) : outcome (vslice * verticesBackend) :=
  let need := int_wrap (n * VertexFloatCount) in
  let grown :=
    if len (backend v) <? int_wrap (pos v + need) then
      match verticesBackendFloat32Size need with
      | None => Diverge
      | Some l =>
          match make (max (int_wrap (len (backend v) * 2)) l) with
          | Ret b => Ret {| backend := b; pos := 0;
                            notFullyUsedTime := notFullyUsedTime v;
                            arrays := S (arrays v) |}
          | Panic msg => Panic msg
          | Diverge => Diverge
          end
      end
    else Ret v in
  match grown with
  | Ret v1 =>
      let hi := int_wrap (pos v1 + need) in
      if (0 <=? pos v1) && (pos v1 <=? hi) && (hi <=? len (backend v1)) then
        Ret ({| vs_array := arrays v1; vs_off := pos v1; vs_len := need |},
             {| backend := backend v1; pos := hi;
                notFullyUsedTime := notFullyUsedTime v1;
                arrays := arrays v1 |})
      else Panic "slice bounds out of range"
  | Panic msg => Panic msg
  | Diverge => Diverge
  end.

Definition Vertices (n : Z) : outcome (vslice * verticesBackend) :=
  slice theVerticesBackend n.

End Backend.

Definition maxNotFullyUsedTime : Z := 60.

(** The callback runs with the mutex held and cannot reach the backend (its
    fields are private and [slice] would wait for the mutex): only the value
    it returns matters here. *)
Definition lockAndReset (v : verticesBackend) (f : unit -> option error)
  : outcome (option error * verticesBackend) :=
  match f tt with
  | Some err => Ret (Some err, v)
  | None =>
      match verticesBackendFloat32Size (pos v) with
      | None => Diverge
      | Some l =>
          let t :=
            if l <? len (backend v) then
              if notFullyUsedTime v <? maxNotFullyUsedTime
              then int_wrap (notFullyUsedTime v + 1) else notFullyUsedTime v
            else 0 in
          if (t =? maxNotFullyUsedTime) && (len (backend v) >? 0) then
            Ret (None, {| backend := []; pos := 0; notFullyUsedTime := 0;
                          arrays := arrays v |})
          else
            Ret (None, {| backend := backend v; pos := 0; notFullyUsedTime := t;
                          arrays := arrays v |})
      end
  end.

(** ** Pixel adjustment *)

Definition adjustDestinationPixel (x : float32) : float32 :=
  let ix0 := of_int (to_int x) in
  let ix := if ltb x zero && neqb x ix0 then sub ix0 (of_int 1) else ix0 in
  let frac := sub x ix in
  if ltb frac (of_scaled 3 (-4)) then ix
  else if ltb frac (of_scaled 8 (-4)) then add ix (of_scaled 5 (-4))
  else if ltb frac (of_scaled 13 (-4)) then add ix (of_scaled 11 (-4))
  else add ix (of_scaled 16 (-4)).

(** ** Notions the properties are stated with *)

(** The offset from the whole part, in sixteenths, that the thresholds 3/16,
    8/16 and 13/16 select for a fractional part. *)
Definition offsetSixteenths (frac : float32) : Z :=
  if ltb frac (of_scaled 3 (-4)) then 0
  else if ltb frac (of_scaled 8 (-4)) then 5
  else if ltb frac (of_scaled 13 (-4)) then 11
  else 16.

(** The offset the same thresholds select for an exact fractional part. *)
Definition offsetOfFraction (q : Q) : Z :=
  if Qltb q (3 # 16) then 0
  else if Qltb q (8 # 16) then 5
  else if Qltb q (13 # 16) then 11
  else 16.

(** Two slices overlap when they lie in one backing array and share an index. *)
Definition overlap (s1 s2 : vslice) : Prop :=
  vs_array s1 = vs_array s2 /\
  exists i, vs_off s1 <= i < vs_off s1 + vs_len s1
            /\ vs_off s2 <= i < vs_off s2 + vs_len s2.

(** A window is under-utilized when the size class of the range in use is
    below the size of the backing array. *)
Definition underUsed (v : verticesBackend) : Prop :=
  exists l, verticesBackendFloat32Size (pos v) = Some l /\ l < len (backend v).



(** The lengths [verticesBackendFloat32Size] gives: 1024 doubled up to 52
    times. *)
Definition sizeClass (l : Z) : Prop := exists k, 0 <= k <= 52 /\ l = 1024 * 2 ^ k.

Section BackendRuns.

Variable maxAlloc : Z.

(** Requests made one after the other: the slices handed out, in order. *)
Fixpoint sliceAll (v : verticesBackend) (ns : list Z)
  : outcome (list vslice * verticesBackend) :=
  match ns with
  | [] => Ret ([], v)
  | n :: ns' =>
      match slice maxAlloc v n with
      | Ret (s, v1) =>
          match sliceAll v1 ns' with
          | Ret (ss, v2) => Ret (s :: ss, v2)
          | Panic msg => Panic msg
          | Diverge => Diverge
          end
      | Panic msg => Panic msg
      | Diverge => Diverge
      end
  end.

(** The states of the backend a program can reach: from the initial one, by
    a [slice] that returned and by a [lockAndReset] that returned. *)
Inductive reachableBackend : verticesBackend -> Prop :=
| reach_theVerticesBackend : reachableBackend theVerticesBackend
| reach_slice (v : verticesBackend) (n : Z) (s : vslice) (v1 : verticesBackend) :
    reachableBackend v -> slice maxAlloc v n = Ret (s, v1) -> reachableBackend v1
| reach_lockAndReset (v : verticesBackend) (f : unit -> option error)
    (e : option error) (v1 : verticesBackend) :
    reachableBackend v -> lockAndReset v f = Ret (e, v1) -> reachableBackend v1.

End BackendRuns.

End Graphics.

(** * Package graphicscommand (the command queue) *)

Module GraphicsCommand.

Import Graphics.

(** ** Handles, blend modes and regions *)

(** A pointer to an [Image] or to a [Shader] is the address of the object; [None] is nil.
    Two pointers are equal when the addresses are. *)
Definition Image : Type := positive.
Definition Shader : Type := positive.

(** [[graphics.ShaderImageCount]*Image] *)
Definition Srcs : Type :=
  (option Image * option Image * option Image * option Image)%type.

Definition srcs_list (s : Srcs) : list (option Image) :=
  let '(s0, s1, s2, s3) := s in [s0; s1; s2; s3].

(** [[graphics.ShaderImageCount - 1][2]float32] *)
Definition Offsets : Type :=
  ((float32 * float32) * (float32 * float32) * (float32 * float32))%type.

Definition offsets_list (o : Offsets) : list (float32 * float32) :=
  let '(o0, o1, o2) := o in [o0; o1; o2].

(** [graphicsdriver.Blend], with the fields [String] prints. *)
Record Blend : Type := {
  BlendFactorSourceRGB : Z;
  BlendFactorSourceAlpha : Z;
  BlendFactorDestinationRGB : Z;
  BlendFactorDestinationAlpha : Z;
  BlendOperationRGB : Z;
  BlendOperationAlpha : Z
}.

(** [graphicsdriver.Region] *)
Record Region : Type := {
  X : float32;
  Y : float32;
  Width : float32;
  Height : float32
}.

Definition image_eqb (a b : option Image) : bool :=
  match a, b with
  | None, None => true
  | Some x, Some y => Pos.eqb x y
  | _, _ => false
  end.

(** [a == b] on two arrays of sources *)
Definition srcs_eqb (a b : Srcs) : bool :=
  let '(a0, a1, a2, a3) := a in
  let '(b0, b1, b2, b3) := b in
  image_eqb a0 b0 && image_eqb a1 b1 && image_eqb a2 b2 && image_eqb a3 b3.

(** [a == b] on two blend modes *)
Definition blend_eqb (a b : Blend) : bool :=
  (BlendFactorSourceRGB a =? BlendFactorSourceRGB b)
  && (BlendFactorSourceAlpha a =? BlendFactorSourceAlpha b)
  && (BlendFactorDestinationRGB a =? BlendFactorDestinationRGB b)
  && (BlendFactorDestinationAlpha a =? BlendFactorDestinationAlpha b)
  && (BlendOperationRGB a =? BlendOperationRGB b)
  && (BlendOperationAlpha a =? BlendOperationAlpha b).

(** [a == b] on two regions: the fields are floats and compare as floats. *)
Definition region_eqb (a b : Region) : bool :=
  eqb (X a) (X b) && eqb (Y a) (Y b)
  && eqb (Width a) (Width b) && eqb (Height a) (Height b).

(** ** Commands *)

Record drawTrianglesCommand : Type := {
  c_dst : Image;
  c_srcs : Srcs;
  c_vertices : list float32;
  c_nindices : Z;
  c_blend : Blend;
  c_dstRegion : Region;
  c_shader : Shader;
  c_uniforms : list (list float32);
  c_evenOdd : bool
}.

(** The closed set of command variants.  A pixel-writing command keeps the
    number of its argument blocks. *)
Inductive command : Type :=
| drawTriangles (c : drawTrianglesCommand)
| writePixels (dst : Image) (nargs : Z)
| readPixels (img : Image) (x y width height : Z)
| disposeImage (target : Image)
| disposeShader (target : Shader)
| newImage (result : Image) (width height : Z) (screen : bool)
| newShader (result : Shader)
| isInvalidated (image : Image).

Definition numVertices (c : drawTrianglesCommand) : Z := len (c_vertices c).
Definition numIndices (c : drawTrianglesCommand) : Z := c_nindices c.

Definition setVertices (c : drawTrianglesCommand) (vertices : list float32)
  : drawTrianglesCommand :=
  {| c_dst := c_dst c; c_srcs := c_srcs c; c_vertices := vertices;
     c_nindices := c_nindices c; c_blend := c_blend c;
     c_dstRegion := c_dstRegion c; c_shader := c_shader c;
     c_uniforms := c_uniforms c; c_evenOdd := c_evenOdd c |}.

Definition addNumIndices (c : drawTrianglesCommand) (n : Z)
  : drawTrianglesCommand :=
  {| c_dst := c_dst c; c_srcs := c_srcs c; c_vertices := c_vertices c;
     c_nindices := c_nindices c + n; c_blend := c_blend c;
     c_dstRegion := c_dstRegion c; c_shader := c_shader c;
     c_uniforms := c_uniforms c; c_evenOdd := c_evenOdd c |}.

(** ** The merge predicate *)

Definition minMax : Type := (float32 * float32 * float32 * float32)%type.

Definition dstRegionStep (vertices : list float32) (r : minMax) (i : nat) : minMax :=
  let '(minX, minY, maxX, maxY) := r in
  let x := nth (Z.to_nat VertexFloatCount * i) vertices zero in
  let y := nth (Z.to_nat VertexFloatCount * i + 1) vertices zero in
  (if ltb x minX then x else minX,
   if ltb y minY then y else minY,
   if ltb maxX x then x else maxX,
   if ltb maxY y then y else maxY).

Definition dstRegionFromVertices (vertices : list float32) : minMax :=
  fold_left (dstRegionStep vertices)
    (seq 0 (Z.to_nat (len vertices / VertexFloatCount)))
    (posInf, posInf, negInf, negInf).

Definition mergin : float32 := of_int 1.

Definition mightOverlapDstRegions (vertices1 vertices2 : list float32) : bool :=
  let '(minX1, minY1, maxX1, maxY1) := dstRegionFromVertices vertices1 in
  let '(minX2, minY2, maxX2, maxY2) := dstRegionFromVertices vertices2 in
  ltb minX1 (add maxX2 mergin) && ltb minX2 (add maxX1 mergin)
  && ltb minY1 (add maxY2 mergin) && ltb minY2 (add maxY1 mergin).

(** The loop over [j]: the values of one uniform, of equal length. *)
Fixpoint sameFloats (a b : list float32) : bool :=
  match a, b with
  | [], _ => true
  | x :: a', y :: b' => if neqb x y then false else sameFloats a' b'
  | _ :: _, [] => false
  end.

(** The loop over [i]: the uniforms, of equal number. *)
Fixpoint sameUniforms (a b : list (list float32)) : bool :=
  match a, b with
  | [], _ => true
  | u :: a', w :: b' =>
      if negb (len u =? len w) then false
      else if negb (sameFloats u w) then false
      else sameUniforms a' b'
  | _ :: _, [] => false
  end.

Definition CanMergeWithDrawTrianglesCommand (c : drawTrianglesCommand)
    (dst : Image) (srcs : Srcs) (vertices : list float32) (blend : Blend)
    (dstRegion : Region) (shader : Shader) (uniforms : list (list float32))
    (evenOdd : bool) : bool :=
  if negb (Pos.eqb (c_shader c) shader) then false
  else if negb (len (c_uniforms c) =? len uniforms) then false
  else if negb (sameUniforms (c_uniforms c) uniforms) then false
  else if negb (Pos.eqb (c_dst c) dst) then false
  else if negb (srcs_eqb (c_srcs c) srcs) then false
  else if negb (blend_eqb (c_blend c) blend) then false
  else if negb (region_eqb (c_dstRegion c) dstRegion) then false
  else if c_evenOdd c || evenOdd then
    if c_evenOdd c && evenOdd
    then negb (mightOverlapDstRegions (c_vertices c) vertices)
    else false
  else true.

(** The words of the merge rule.  Floats are equal, or one below another,
    as Go's [==] and [<] have it. *)
Definition float_eq (x y : float32) : Prop := eqb x y = true.
Definition float_lt (x y : float32) : Prop := ltb x y = true.

(** Two uniform lists equal in shape and in every scalar value. *)
Definition uniformsEqual (a b : list (list float32)) : Prop :=
  List.length a = List.length b /\
  forall i, (i < List.length a)%nat ->
    List.length (nth i a []) = List.length (nth i b []) /\
    forall j, (j < List.length (nth i a []))%nat ->
      float_eq (nth j (nth i a []) zero) (nth j (nth i b []) zero).

Definition regionEqual (a b : Region) : Prop :=
  float_eq (X a) (X b) /\ float_eq (Y a) (Y b)
  /\ float_eq (Width a) (Width b) /\ float_eq (Height a) (Height b).

(** The [k]-th float of every vertex: [k = 0] for x and [k = 1] for y. *)
Definition coordinates (k : nat) (vertices : list float32) : list float32 :=
  map (fun i => nth (Z.to_nat VertexFloatCount * i + k) vertices zero)
    (seq 0 (Z.to_nat (len vertices / VertexFloatCount))).

Definition floatMin (m x : float32) : float32 := if ltb x m then x else m.
Definition floatMax (m x : float32) : float32 := if ltb m x then x else m.

(** The axis-aligned bounding box of the vertices: the minimum and the
    maximum of x and of y over every vertex. *)
Definition boundingBox (vertices : list float32) : minMax :=
  (fold_left floatMin (coordinates 0 vertices) posInf,
   fold_left floatMin (coordinates 1 vertices) posInf,
   fold_left floatMax (coordinates 0 vertices) negInf,
   fold_left floatMax (coordinates 1 vertices) negInf).

(** The overlap test as the code computes it: every comparison is Go's [<]
    on binary32 numbers and every sum [max + 1] is a binary32 sum, rounded to
    the nearest binary32 number. *)
Definition overlapRounded (b1 b2 : minMax) : Prop :=
  let '(minX1, minY1, maxX1, maxY1) := b1 in
  let '(minX2, minY2, maxX2, maxY2) := b2 in
  float_lt minX1 (add maxX2 (of_int 1)) /\ float_lt minX2 (add maxX1 (of_int 1))
  /\ float_lt minY1 (add maxY2 (of_int 1)) /\ float_lt minY2 (add maxY1 (of_int 1)).

(** *** The merge rule on the numbers the coordinates stand for *)

(** The least and the greatest of a list of numbers; none for no number. *)
Definition leastOf (l : list Q) : option Q :=
  match l with
  | [] => None
  | q :: l' => Some (fold_left (fun m x => if Qltb x m then x else m) l' q)
  end.

Definition greatestOf (l : list Q) : option Q :=
  match l with
  | [] => None
  | q :: l' => Some (fold_left (fun m x => if Qltb m x then x else m) l' q)
  end.

(** The axis-aligned bounding box of the vertices, as numbers: the least x,
    the least y, the greatest x and the greatest y over every vertex.  A list
    without a vertex has no box. *)
Definition box : Type := (Q * Q * Q * Q)%type.

Definition boxOf (vertices : list float32) : option box :=
  match leastOf (map value (coordinates 0 vertices)),
        leastOf (map value (coordinates 1 vertices)),
        greatestOf (map value (coordinates 0 vertices)),
        greatestOf (map value (coordinates 1 vertices)) with
  | Some minX, Some minY, Some maxX, Some maxY => Some (minX, minY, maxX, maxY)
  | _, _, _, _ => None
  end.

(** Two boxes overlap within a margin of 1 unit, as numbers. *)
Definition overlapWithinMargin (b1 b2 : option box) : Prop :=
  match b1, b2 with
  | Some (minX1, minY1, maxX1, maxY1), Some (minX2, minY2, maxX2, maxY2) =>
      (minX1 < maxX2 + 1 /\ minX2 < maxX1 + 1
       /\ minY1 < maxY2 + 1 /\ minY2 < maxY1 + 1)%Q
  | _, _ => False
  end.

(** A coordinate on the grid of spacing [2^e]: a multiple [j * 2^e] with
    room for one more unit, so that adding 1 to it is exact in binary32. *)
Definition onGrid (e : Z) (x : float32) : Prop :=
  exists j, Z.abs j + 2 ^ (- e) < 2 ^ 24 /\ x = of_scaled j e.

Definition gridded (e : Z) (vertices : list float32) : Prop :=
  Forall (onGrid e) (coordinates 0 vertices)
  /\ Forall (onGrid e) (coordinates 1 vertices).

(** One vertex at the given x and y. *)
Definition vertexAt (x y : float32) : list float32 :=
  [x; y; zero; zero; zero; zero; zero; zero].

(** An even-odd draw of the given vertices. *)
Definition evenOddCommand (vs : list float32) : drawTrianglesCommand :=
  {| c_dst := 1%positive; c_srcs := (None, None, None, None);
     c_vertices := vs; c_nindices := 3;
     c_blend := Build_Blend 1 1 0 0 0 0;
     c_dstRegion := Build_Region zero zero (of_int 16) (of_int 16);
     c_shader := 1%positive; c_uniforms := []; c_evenOdd := true |}.

(** ** The graphics driver *)

(** The calls the queue makes on the driver and on its images and shaders. *)
Inductive call : Type :=
| Begin
| End (present : bool)
| SetVertices (vertices : list float32) (indices : list Z)
| DrawTriangles (dst : Image) (srcs : Srcs) (shader : Shader)
    (indexLen indexOffset : Z) (blend : Blend) (dstRegion : Region)
    (uniforms : list (list float32)) (evenOdd : bool)
| WritePixels (dst : Image) (nargs : Z)
| ReadPixels (img : Image) (x y width height : Z)
| DisposeImage (target : Image)
| DisposeShader (target : Shader)
| NewImage (width height : Z)
| NewScreenFramebufferImage (width height : Z)
| NewShader
| IsInvalidated (image : Image).

Definition trace : Type := list call.

(** A driver answers a call, after the calls made before it, with an error
    or with none. *)
Definition driver : Type := trace -> call -> option error.

(** The calls whose Go signature has no error result. *)
Definition infallible (c : call) : bool :=
  match c with
  | DisposeImage _ | DisposeShader _ | IsInvalidated _ => true
  | _ => false
  end.

Definition answer (drv : driver) (tr : trace) (c : call) : option error :=
  if infallible c then None else drv tr c.

Definition invoke (drv : driver) (tr : trace) (c : call) : option error * trace :=
  (answer drv tr c, tr ++ [c]).

(** [Exec] of each variant. *)
Definition Exec (drv : driver) (c : command) (indexOffset : Z) (tr : trace)
  : option error * trace :=
  match c with
  | drawTriangles c =>
      if c_nindices c =? 0 then (None, tr)
      else invoke drv tr
             (DrawTriangles (c_dst c) (c_srcs c) (c_shader c) (c_nindices c)
                indexOffset (c_blend c) (c_dstRegion c) (c_uniforms c) (c_evenOdd c))
  | writePixels dst nargs =>
      if nargs =? 0 then (None, tr) else invoke drv tr (WritePixels dst nargs)
  | readPixels img x y w h => invoke drv tr (ReadPixels img x y w h)
  | disposeImage target => invoke drv tr (DisposeImage target)
  | disposeShader target => invoke drv tr (DisposeShader target)
  | newImage _ w h screen =>
      if screen then invoke drv tr (NewScreenFramebufferImage w h)
      else invoke drv tr (NewImage w h)
  | newShader _ => invoke drv tr NewShader
  | isInvalidated image => invoke drv tr (IsInvalidated image)
  end.

(** ** The queue *)

(** [float32sBuffer]: the backing array (its length is the capacity) and the
    length of the slice. *)
Record float32s : Type := {
  arr : list float32;
  used : Z
}.

Record commandQueue : Type := {
  commands : list command;
  vertices : list float32;
  indices : list Z;
  tmpNumVertexFloats : Z;
  tmpNumIndices : Z;
  pool : list drawTrianglesCommand;
  float32sBuffer : float32s
}.

Definition theCommandQueue : commandQueue :=
  {| commands := []; vertices := []; indices := [];
     tmpNumVertexFloats := 0; tmpNumIndices := 0; pool := [];
     float32sBuffer := {| arr := []; used := 0 |} |}.

(** [drawTrianglesCommandPool.get]: the last pooled object if any, else a new
    one.  The caller overwrites every field, so only the rest of the pool is
    returned. *)
Definition pool_get (p : list drawTrianglesCommand) : list drawTrianglesCommand :=
  if len p =? 0 then p else firstn (Z.to_nat (len p - 1)) p.

Definition pool_put (p : list drawTrianglesCommand) (v : drawTrianglesCommand)
  : list drawTrianglesCommand :=
  if len p >=? 1024 then p else p ++ [v].

Definition appendIndices (es : list Z) (indices : list Z) (offset : Z) : list Z :=
  es ++ map (fun e => uint16 (e + offset)) indices.

Definition mustUseDifferentVertexBuffer (nextNumVertexFloats nextNumIndices : Z) : bool :=
  (nextNumVertexFloats >? IndicesCount * VertexFloatCount)
  || (nextNumIndices >? IndicesCount).

(** [q.vertices[len(q.vertices)-n : len(q.vertices)]]; [None] when the bounds
    are out of range. *)
Definition lastVertices (vs : list float32) (n : Z) : option (list float32) :=
  if (0 <=? n) && (n <=? len vs)
  then Some (skipn (Z.to_nat (len vs - n)) vs) else None.

(** The list without its last element, and that element. *)
Fixpoint unsnoc {A : Type} (l : list A) : option (list A * A) :=
  match l with
  | [] => None
  | x :: l' =>
      match unsnoc l' with
      | None => Some ([], x)
      | Some (r, y) => Some (x :: r, y)
      end
  end.


(** ** The scratch buffer of uniform values *)

Definition max (a b : Z) : Z := if a <? b then b else a.

(** [for p2 < x { p2 *= 2 }], on the lengths of the scratch buffer: for
    [x <= 2^62] no doubling wraps and the loop ends as the code's does;
    beyond, the 64-bit [p2] of the code wraps to 0 and its loop does not
    end. *)
Fixpoint roundUpPower2_loop (fuel : nat) (p2 x : Z) : Z :=
  match fuel with
  | O => p2
  | S k => if p2 <? x then roundUpPower2_loop k (p2 * 2) x else p2
  end.

(** [x] rounds are enough: see [roundUpPower2_loop_done]. *)
Definition roundUpPower2 (x : Z) : Z := roundUpPower2_loop (Z.to_nat x) 1 x.

(** [s[i] = v] for an index within the slice *)
Definition setIndex {A : Type} (s : list A) (i : Z) (v : A) : list A :=
  firstn (Z.to_nat i) s ++ v :: skipn (S (Z.to_nat i)) s.

(** The elements written through a slice [arr[start : start+len(vals)]]. *)
Definition store (b : float32s) (start : Z) (vals : list float32) : float32s :=
  {| arr := firstn (Z.to_nat start) (arr b) ++ vals
            ++ skipn (Z.to_nat (start + len vals)) (arr b);
     used := used b |}.

Definition setFloat32sBuffer (q : commandQueue) (b : float32s) : commandQueue :=
  {| commands := commands q; vertices := vertices q; indices := indices q;
     tmpNumVertexFloats := tmpNumVertexFloats q;
     tmpNumIndices := tmpNumIndices q; pool := pool q;
     float32sBuffer := b |}.

(** [allocFloat32s] gives the slice [buf[len(buf) : len(buf)+n]]: where it
    starts and what the backing array holds there.  The array it makes
    when the buffer is full is taken as made. *)
Definition allocFloat32s (q : commandQueue) (n : Z)
  : Z * list float32 * commandQueue :=
  let buf := float32sBuffer q in
  let buf :=
    if used buf + n >? len (arr buf)
    then {| arr := repeat zero (Z.to_nat (max (roundUpPower2 (used buf + n)) 16));
            used := 0 |}
    else buf in
  let s := firstn (Z.to_nat n) (skipn (Z.to_nat (used buf)) (arr buf)) in
  (used buf, s,
   setFloat32sBuffer q {| arr := arr buf; used := used buf + n |}).

(** The arguments of one call of [EnqueueDrawTrianglesCommand]. *)
Record draw : Type := {
  d_dst : Image;
  d_srcs : Srcs;
  d_offsets : Offsets;
  d_vertices : list float32;
  d_indices : list Z;
  d_blend : Blend;
  d_dstRegion : Region;
  d_srcRegion : Region;
  d_shader : Shader;
  d_uniforms : list (list float32);
  d_evenOdd : bool
}.

Section Queue.

(** [Image.InternalSize] and [shaderir.Program.FilterUniformVariables] are
    declared outside these files: the queue is defined over them. *)
Variable InternalSize : Image -> Z * Z.
Variable FilterUniformVariables : Shader -> list (list float32) -> list (list float32).

(** ** Preserved uniform variables *)

(** [copy(dst, src)]: the new contents of [dst]. *)
Definition copy {A : Type} (dst src : list A) : list A :=
  firstn (List.length dst) src ++ skipn (List.length src) dst.

(** The loop that writes the size of every source that is not nil. *)
Definition setSourceSizes (srcs : list (option Image)) (usizes : list float32)
  : list float32 :=
  fold_left
    (fun us (isrc : nat * option Image) =>
       let '(i, src) := isrc in
       match src with
       | Some im =>
           let '(w, h) := InternalSize im in
           setIndex (setIndex us (2 * Z.of_nat i) (of_int w))
             (2 * Z.of_nat i + 1) (of_int h)
       | None => us
       end)
    (combine (seq 0 (List.length srcs)) srcs) usizes.

Definition storeUniform (q : commandQueue) (start : Z) (vals : list float32)
  : commandQueue :=
  setFloat32sBuffer q (store (float32sBuffer q) start vals).

Definition prependPreservedUniforms (q : commandQueue)
    (uniforms : list (list float32)) (dst : Image) (srcs : Srcs)
    (offsets : Offsets) (dstRegion srcRegion : Region)
  : list (list float32) * commandQueue :=
  let n := Z.to_nat PreservedUniformVariablesCount in
  let uniforms := uniforms ++ repeat [] n in
  let uniforms := firstn n uniforms ++ copy (skipn n uniforms) uniforms in
  (* the destination texture size *)
  let '(dw, dh) := InternalSize dst in
  let '(p, _, q) := allocFloat32s q 2 in
  let udstsize := [of_int dw; of_int dh] in
  let q := storeUniform q p udstsize in
  let uniforms := setIndex uniforms TextureDestinationSizeUniformVariableIndex udstsize in
  (* the source texture sizes *)
  let '(p, s, q) := allocFloat32s q (2 * len (srcs_list srcs)) in
  let usizes := setSourceSizes (srcs_list srcs) s in
  let q := storeUniform q p usizes in
  let uniforms := setIndex uniforms TextureSourceSizesUniformVariableIndex usizes in
  (* the destination region *)
  let '(p, _, q) := allocFloat32s q 2 in
  let udstrorig := [div (X dstRegion) (of_int dw); div (Y dstRegion) (of_int dh)] in
  let q := storeUniform q p udstrorig in
  let uniforms :=
    setIndex uniforms TextureDestinationRegionOriginUniformVariableIndex udstrorig in
  let '(p, _, q) := allocFloat32s q 2 in
  let udstrsize :=
    [div (Width dstRegion) (of_int dw); div (Height dstRegion) (of_int dh)] in
  let q := storeUniform q p udstrsize in
  let uniforms :=
    setIndex uniforms TextureDestinationRegionSizeUniformVariableIndex udstrsize in
  let '(srcRegion, offsets) :=
    match fst (fst (fst srcs)) with
    | Some src0 =>
        let '(w, h) := InternalSize src0 in
        ({| X := div (X srcRegion) (of_int w); Y := div (Y srcRegion) (of_int h);
            Width := div (Width srcRegion) (of_int w);
            Height := div (Height srcRegion) (of_int h) |},
         map (fun o : float32 * float32 =>
                (div (fst o) (of_int w), div (snd o) (of_int h)))
           (offsets_list offsets))
    | None => (srcRegion, offsets_list offsets)
    end in
  (* the source offsets *)
  let '(p, _, q) := allocFloat32s q (2 * len offsets) in
  let uoffsets := flat_map (fun o : float32 * float32 => [fst o; snd o]) offsets in
  let q := storeUniform q p uoffsets in
  let uniforms := setIndex uniforms TextureSourceOffsetsUniformVariableIndex uoffsets in
  (* the source region of texture0 *)
  let '(p, _, q) := allocFloat32s q 2 in
  let usrcrorig := [X srcRegion; Y srcRegion] in
  let q := storeUniform q p usrcrorig in
  let uniforms :=
    setIndex uniforms TextureSourceRegionOriginUniformVariableIndex usrcrorig in
  let '(p, _, q) := allocFloat32s q 2 in
  let usrcrsize := [Width srcRegion; Height srcRegion] in
  let q := storeUniform q p usrcrsize in
  let uniforms :=
    setIndex uniforms TextureSourceRegionSizeUniformVariableIndex usrcrsize in
  (* the projection matrix *)
  let '(p, _, q) := allocFloat32s q 16 in
  let umatrix :=
    [div (of_int 2) (of_int dw); zero; zero; zero;
     zero; div (of_int 2) (of_int dh); zero; zero;
     zero; zero; of_int 1; zero;
     of_int (-1); of_int (-1); zero; of_int 1] in
  let q := storeUniform q p umatrix in
  let uniforms := setIndex uniforms ProjectionMatrixUniformVariableIndex umatrix in
  (uniforms, q).

(** ** Enqueueing *)

Definition enqueuePanic : string :=
  "graphicscommand: len(indices) must be <= graphics.IndicesCount but not at EnqueueDrawTrianglesCommand".

Definition boundsPanic : string := "slice bounds out of range".

Definition EnqueueDrawTrianglesCommand (q : commandQueue) (dst : Image)
    (srcs : Srcs) (offsets : Offsets) (vertices0 : list float32)
    (indices0 : list Z) (blend : Blend) (dstRegion srcRegion : Region)
    (shader : Shader) (uniforms : list (list float32)) (evenOdd : bool)
  : outcome commandQueue :=
  if len indices0 >? IndicesCount then Panic enqueuePanic
  else
    let split :=
      mustUseDifferentVertexBuffer (tmpNumVertexFloats q + len vertices0)
        (tmpNumIndices q + len indices0) in
    let tmpV := if split then 0 else tmpNumVertexFloats q in
    let tmpI := if split then 0 else tmpNumIndices q in
    let vs := vertices q ++ vertices0 in
    let es := appendIndices (indices q) indices0 (uint16 (tmpV / VertexFloatCount)) in
    let tmpV := tmpV + len vertices0 in
    let tmpI := tmpI + len indices0 in
    let '(uniforms, q1) :=
      prependPreservedUniforms q uniforms dst srcs offsets dstRegion srcRegion in
    let uniforms := FilterUniformVariables shader uniforms in
    let queue (cs : list command) (p : list drawTrianglesCommand) : commandQueue :=
      {| commands := cs; vertices := vs; indices := es;
         tmpNumVertexFloats := tmpV; tmpNumIndices := tmpI; pool := p;
         float32sBuffer := float32sBuffer q1 |} in
    let fresh : outcome commandQueue :=
      match lastVertices vs (len vertices0) with
      | None => Panic boundsPanic
      | Some v =>
          Ret (queue
                 (commands q ++
                  [drawTriangles
                     {| c_dst := dst; c_srcs := srcs; c_vertices := v;
                        c_nindices := len indices0; c_blend := blend;
                        c_dstRegion := dstRegion; c_shader := shader;
                        c_uniforms := uniforms; c_evenOdd := evenOdd |}])
                 (pool_get (pool q)))
      end in
    if negb split && (0 <? len (commands q)) then
      match unsnoc (commands q) with
      | Some (cs, drawTriangles last) =>
          if CanMergeWithDrawTrianglesCommand last dst srcs vertices0 blend
               dstRegion shader uniforms evenOdd
          then
            match lastVertices vs (len vertices0 + numVertices last) with
            | None => Panic boundsPanic
            | Some v =>
                Ret (queue
                       (cs ++ [drawTriangles
                                 (addNumIndices (setVertices last v) (len indices0))])
                       (pool q))
            end
          else fresh
      | _ => fresh
      end
    else fresh.

(** A sequence of draws, enqueued one after the other. *)
Definition enqueueDraw (q : commandQueue) (d : draw) : outcome commandQueue :=
  EnqueueDrawTrianglesCommand q (d_dst d) (d_srcs d) (d_offsets d)
    (d_vertices d) (d_indices d) (d_blend d) (d_dstRegion d) (d_srcRegion d)
    (d_shader d) (d_uniforms d) (d_evenOdd d).

Fixpoint enqueueDraws (q : commandQueue) (ds : list draw) : outcome commandQueue :=
  match ds with
  | [] => Ret q
  | d :: ds' =>
      match enqueueDraw q d with
      | Ret q1 => enqueueDraws q1 ds'
      | Panic msg => Panic msg
      | Diverge => Diverge
      end
  end.

(** [Enqueue], for the other variants. *)
Definition Enqueue (q : commandQueue) (c : command) : commandQueue :=
  {| commands := commands q ++ [c]; vertices := vertices q; indices := indices q;
     tmpNumVertexFloats := tmpNumVertexFloats q;
     tmpNumIndices := tmpNumIndices q; pool := pool q;
     float32sBuffer := float32sBuffer q |}.

(** ** Flushing *)

Definition flushPanic : string :=
  "graphicscommand: dtc.NumIndices() must be <= graphics.IndicesCount but not at Flush".

(** The loop that measures a chunk: the vertex floats, the indices and the
    commands it takes from the front of [cs]. *)
Fixpoint scanChunk (cs : list command) (nv ne nc : Z) : outcome (Z * Z * Z) :=
  match cs with
  | [] => Ret (nv, ne, nc)
  | drawTriangles dtc :: cs' =>
      if numIndices dtc >? IndicesCount then Panic flushPanic
      else if (nc >? 0)
              && mustUseDifferentVertexBuffer (nv + numVertices dtc) (ne + numIndices dtc)
      then Ret (nv, ne, nc)
      else scanChunk cs' (nv + numVertices dtc) (ne + numIndices dtc) (nc + 1)
  | _ :: cs' => scanChunk cs' nv ne (nc + 1)
  end.

(** The loop that executes the commands of a chunk. *)
Fixpoint execChunk (drv : driver) (cs : list command) (indexOffset : Z) (tr : trace)
  : option error * trace :=
  match cs with
  | [] => (None, tr)
  | c :: cs' =>
      match Exec drv c indexOffset tr with
      | (Some err, tr1) => (Some err, tr1)
      | (None, tr1) =>
          execChunk drv cs'
            (match c with
             | drawTriangles dtc => indexOffset + numIndices dtc
             | _ => indexOffset
             end) tr1
      end
  end.

(** [for len(cs) > 0 { ... }]: every round takes at least one command, so
    [len(cs)] rounds are enough ([flushChunks_returns]).  The slices have no
    spare capacity here: [vs[:nv]] is in range when [nv <= len(vs)]. *)
Fixpoint flushChunks (fuel : nat) (drv : driver) (cs : list command)
    (vs : list float32) (es : list Z) (tr : trace)
  : outcome (option error) * trace :=
  match cs with
  | [] => (Ret None, tr)
  | _ :: _ =>
      match fuel with
      | O => (Diverge, tr)
      | S fuel' =>
          match scanChunk cs 0 0 0 with
          | Panic msg => (Panic msg, tr)
          | Diverge => (Diverge, tr)
          | Ret (nv, ne, nc) =>
              let run (vs1 : list float32) (es1 : list Z) (tr1 : trace) :=
                match execChunk drv (firstn (Z.to_nat nc) cs) 0 tr1 with
                | (Some err, tr2) => (Ret (Some err), tr2)
                | (None, tr2) =>
                    flushChunks fuel' drv (skipn (Z.to_nat nc) cs) vs1 es1 tr2
                end in
              if 0 <? ne then
                if (nv <=? len vs) && (ne <=? len es) then
                  match invoke drv tr
                          (SetVertices (firstn (Z.to_nat nv) vs)
                             (firstn (Z.to_nat ne) es)) with
                  | (Some err, tr1) => (Ret (Some err), tr1)
                  | (None, tr1) =>
                      run (skipn (Z.to_nat nv) vs) (skipn (Z.to_nat ne) es) tr1
                  end
                else (Panic boundsPanic, tr)
              else run vs es tr
          end
      end
  end.

(** The deferred release of the commands: every draw returns to the pool. *)
Definition release (cs : list command) (p : list drawTrianglesCommand)
  : list drawTrianglesCommand :=
  fold_left
    (fun p c => match c with drawTriangles c => pool_put p c | _ => p end) cs p.

(** [flush]: what the call gives (a value, or a panic that goes on after the
    deferred function has run), the queue and the calls made. *)
Definition flush (drv : driver) (q : commandQueue) (endFrame : bool) (tr : trace)
  : outcome (option error) * commandQueue * trace :=
  if (len (commands q) =? 0) && negb endFrame then (Ret None, q, tr)
  else
    match invoke drv tr Begin with
    | (Some err, tr1) => (Ret (Some err), q, tr1)
    | (None, tr1) =>
        let '(r, tr2) :=
          flushChunks (List.length (commands q)) drv (commands q)
            (vertices q) (indices q) tr1 in
        let '(err1, tr3) := invoke drv tr2 (End endFrame) in
        let r :=
          match r with
          | Ret None => Ret err1
          | _ => r
          end in
        (r,
         {| commands := []; vertices := []; indices := [];
            tmpNumVertexFloats := 0; tmpNumIndices := 0;
            pool := release (commands q) (pool q);
            float32sBuffer := float32sBuffer q |},
         tr3)
    end.

(** [Flush]: [flush] runs on the rendering thread and [Flush] waits for it. *)
Definition Flush (drv : driver) (q : commandQueue) (endFrame : bool) (tr : trace)
  : outcome (option error) * commandQueue * trace :=
  let '(r, q1, tr1) := flush drv q endFrame tr in
  match r with
  | Ret _ =>
      (r,
       if endFrame
       then setFloat32sBuffer q1 {| arr := arr (float32sBuffer q1); used := 0 |}
       else q1,
       tr1)
  | _ => (r, q1, tr1)
  end.

(** ** Notions the properties are stated with *)

(** The states of the queue a program can reach: from the empty queue, by
    enqueueing a draw, by enqueueing a command of another variant, and by a
    flush that returned. *)
Definition isDraw (c : command) : bool :=
  match c with drawTriangles _ => true | _ => false end.

Inductive reachable : commandQueue -> Prop :=
| reach_init : reachable theCommandQueue
| reach_Enqueue (q : commandQueue) (c : command) :
    reachable q -> isDraw c = false -> reachable (Enqueue q c)
| reach_EnqueueDrawTriangles (q : commandQueue) (dst : Image) (srcs : Srcs)
    (offsets : Offsets) (vs : list float32) (es : list Z) (blend : Blend)
    (dstRegion srcRegion : Region) (shader : Shader)
    (uniforms : list (list float32)) (evenOdd : bool) (q' : commandQueue) :
    reachable q ->
    EnqueueDrawTrianglesCommand q dst srcs offsets vs es blend dstRegion
      srcRegion shader uniforms evenOdd = Ret q' ->
    reachable q'
| reach_Flush (q : commandQueue) (drv : driver) (endFrame : bool) (tr : trace)
    (r : option error) (q' : commandQueue) (tr' : trace) :
    reachable q -> Flush drv q endFrame tr = (Ret r, q', tr') -> reachable q'.

(** Division by the width, and by the height, of the first source when there
    is one: what [prependPreservedUniforms] does to the source region and to
    the offsets. *)
Definition bySource0Width (srcs : Srcs) (x : float32) : float32 :=
  match fst (fst (fst srcs)) with
  | Some src0 => div x (of_int (fst (InternalSize src0)))
  | None => x
  end.

Definition bySource0Height (srcs : Srcs) (y : float32) : float32 :=
  match fst (fst (fst srcs)) with
  | Some src0 => div y (of_int (snd (InternalSize src0)))
  | None => y
  end.

End Queue.

(** The vertex floats and the indices a command stands for. *)
Definition cmdVertices (c : command) : list float32 :=
  match c with drawTriangles d => c_vertices d | _ => [] end.

Definition cmdNumIndices (c : command) : Z :=
  match c with drawTriangles d => c_nindices d | _ => 0 end.

Definition sumZ (l : list Z) : Z := fold_right Z.add 0 l.

(** The capacity of one upload. *)
Definition maxVertexFloats : Z := IndicesCount * VertexFloatCount.

(** The offset added to the indices of each draw when it is enqueued: the
    number of vertices its chunk holds so far, as a [uint16].  [tmpV] and
    [tmpI] are the vertex floats and the indices of the current chunk. *)
Fixpoint rebaseOffsets (tmpV tmpI : Z) (ds : list draw) : list Z :=
  match ds with
  | [] => []
  | d :: ds' =>
      let split :=
        mustUseDifferentVertexBuffer (tmpV + len (d_vertices d))
          (tmpI + len (d_indices d)) in
      let tV := if split then 0 else tmpV in
      let tI := if split then 0 else tmpI in
      uint16 (tV / VertexFloatCount)
      :: rebaseOffsets (tV + len (d_vertices d)) (tI + len (d_indices d)) ds'
  end.

(** Undoing the rebasing: the buffer is cut into the pieces of the given
    lengths and the offset of each piece is subtracted, as a [uint16]. *)
Fixpoint undoRebase (offs lens : list Z) (buf : list Z) : list (list Z) :=
  match offs, lens with
  | o :: offs', n :: lens' =>
      map (fun e => uint16 (e - o)) (firstn (Z.to_nat n) buf)
      :: undoRebase offs' lens' (skipn (Z.to_nat n) buf)
  | _, _ => []
  end.

(** The vertex and index buffers of the [SetVertices] calls, in order. *)
Definition uploads (calls : list call) : list (list float32 * list Z) :=
  flat_map (fun k => match k with SetVertices v e => [(v, e)] | _ => [] end) calls.

(** A draw the amended chunking property speaks of: at least one index and
    no more than the ceiling, no more vertex floats than one upload holds,
    and indices that are [uint16] values. *)
Definition drawWithinChunk (d : draw) : Prop :=
  1 <= len (d_indices d) <= IndicesCount
  /\ len (d_vertices d) <= maxVertexFloats
  /\ Forall (fun e => 0 <= e < 2 ^ 16) (d_indices d).

(** A driver that never fails. *)
Definition neverFails (drv : driver) : Prop :=
  forall (tr : trace) (k : call), answer drv tr k = None.

(** The first error among the answers to [calls], made after [tr]. *)
Fixpoint firstError (drv : driver) (tr : trace) (calls : list call) : option error :=
  match calls with
  | [] => None
  | c :: calls' =>
      match answer drv tr c with
      | Some err => Some err
      | None => firstError drv (tr ++ [c]) calls'
      end
  end.

(** What holds of every queue a program can reach ([reachable_queueInv]):
    the vertex array is the vertices of the queued draws, in order; the index
    array has as many elements as they have indices; no draw is beyond the
    ceiling; the pool is within its bound; the last draw belongs to the chunk
    the counters describe; and an empty queue has its counters at zero. *)
Definition queueInv (q : commandQueue) : Prop :=
  vertices q = flat_map cmdVertices (commands q)
  /\ len (indices q) = sumZ (map cmdNumIndices (commands q))
  /\ Forall (fun c => 0 <= cmdNumIndices c <= IndicesCount) (commands q)
  /\ len (pool q) <= 1024
  /\ 0 <= tmpNumVertexFloats q
  /\ 0 <= tmpNumIndices q <= IndicesCount
  /\ (forall cs last, commands q = cs ++ [drawTriangles last] ->
      c_nindices last <= tmpNumIndices q
      /\ numVertices last <= tmpNumVertexFloats q)
  /\ (commands q = [] -> tmpNumVertexFloats q = 0 /\ tmpNumIndices q = 0).

Definition isBeginEnd (c : call) : bool :=
  match c with Begin | End _ => true | _ => false end.

Definition isSetVertices (c : call) : bool :=
  match c with SetVertices _ _ => true | _ => false end.

Definition isDrawTriangles (c : call) : bool :=
  match c with DrawTriangles _ _ _ _ _ _ _ _ _ => true | _ => false end.

(** A call made between [Begin] and [End]. *)
Definition bodyCall (k : call) : Prop := isBeginEnd k = false.

(** A command within the ceiling of the index count. *)
Definition withinCeiling (c : command) : Prop := 0 <= cmdNumIndices c <= IndicesCount.

(** The length of the index buffer last uploaded, after the calls. *)
Definition lastUpload (cur : option Z) (calls : list call) : option Z :=
  fold_left
    (fun cur k => match k with SetVertices _ es => Some (len es) | _ => cur end)
    calls cur.

(** Every [DrawTriangles] call draws at least one index, and only indices of
    the buffer last uploaded; [cur] is the length of that buffer, if any. *)
Fixpoint drawsWithinUpload (cur : option Z) (calls : list call) : Prop :=
  match calls with
  | [] => True
  | k :: calls' =>
      match k with
      | SetVertices _ es => drawsWithinUpload (Some (len es)) calls'
      | DrawTriangles _ _ _ n off _ _ _ _ =>
          match cur with
          | Some l => 0 <= off /\ 0 < n /\ off + n <= l
          | None => False
          end
          /\ drawsWithinUpload cur calls'
      | _ => drawsWithinUpload cur calls'
      end
  end.

(** A call without its index offset. *)
Definition eraseOffset (k : call) : call :=
  match k with
  | DrawTriangles dst srcs shader n _ blend dstRegion uniforms evenOdd =>
      DrawTriangles dst srcs shader n 0 blend dstRegion uniforms evenOdd
  | _ => k
  end.

(** The calls a command makes when it is executed at the index offset [off],
    and at the offset 0. *)
Definition callsAt (c : command) (off : Z) : list call :=
  snd (Exec (fun _ _ => None) c off []).

Definition commandCalls (c : command) : list call := callsAt c 0.

(** The calls of the commands of a chunk, every draw at the offset of the
    indices of the draws before it. *)
Fixpoint chunkCalls (cs : list command) (off : Z) : list call :=
  match cs with
  | [] => []
  | c :: cs' => callsAt c off ++ chunkCalls cs' (off + cmdNumIndices c)
  end.

(** The number of indices a call draws. *)
Definition drawnIndices (k : call) : Z :=
  match k with DrawTriangles _ _ _ n _ _ _ _ _ => n | _ => 0 end.

Definition notSetVertices (k : call) : bool := negb (isSetVertices k).

(** A draw whose indices name vertices of the draw; an upload whose indices
    name vertices of the upload. *)
Definition drawAddressed (d : draw) : Prop :=
  Forall (fun e => 0 <= e < len (d_vertices d) / VertexFloatCount) (d_indices d).

Definition uploadAddressed (u : list float32 * list Z) : Prop :=
  Forall (fun i => 0 <= i < len (fst u) / VertexFloatCount) (snd u).

End GraphicsCommand.

(** * Lengths and machine integers *)

Lemma len_nonneg {A : Type} (l : list A) : 0 <= len l.
Proof. unfold len. lia. Qed.

Lemma len_nil {A : Type} : len (@nil A) = 0.
Proof. reflexivity. Qed.

Lemma len_cons {A : Type} (x : A) (l : list A) : len (x :: l) = 1 + len l.
Proof. unfold len. cbn [List.length]. lia. Qed.

Lemma len_app {A : Type} (l1 l2 : list A) : len (l1 ++ l2) = len l1 + len l2.
Proof. unfold len. rewrite length_app. lia. Qed.

Lemma len_firstn {A : Type} (n : Z) (l : list A) :
  0 <= n <= len l -> len (firstn (Z.to_nat n) l) = n.
Proof. unfold len. intros H. rewrite length_firstn. lia. Qed.

Lemma len_skipn {A : Type} (n : Z) (l : list A) :
  0 <= n <= len l -> len (skipn (Z.to_nat n) l) = len l - n.
Proof. unfold len. intros H. rewrite length_skipn. lia. Qed.

Lemma len_map {A B : Type} (f : A -> B) (l : list A) : len (map f l) = len l.
Proof. unfold len. rewrite length_map. reflexivity. Qed.

Lemma len_zero_nil {A : Type} (l : list A) : len l = 0 -> l = [].
Proof. destruct l; [reflexivity|]. rewrite len_cons. pose proof (len_nonneg l). lia. Qed.

(** * Exact binary32 arithmetic *)

(** Where the numbers are integers, or sixteenths, of fewer than 24 bits the
    operations of binary32 do not round. *)

Module Float32Facts.

Lemma pshift_S p k : pshift p (S k) = xO (pshift p k).
Proof. reflexivity. Qed.

Lemma pshift_value p k : Z.pos (pshift p k) = Z.pos p * 2 ^ Z.of_nat k.
Proof.
  induction k as [|k IH]; [simpl; lia|].
  rewrite pshift_S, Pos2Z.inj_xO, IH, Nat2Z.inj_succ, Z.pow_succ_r by lia. lia.
Qed.

Lemma pshift_digits p k :
  Z.pos (digits2_pos (pshift p k)) = Z.pos (digits2_pos p) + Z.of_nat k.
Proof.
  induction k as [|k IH]; [simpl; lia|].
  rewrite pshift_S. cbn [digits2_pos]. rewrite Pos2Z.inj_succ, IH. lia.
Qed.

Lemma pshift_add p j k : pshift (pshift p j) k = pshift p (j + k).
Proof.
  unfold pshift. rewrite Nat.add_comm, Nat.iter_add. reflexivity.
Qed.

Lemma iter_xO_pshift p d : Pos.iter xO p d = pshift p (Pos.to_nat d).
Proof. unfold pshift. apply Pos2Nat.inj_iter. Qed.

Lemma pshift_inj_value p q k : Z.pos q = Z.pos p * 2 ^ Z.of_nat k -> q = pshift p k.
Proof.
  intros H. apply Pos2Z.inj. rewrite pshift_value. exact H.
Qed.

Lemma digits2_size p : digits2_pos p = Pos.size p.
Proof. induction p; simpl; congruence. Qed.

Lemma digits_bounds p :
  2 ^ (Z.pos (digits2_pos p) - 1) <= Z.pos p < 2 ^ Z.pos (digits2_pos p).
Proof.
  rewrite digits2_size.
  assert (Hgt : Z.pos p < 2 ^ Z.pos (Pos.size p)).
  { pose proof (Pos.size_gt p) as H. apply Pos2Z.pos_lt_pos in H.
    rewrite Pos2Z.inj_pow in H. exact H. }
  assert (Hle : 2 ^ Z.pos (Pos.size p) <= 2 * Z.pos p).
  { pose proof (Pos.size_le p) as H. apply Pos2Z.pos_le_pos in H.
    rewrite Pos2Z.inj_pow in H. exact H. }
  split; [|exact Hgt].
  assert (E : 2 ^ Z.pos (Pos.size p) = 2 * 2 ^ (Z.pos (Pos.size p) - 1)).
  { rewrite <- Z.pow_succ_r by lia. f_equal. lia. }
  lia.
Qed.

Lemma digits_le p n : 0 <= n -> Z.pos p < 2 ^ n -> Z.pos (digits2_pos p) <= n.
Proof.
  intros Hn Hp. destruct (digits_bounds p) as [Hlo _].
  destruct (Z.le_gt_cases (Z.pos (digits2_pos p)) n) as [H|H]; [exact H|].
  assert (2 ^ n <= 2 ^ (Z.pos (digits2_pos p) - 1)) by (apply Z.pow_le_mono_r; lia).
  lia.
Qed.

(** iter_pos as iteration over nat *)
Lemma iter_pos_nat {A : Type} (f : A -> A) (n : positive) :
  forall x, iter_pos f n x = Nat.iter (Pos.to_nat n) f x.
Proof.
  induction n as [n IH|n IH|]; intros x; cbn [iter_pos].
  - rewrite !IH, Pos2Nat.inj_xI.
    replace (S (2 * Pos.to_nat n)) with (Pos.to_nat n + (Pos.to_nat n + 1))%nat by lia.
    rewrite !Nat.iter_add. reflexivity.
  - rewrite !IH, Pos2Nat.inj_xO.
    replace (2 * Pos.to_nat n)%nat with (Pos.to_nat n + Pos.to_nat n)%nat by lia.
    rewrite Nat.iter_add. reflexivity.
  - reflexivity.
Qed.

Lemma shr_exact (k : nat) :
  forall p, Nat.iter k shr_1 {| shr_m := Z.pos (pshift p k); shr_r := false; shr_s := false |}
            = {| shr_m := Z.pos p; shr_r := false; shr_s := false |}.
Proof.
  induction k as [|k IH]; intros p; [reflexivity|].
  rewrite Nat.iter_succ_r. rewrite pshift_S. cbn [shr_1 orb].
  apply IH.
Qed.

Lemma fexp_normal (t : Z) : -149 <= t -> fexp prec emax (24 + t) = t.
Proof.
  intros H. unfold fexp, emin, prec, emax. lia.
Qed.

(** A mantissa of 24 digits followed by [n] zero bits rounds to itself. *)
Lemma binary_round_aux_exact (s : bool) (M : positive) (t : Z) (n : nat) :
  Z.pos (digits2_pos M) = 24 -> -149 <= t <= 104 ->
  binary_round_aux prec emax s (Z.pos (pshift M n)) (t - Z.of_nat n) loc_Exact
  = S754_finite s M t.
Proof.
  intros Hd Ht.
  assert (Hsecond : shr_fexp prec emax (Z.pos M) t loc_Exact
                    = ({| shr_m := Z.pos M; shr_r := false; shr_s := false |}, t)).
  { unfold shr_fexp. cbn [Zdigits2]. rewrite Hd, fexp_normal by lia.
    rewrite Z.sub_diag. reflexivity. }
  assert (Hfirst : shr_fexp prec emax (Z.pos (pshift M n)) (t - Z.of_nat n) loc_Exact
                   = ({| shr_m := Z.pos M; shr_r := false; shr_s := false |}, t)).
  { destruct n as [|n]; [cbn [pshift Nat.iter Z.of_nat]; rewrite Z.sub_0_r; exact Hsecond|].
    unfold shr_fexp. cbn [Zdigits2]. rewrite pshift_digits, Hd.
    replace (24 + Z.of_nat (S n) + (t - Z.of_nat (S n))) with (24 + t) by lia.
    rewrite fexp_normal by lia.
    replace (t - (t - Z.of_nat (S n))) with (Z.pos (Pos.of_succ_nat n)) by lia.
    cbn [shr shr_record_of_loc]. rewrite iter_pos_nat, SuccNat2Pos.id_succ, shr_exact.
    f_equal. lia. }
  unfold binary_round_aux. rewrite Hfirst. cbn [shr_m loc_of_shr_record round_nearest_even].
  rewrite Hsecond. cbn [shr_m]. unfold emax, prec.
  destruct (Z.leb_spec t (128 - 24)); [reflexivity|lia].
Qed.

Lemma binary_round_exact (s : bool) (c : positive) (k : nat) (e : Z) :
  Z.pos (digits2_pos c) <= 24 ->
  -149 <= e + Z.pos (digits2_pos c) - 24 <= 104 ->
  binary_round prec emax s (pshift c k) (e - Z.of_nat k) = normal s c e.
Proof.
  intros Hd Ht. unfold binary_round, normal.
  rewrite pshift_digits.
  remember (Z.pos (digits2_pos c)) as d eqn:Ed.
  replace (d + Z.of_nat k + (e - Z.of_nat k)) with (24 + (e + d - 24)) by lia.
  rewrite fexp_normal by lia.
  remember (e + d - 24) as t eqn:Et.
  remember (pshift c (Z.to_nat (24 - d))) as M eqn:EM.
  assert (HM : Z.pos (digits2_pos M) = 24).
  { rewrite EM, pshift_digits. lia. }
  unfold shl_align.
  destruct (t - (e - Z.of_nat k)) as [|p|p] eqn:Ediff.
  - replace (pshift c k) with (pshift M 0).
    2:{ rewrite EM, pshift_add. f_equal. lia. }
    replace (e - Z.of_nat k) with (t - Z.of_nat 0) by (cbn [Z.of_nat]; lia).
    apply binary_round_aux_exact; [exact HM|lia].
  - replace (pshift c k) with (pshift M (Pos.to_nat p)).
    2:{ rewrite EM, pshift_add. f_equal. lia. }
    replace (e - Z.of_nat k) with (t - Z.of_nat (Pos.to_nat p)) by lia.
    apply binary_round_aux_exact; [exact HM|lia].
  - rewrite iter_xO_pshift, pshift_add.
    replace (k + Pos.to_nat p)%nat with (Z.to_nat (24 - d)) by lia. rewrite <- EM.
    replace t with (t - Z.of_nat 0) at 1 by (cbn [Z.of_nat]; lia).
    change (Z.pos M) with (Z.pos (pshift M 0)).
    apply binary_round_aux_exact; [exact HM|lia].
Qed.

Lemma of_scaled_normal (A e : Z) :
  A <> 0 -> Z.abs A < 2 ^ 24 -> -126 <= e <= 80 ->
  of_scaled A e = normal (A <? 0) (Z.to_pos (Z.abs A)) e.
Proof.
  intros HA Hlt He. unfold of_scaled, binary_normalize.
  destruct A as [|a|a]; [congruence| |]; cbn [Z.abs Z.to_pos Z.ltb Z.compare].
  - pose proof (digits_le a 24 ltac:(lia) Hlt). destruct (digits_bounds a).
    replace e with (e - Z.of_nat 0) at 1 by (cbn [Z.of_nat]; lia).
    change a with (pshift a 0) at 1.
    apply binary_round_exact; lia.
  - pose proof (digits_le a 24 ltac:(lia) Hlt). destruct (digits_bounds a).
    replace e with (e - Z.of_nat 0) at 1 by (cbn [Z.of_nat]; lia).
    change a with (pshift a 0) at 1.
    apply binary_round_exact; lia.
Qed.

Lemma of_scaled_shift (A e K : Z) :
  Z.abs A < 2 ^ 24 -> -126 <= e <= 80 -> 0 <= K ->
  of_scaled (A * 2 ^ K) (e - K) = of_scaled A e.
Proof.
  intros Hlt He HK.
  destruct (Z.eq_dec A 0) as [->|HA]; [reflexivity|].
  rewrite (of_scaled_normal A e) by assumption.
  assert (Hpow : 0 < 2 ^ K) by (apply Z.pow_pos_nonneg; lia).
  unfold of_scaled, binary_normalize.
  destruct A as [|a|a]; [congruence| |]; cbn [Z.abs Z.to_pos Z.ltb Z.compare] in *.
  - destruct (Z.pos a * 2 ^ K) as [|m|m] eqn:Em; try lia.
    pose proof (digits_le a 24 ltac:(lia) Hlt). destruct (digits_bounds a).
    rewrite (pshift_inj_value a m (Z.to_nat K)) by (rewrite Z2Nat.id by lia; lia).
    replace (e - K) with (e - Z.of_nat (Z.to_nat K)) by lia.
    apply binary_round_exact; lia.
  - destruct (Z.neg a * 2 ^ K) as [|m|m] eqn:Em; try lia.
    pose proof (digits_le a 24 ltac:(lia) Hlt). destruct (digits_bounds a).
    rewrite (pshift_inj_value a m (Z.to_nat K)) by (rewrite Z2Nat.id by lia; lia).
    replace (e - K) with (e - Z.of_nat (Z.to_nat K)) by lia.
    apply binary_round_exact; lia.
Qed.

Lemma shl_align_value (m : positive) (e ez : Z) :
  ez <= e -> Z.pos (fst (shl_align m e ez)) = Z.pos m * 2 ^ (e - ez).
Proof.
  intros H. unfold shl_align.
  destruct (ez - e) as [|p|p] eqn:E; cbn [fst]; try lia.
  - replace (e - ez) with 0 by lia. lia.
  - rewrite iter_xO_pshift, pshift_value. f_equal. f_equal. lia.
Qed.

(** The signed integer [a] such that a nonzero [of_scaled a e] is
    [normal (a <? 0) |a| e]. *)
Lemma normal_sum (op : Z -> Z -> Z) (a b e : Z) :
  a <> 0 -> b <> 0 -> Z.abs a < 2 ^ 24 -> Z.abs b < 2 ^ 24 ->
  Z.abs (op a b) < 2 ^ 24 -> -126 <= e <= 80 ->
  (forall x y k, op (x * k) (y * k) = op x y * k) ->
  let sa := a <? 0 in let sb := b <? 0 in
  let ca := Z.to_pos (Z.abs a) in let cb := Z.to_pos (Z.abs b) in
  let ma := pshift ca (Z.to_nat (24 - Z.pos (digits2_pos ca))) in
  let mb := pshift cb (Z.to_nat (24 - Z.pos (digits2_pos cb))) in
  let ea := e + Z.pos (digits2_pos ca) - 24 in
  let eb := e + Z.pos (digits2_pos cb) - 24 in
  let ez := Z.min ea eb in
  binary_normalize prec emax
    (op (cond_Zopp sa (Z.pos (fst (shl_align ma ea ez))))
        (cond_Zopp sb (Z.pos (fst (shl_align mb eb ez))))) ez false
  = of_scaled (op a b) e.
Proof.
  intros Ha Hb Hla Hlb Hlab He Hop sa sb ca cb ma mb ea eb ez.
  assert (Hca : Z.pos ca = Z.abs a) by (unfold ca; lia).
  assert (Hcb : Z.pos cb = Z.abs b) by (unfold cb; lia).
  pose proof (digits_le ca 24 ltac:(lia) ltac:(lia)) as Hda.
  pose proof (digits_le cb 24 ltac:(lia) ltac:(lia)) as Hdb.
  assert (Hez : ez <= ea /\ ez <= eb /\ ez <= e) by (unfold ez, ea, eb; lia).
  rewrite !shl_align_value by lia.
  unfold ma, mb. rewrite !pshift_value, !Z2Nat.id by lia.
  rewrite <- !Z.mul_assoc, <- !Z.pow_add_r by (unfold ea, eb; lia).
  replace (24 - Z.pos (digits2_pos ca) + (ea - ez)) with (e - ez) by (unfold ea; lia).
  replace (24 - Z.pos (digits2_pos cb) + (eb - ez)) with (e - ez) by (unfold eb; lia).
  assert (Ea : cond_Zopp sa (Z.pos ca * 2 ^ (e - ez)) = a * 2 ^ (e - ez)).
  { unfold sa. rewrite Hca. destruct (Z.ltb_spec a 0); cbn [cond_Zopp]; lia. }
  assert (Eb : cond_Zopp sb (Z.pos cb * 2 ^ (e - ez)) = b * 2 ^ (e - ez)).
  { unfold sb. rewrite Hcb. destruct (Z.ltb_spec b 0); cbn [cond_Zopp]; lia. }
  rewrite Ea, Eb, Hop.
  replace ez with (e - (e - ez)) at 2 by lia.
  apply of_scaled_shift; lia.
Qed.

Lemma add_exact (a b e : Z) :
  Z.abs a < 2 ^ 24 -> Z.abs b < 2 ^ 24 -> Z.abs (a + b) < 2 ^ 24 ->
  -126 <= e <= 80 ->
  add (of_scaled a e) (of_scaled b e) = of_scaled (a + b) e.
Proof.
  intros Ha Hb Hab He.
  destruct (Z.eq_dec a 0) as [->|Na]; destruct (Z.eq_dec b 0) as [->|Nb].
  - reflexivity.
  - rewrite Z.add_0_l. rewrite (of_scaled_normal b e) by assumption. reflexivity.
  - rewrite Z.add_0_r. rewrite (of_scaled_normal a e) by assumption. reflexivity.
  - rewrite (of_scaled_normal a e), (of_scaled_normal b e) by assumption.
    unfold normal, add. cbn [SFadd].
    apply (normal_sum Z.add a b e); auto. intros; lia.
Qed.

Lemma sub_exact (a b e : Z) :
  Z.abs a < 2 ^ 24 -> Z.abs b < 2 ^ 24 -> Z.abs (a - b) < 2 ^ 24 ->
  -126 <= e <= 80 ->
  sub (of_scaled a e) (of_scaled b e) = of_scaled (a - b) e.
Proof.
  intros Ha Hb Hab He.
  destruct (Z.eq_dec a 0) as [->|Na]; destruct (Z.eq_dec b 0) as [->|Nb].
  - reflexivity.
  - rewrite Z.sub_0_l.
    rewrite (of_scaled_normal b e), (of_scaled_normal (- b) e) by (try assumption; lia).
    unfold normal, sub. cbn [of_scaled binary_normalize SFsub].
    replace (Z.to_pos (Z.abs (- b))) with (Z.to_pos (Z.abs b)) by (f_equal; lia).
    replace (- b <? 0) with (negb (b <? 0)); [reflexivity|].
    destruct (Z.ltb_spec b 0), (Z.ltb_spec (- b) 0); try reflexivity; lia.
  - rewrite Z.sub_0_r. rewrite (of_scaled_normal a e) by assumption. reflexivity.
  - rewrite (of_scaled_normal a e), (of_scaled_normal b e) by assumption.
    unfold normal, sub. cbn [SFsub].
    apply (normal_sum Z.sub a b e); auto. intros; lia.
Qed.

Lemma of_int_sixteenths (n : Z) : Z.abs n < 2 ^ 20 -> of_int n = of_scaled (16 * n) (-4).
Proof.
  intros H. unfold of_int.
  rewrite <- (of_scaled_shift n 0 4) by lia.
  f_equal. lia.
Qed.

Lemma valid_normal (s : bool) (c : positive) (e : Z) :
  Z.pos (digits2_pos c) <= 24 -> -149 <= e + Z.pos (digits2_pos c) - 24 <= 104 ->
  valid (normal s c e) = true.
Proof.
  intros Hd He. unfold valid, normal, valid_binary, bounded, canonical_mantissa.
  rewrite pshift_digits, Z2Nat.id by lia.
  replace (Z.pos (digits2_pos c) + (24 - Z.pos (digits2_pos c))
           + (e + Z.pos (digits2_pos c) - 24))
    with (24 + (e + Z.pos (digits2_pos c) - 24)) by lia.
  rewrite fexp_normal by lia. rewrite Z.eqb_refl. cbn [andb].
  unfold emax, prec. apply Z.leb_le. lia.
Qed.

Lemma valid_of_scaled (j e : Z) :
  Z.abs j < 2 ^ 24 -> -126 <= e <= 80 ->
  valid (of_scaled j e) = true /\ isFinite (of_scaled j e) = true.
Proof.
  intros Hj He. destruct (Z.eq_dec j 0) as [->|Hn]; [split; reflexivity|].
  rewrite of_scaled_normal by assumption.
  split; [|reflexivity].
  pose proof (digits_le (Z.to_pos (Z.abs j)) 24 ltac:(lia) ltac:(lia)).
  destruct (digits_bounds (Z.to_pos (Z.abs j))).
  apply valid_normal; lia.
Qed.

(** The value of a float on the grid of sixteenths. *)
Lemma value_of_scaled (j : Z) :
  Z.abs j < 2 ^ 24 -> (value (of_scaled j (-4)) == j # 16)%Q.
Proof.
  intros Hj. destruct (Z.eq_dec j 0) as [->|Hn]; [reflexivity|].
  rewrite of_scaled_normal by (try assumption; lia).
  set (c := Z.to_pos (Z.abs j)).
  assert (Hc : Z.pos c = Z.abs j) by (unfold c; lia).
  pose proof (digits_le c 24 ltac:(lia) ltac:(lia)) as Hd.
  destruct (digits_bounds c) as [Hlo Hhi].
  unfold normal, value. fold c.
  destruct (Z.leb_spec 0 (-4 + Z.pos (digits2_pos c) - 24)); [lia|].
  unfold Qeq. cbn [Qnum Qden].
  assert (Hp : 0 < 2 ^ (- (-4 + Z.pos (digits2_pos c) - 24)))
    by (apply Z.pow_pos_nonneg; lia).
  rewrite Z2Pos.id by exact Hp.
  rewrite pshift_value, Z2Nat.id by lia.
  replace (- (-4 + Z.pos (digits2_pos c) - 24))
    with (4 + (24 - Z.pos (digits2_pos c))) by lia.
  rewrite Z.pow_add_r by lia. change (2 ^ 4) with 16. change (Z.pos 16) with 16.
  destruct (Z.ltb_spec j 0); cbn [cond_Zopp]; nia.
Qed.

Lemma floor_of_scaled (j : Z) : Z.abs j < 2 ^ 24 -> floor (of_scaled j (-4)) = j / 16.
Proof.
  intros Hj. unfold floor. rewrite (Qfloor_comp _ _ (value_of_scaled j Hj)).
  reflexivity.
Qed.

Lemma eqb_finite_refl (s : bool) (m : positive) (e : Z) :
  eqb (S754_finite s m e) (S754_finite s m e) = true.
Proof.
  unfold eqb, SFeqb, SFcompare.
  rewrite Z.compare_refl, Pos.compare_cont_refl. destruct s; reflexivity.
Qed.

Lemma eqb_finite_true (s : bool) (m m' : positive) (e e' : Z) :
  eqb (S754_finite s m e) (S754_finite s m' e') = true -> m = m' /\ e = e'.
Proof.
  unfold eqb, SFeqb, SFcompare. intros H.
  destruct (Z.compare_spec e e') as [E|E|E].
  - split; [|exact E].
    destruct (Pos.compare_cont Eq m m') eqn:C.
    + apply Pos.compare_eq. exact C.
    + destruct s; discriminate.
    + destruct s; discriminate.
  - destruct s; discriminate.
  - destruct s; discriminate.
Qed.

(** The whole part the code computes, [float32(int(x))] lowered by one for a
    negative [x] that is not whole, is the float of the floor of [x]. *)
Lemma floor_as_computed (x : float32) :
  valid x = true -> isFinite x = true ->
  - 2 ^ 20 < floor x -> floor x + 1 < 2 ^ 20 ->
  (if ltb x zero && neqb x (of_int (to_int x))
   then sub (of_int (to_int x)) (of_int 1)
   else of_int (to_int x))
  = of_int (floor x).
Proof.
  intros Hvalid Hfin Hlo Hhi.
  destruct x as [s0|s0| |s m e]; try discriminate.
  { destruct s0; reflexivity. }
  unfold valid, valid_binary, bounded, canonical_mantissa in Hvalid.
  apply andb_true_iff in Hvalid. destruct Hvalid as [Hcan _].
  apply Z.eqb_eq in Hcan. unfold fexp, emin, prec, emax in Hcan.
  destruct (digits_bounds m) as [Hm1 Hm2].
  assert (He : e < 0).
  { destruct (Z.lt_ge_cases e 0) as [H|H]; [exact H|]. exfalso.
    assert (Hd : Z.pos (digits2_pos m) = 24) by lia.
    rewrite Hd in Hm1. change (2 ^ (24 - 1)) with 8388608 in Hm1.
    unfold floor, value in Hlo, Hhi.
    destruct (Z.leb_spec 0 e); [|lia].
    rewrite Qfloor_Z in Hlo, Hhi.
    pose proof (Z.pow_pos_nonneg 2 e ltac:(lia) H) as Hpe.
    change (2 ^ 20) with 1048576 in *.
    destruct s; cbn [cond_Zopp] in Hlo, Hhi; nia. }
  set (P := 2 ^ (- e)).
  assert (HP : 0 < P) by (apply Z.pow_pos_nonneg; lia).
  assert (Hfloor : floor (S754_finite s m e) = cond_Zopp s (Z.pos m) / P).
  { unfold floor, value. destruct (Z.leb_spec 0 e); [lia|].
    unfold Qfloor. rewrite Z2Pos.id by exact HP. reflexivity. }
  rewrite Hfloor in *.
  assert (Htrunc : trunc_pos m e = Z.pos m / P).
  { unfold trunc_pos. destruct (Z.leb_spec 0 e); [lia|]. reflexivity. }
  assert (Ht0 : 0 <= Z.pos m / P) by (apply Z.div_pos; lia).
  change (2 ^ 20) with 1048576 in *.
  destruct s; cbn [cond_Zopp] in *.
  - (* a negative number *)
    assert (Hlt : ltb (S754_finite true m e) zero = true) by reflexivity.
    rewrite Hlt. cbn [andb].
    destruct (Z.eq_dec (Z.pos m mod P) 0) as [Hmod|Hmod].
    + (* a whole number *)
      assert (Hdiv : - Z.pos m / P = - (Z.pos m / P)).
      { apply Z_div_zero_opp_full. exact Hmod. }
      rewrite Hdiv in *.
      assert (Hmul : Z.pos m = P * (Z.pos m / P)).
      { pose proof (Z.div_mod (Z.pos m) P ltac:(lia)). lia. }
      assert (H1 : 1 <= Z.pos m / P) by nia.
      assert (Hint : to_int (S754_finite true m e) = - (Z.pos m / P)).
      { unfold to_int. rewrite Htrunc. cbn [cond_Zopp]. unfold minInt64, maxInt64.
        destruct (Z.leb_spec (- 2 ^ 63) (- (Z.pos m / P))); [|lia].
        destruct (Z.leb_spec (- (Z.pos m / P)) (2 ^ 63 - 1)); [|lia]. reflexivity. }
      rewrite Hint.
      set (c := Z.to_pos (Z.pos m / P)).
      assert (Hc : Z.pos c = Z.pos m / P) by (unfold c; lia).
      assert (Hof : of_int (- (Z.pos m / P)) = S754_finite true m e).
      { unfold of_int. rewrite of_scaled_normal by lia.
        replace (Z.to_pos (Z.abs (- (Z.pos m / P)))) with c by (unfold c; f_equal; lia).
        replace (- (Z.pos m / P) <? 0) with true
          by (symmetry; apply Z.ltb_lt; lia).
        pose proof (digits_le c 24 ltac:(lia) ltac:(lia)) as Hdc.
        destruct (digits_bounds c) as [Hc1 Hc2].
        assert (Hmc : m = pshift c (Z.to_nat (- e))).
        { apply pshift_inj_value. rewrite Z2Nat.id by lia. fold P. lia. }
        assert (Hdm : Z.pos (digits2_pos m) = Z.pos (digits2_pos c) + - e).
        { rewrite Hmc at 1. rewrite pshift_digits, Z2Nat.id by lia. reflexivity. }
        assert (Hd24 : Z.pos (digits2_pos m) = 24).
        { destruct (Z.max_spec (Z.pos (digits2_pos m) + e - 24) (3 - 128 - 24))
            as [[Hx Hy]|[Hx Hy]]; [|lia].
          exfalso. assert (e = -149) by lia. subst e.
          assert (Z.pos (digits2_pos m) < 24) by lia.
          assert (Z.pos m < 2 ^ 23).
          { eapply Z.lt_le_trans; [exact Hm2|]. apply Z.pow_le_mono_r; lia. }
          assert (2 ^ 23 < P) by (unfold P; apply Z.pow_lt_mono_r; lia).
          nia. }
        unfold normal. f_equal.
        - rewrite Hmc. f_equal. lia.
        - lia. }
      rewrite Hof. unfold neqb. fold (eqb (S754_finite true m e) (S754_finite true m e)).
      rewrite eqb_finite_refl. reflexivity.
    + (* not a whole number *)
      assert (Hdiv : - Z.pos m / P = - (Z.pos m / P) - 1).
      { apply Z_div_nz_opp_full; first [exact Hmod | lia]. }
      rewrite Hdiv in *.
      assert (Hint : to_int (S754_finite true m e) = - (Z.pos m / P)).
      { unfold to_int. rewrite Htrunc. cbn [cond_Zopp]. unfold minInt64, maxInt64.
        destruct (Z.leb_spec (- 2 ^ 63) (- (Z.pos m / P))); [|lia].
        destruct (Z.leb_spec (- (Z.pos m / P)) (2 ^ 63 - 1)); [|lia]. reflexivity. }
      rewrite Hint.
      assert (Hne : neqb (S754_finite true m e) (of_int (- (Z.pos m / P))) = true).
      { unfold neqb. fold (eqb (S754_finite true m e) (of_int (- (Z.pos m / P)))).
        destruct (Z.eq_dec (Z.pos m / P) 0) as [Hz|Hz].
        - rewrite Hz. reflexivity.
        - unfold of_int. rewrite of_scaled_normal by lia.
          replace (- (Z.pos m / P) <? 0) with true
            by (symmetry; apply Z.ltb_lt; lia).
          set (c := Z.to_pos (Z.abs (- (Z.pos m / P)))).
          assert (Hc : Z.pos c = Z.pos m / P) by (unfold c; lia).
          pose proof (digits_le c 24 ltac:(lia) ltac:(lia)) as Hdc.
          destruct (eqb (S754_finite true m e) (normal true c 0)) eqn:Eq; [|reflexivity].
          exfalso. unfold normal in Eq. apply eqb_finite_true in Eq.
          destruct Eq as [Em Ee]. apply Hmod.
          assert (Hval : Z.pos m = Z.pos c * P).
          { rewrite Em at 1. rewrite pshift_value, Z2Nat.id by lia.
            unfold P. f_equal. f_equal. lia. }
          rewrite Hval. apply Z.mod_mul. lia. }
      rewrite Hne. unfold of_int.
      rewrite sub_exact by lia. f_equal.
  - (* a positive number *)
    assert (Hlt : ltb (S754_finite false m e) zero = false) by reflexivity.
    rewrite Hlt. cbn [andb]. f_equal.
    unfold to_int. rewrite Htrunc. cbn [cond_Zopp]. unfold minInt64, maxInt64.
    destruct (Z.leb_spec (- 2 ^ 63) (Z.pos m / P)); [|lia].
    destruct (Z.leb_spec (Z.pos m / P) (2 ^ 63 - 1)); [|lia]. reflexivity.
Qed.

(** What validity says of a finite number: the exponent is in range and the
    mantissa has 24 digits unless the exponent is the least one. *)
Lemma valid_finite_inv (s : bool) (m : positive) (e : Z) :
  valid (S754_finite s m e) = true ->
  -149 <= e <= 104 /\ Z.pos (digits2_pos m) <= 24
  /\ (-149 < e -> Z.pos (digits2_pos m) = 24).
Proof.
  unfold valid, valid_binary, bounded, canonical_mantissa.
  intros H. apply andb_true_iff in H. destruct H as [Hcan Hle].
  apply Z.eqb_eq in Hcan. apply Z.leb_le in Hle.
  unfold fexp, emin, prec, emax in *. lia.
Qed.

Lemma value_scaled (x : float32) :
  valid x = true -> (value x == scaled x # Z.to_pos (2 ^ 149))%Q.
Proof.
  destruct x as [s0|s0| |s m e]; try reflexivity.
  intros Hv. destruct (valid_finite_inv s m e Hv) as [He _].
  unfold value, scaled.
  assert (HD : Z.pos (Z.to_pos (2 ^ 149)) = 2 ^ 149) by reflexivity.
  destruct (Z.leb_spec 0 e).
  - unfold Qeq, inject_Z. cbn [Qnum Qden]. rewrite HD.
    rewrite Z.pow_add_r by lia.
    destruct s; cbn [cond_Zopp]; lia.
  - unfold Qeq. cbn [Qnum Qden]. rewrite HD.
    assert (Hp : 0 < 2 ^ (- e)) by (apply Z.pow_pos_nonneg; lia).
    rewrite Z2Pos.id by exact Hp.
    assert (E : 2 ^ 149 = 2 ^ (e + 149) * 2 ^ (- e)).
    { rewrite <- Z.pow_add_r by lia. f_equal. lia. }
    rewrite E. destruct s; cbn [cond_Zopp]; lia.
Qed.

(** Among valid numbers the one with the smaller exponent is the smaller in
    magnitude. *)
Lemma magnitude_lt (m1 m2 : positive) (e1 e2 : Z) (s1 s2 : bool) :
  valid (S754_finite s1 m1 e1) = true -> valid (S754_finite s2 m2 e2) = true ->
  e1 < e2 -> Z.pos m1 * 2 ^ (e1 + 149) < Z.pos m2 * 2 ^ (e2 + 149).
Proof.
  intros H1 H2 Hlt.
  destruct (valid_finite_inv _ _ _ H1) as (He1 & Hd1 & _).
  destruct (valid_finite_inv _ _ _ H2) as (He2 & _ & Hd2).
  specialize (Hd2 ltac:(lia)).
  destruct (digits_bounds m1) as [_ Hm1]. destruct (digits_bounds m2) as [Hm2 _].
  rewrite Hd2 in Hm2. change (2 ^ (24 - 1)) with 8388608 in Hm2.
  assert (Z.pos m1 < 16777216).
  { eapply Z.lt_le_trans; [exact Hm1|]. change 16777216 with (2 ^ 24).
    apply Z.pow_le_mono_r; lia. }
  assert (Hp : 0 < 2 ^ (e1 + 149)) by (apply Z.pow_pos_nonneg; lia).
  assert (Hq : 2 * 2 ^ (e1 + 149) <= 2 ^ (e2 + 149)).
  { rewrite <- Z.pow_succ_r by lia. apply Z.pow_le_mono_r; lia. }
  nia.
Qed.

(** The comparison of the code is the comparison of the values. *)
Lemma ltb_scaled (x y : float32) :
  valid x = true -> valid y = true -> isFinite x = true -> isFinite y = true ->
  ltb x y = (scaled x <? scaled y).
Proof.
  intros Hx Hy Fx Fy.
  destruct x as [sx|sx| |s1 m1 e1]; try discriminate;
    destruct y as [sy|sy| |s2 m2 e2]; try discriminate.
  - reflexivity.
  - destruct (valid_finite_inv _ _ _ Hy) as (He & _).
    assert (0 < Z.pos m2 * 2 ^ (e2 + 149))
      by (apply Z.mul_pos_pos; [lia|apply Z.pow_pos_nonneg; lia]).
    unfold ltb, SFltb, SFcompare, scaled.
    destruct s2; cbn [cond_Zopp]; symmetry; [apply Z.ltb_ge|apply Z.ltb_lt]; lia.
  - destruct (valid_finite_inv _ _ _ Hx) as (He & _).
    assert (0 < Z.pos m1 * 2 ^ (e1 + 149))
      by (apply Z.mul_pos_pos; [lia|apply Z.pow_pos_nonneg; lia]).
    unfold ltb, SFltb, SFcompare, scaled.
    destruct s1; cbn [cond_Zopp]; symmetry; [apply Z.ltb_lt|apply Z.ltb_ge]; lia.
  - destruct (valid_finite_inv _ _ _ Hx) as (He1 & _).
    destruct (valid_finite_inv _ _ _ Hy) as (He2 & _).
    assert (P1 : 0 < Z.pos m1 * 2 ^ (e1 + 149))
      by (apply Z.mul_pos_pos; [lia|apply Z.pow_pos_nonneg; lia]).
    assert (P2 : 0 < Z.pos m2 * 2 ^ (e2 + 149))
      by (apply Z.mul_pos_pos; [lia|apply Z.pow_pos_nonneg; lia]).
    assert (Hcmp : forall a b, Pos.compare_cont Eq a b = (a ?= b)%positive)
      by reflexivity.
    unfold ltb, SFltb, SFcompare, scaled. rewrite Hcmp.
    destruct (Z.compare_spec e1 e2) as [E|E|E].
    + subst e2.
      assert (Hpw : 0 < 2 ^ (e1 + 149)) by (apply Z.pow_pos_nonneg; lia).
      destruct (Pos.compare_spec m1 m2) as [C|C|C];
        destruct s1, s2; cbn [cond_Zopp CompOpp]; symmetry;
        first [apply Z.ltb_lt | apply Z.ltb_ge]; subst; nia.
    + pose proof (magnitude_lt _ _ _ _ _ _ Hx Hy E).
      destruct s1, s2; cbn [cond_Zopp]; symmetry;
        first [apply Z.ltb_lt; lia | apply Z.ltb_ge; lia].
    + pose proof (magnitude_lt _ _ _ _ _ _ Hy Hx E).
      destruct s1, s2; cbn [cond_Zopp]; symmetry;
        first [apply Z.ltb_lt; lia | apply Z.ltb_ge; lia].
Qed.

Lemma Qltb_lt (p q : Q) : Qltb p q = true <-> (p < q)%Q.
Proof. unfold Qltb, Qlt. apply Z.ltb_lt. Qed.

Lemma Qltb_comp (p p' q q' : Q) :
  (p == p')%Q -> (q == q')%Q -> Qltb p q = Qltb p' q'.
Proof.
  intros Hp Hq. apply eq_true_iff_eq. rewrite !Qltb_lt.
  rewrite Hp, Hq. reflexivity.
Qed.

Lemma ltb_value (x y : float32) :
  valid x = true -> valid y = true -> isFinite x = true -> isFinite y = true ->
  ltb x y = Qltb (value x) (value y).
Proof.
  intros Hx Hy Fx Fy.
  rewrite (Qltb_comp _ _ _ _ (value_scaled x Hx) (value_scaled y Hy)).
  rewrite ltb_scaled by assumption.
  unfold Qltb. cbn [Qnum Qden].
  set (D := Z.pos (Z.to_pos (2 ^ 149))).
  assert (0 < D) by reflexivity.
  apply eq_true_iff_eq. rewrite !Z.ltb_lt. nia.
Qed.

(** The value of a float given on a grid of negative exponent. *)
Lemma value_of_scaled_grid (j e : Z) :
  Z.abs j < 2 ^ 24 -> -126 <= e < 0 ->
  (value (of_scaled j e) == j # Z.to_pos (2 ^ (- e)))%Q.
Proof.
  intros Hj He. destruct (Z.eq_dec j 0) as [->|Hn]; [reflexivity|].
  rewrite of_scaled_normal by (try assumption; lia).
  set (c := Z.to_pos (Z.abs j)).
  assert (Hc : Z.pos c = Z.abs j) by (unfold c; lia).
  pose proof (digits_le c 24 ltac:(lia) ltac:(lia)) as Hd.
  destruct (digits_bounds c) as [Hlo Hhi].
  unfold normal, value. fold c.
  destruct (Z.leb_spec 0 (e + Z.pos (digits2_pos c) - 24)); [lia|].
  unfold Qeq. cbn [Qnum Qden].
  assert (Hp : 0 < 2 ^ (- (e + Z.pos (digits2_pos c) - 24)))
    by (apply Z.pow_pos_nonneg; lia).
  assert (Hq : 0 < 2 ^ (- e)) by (apply Z.pow_pos_nonneg; lia).
  rewrite !Z2Pos.id by assumption.
  rewrite pshift_value, Z2Nat.id by lia.
  replace (- (e + Z.pos (digits2_pos c) - 24))
    with (- e + (24 - Z.pos (digits2_pos c))) by lia.
  rewrite Z.pow_add_r by lia.
  destruct (Z.ltb_spec j 0); cbn [cond_Zopp]; nia.
Qed.

(** Normalising a valid number leaves it as it is. *)
Lemma of_scaled_valid (s : bool) (m : positive) (e : Z) :
  valid (S754_finite s m e) = true -> -126 <= e <= 80 ->
  of_scaled (cond_Zopp s (Z.pos m)) e = S754_finite s m e.
Proof.
  intros Hv He. destruct (valid_finite_inv s m e Hv) as (_ & _ & Hd).
  specialize (Hd ltac:(lia)). destruct (digits_bounds m) as [_ Hm].
  rewrite Hd in Hm.
  rewrite of_scaled_normal by (destruct s; cbn [cond_Zopp]; lia).
  replace (Z.to_pos (Z.abs (cond_Zopp s (Z.pos m)))) with m
    by (destruct s; reflexivity).
  replace (cond_Zopp s (Z.pos m) <? 0) with s by (destruct s; reflexivity).
  unfold normal. rewrite Hd. cbn [Z.sub Z.opp Z.add Z.pos_sub Z.to_nat pshift Nat.iter].
  f_equal. lia.
Qed.

(** For a number that is not negative the difference with its floor is
    computed without rounding. *)
Lemma fraction_exact (x : float32) :
  valid x = true -> isFinite x = true -> ltb x zero = false ->
  floor x < 2 ^ 20 ->
  valid (sub x (of_int (floor x))) = true
  /\ isFinite (sub x (of_int (floor x))) = true
  /\ (value (sub x (of_int (floor x))) == value x - inject_Z (floor x))%Q.
Proof.
  intros Hv Hf Hsign Hhi.
  destruct x as [s0|s0| |s m e]; try discriminate.
  { destruct s0; vm_compute; repeat split. }
  destruct s; [discriminate Hsign|].
  destruct (valid_finite_inv _ _ _ Hv) as (Hr & Hd & Hd24).
  destruct (digits_bounds m) as [Hm1 Hm2].
  assert (Hm : Z.pos m < 2 ^ 24).
  { eapply Z.lt_le_trans; [exact Hm2|]. apply Z.pow_le_mono_r; lia. }
  assert (He : e < 0).
  { destruct (Z.lt_ge_cases e 0) as [H|H]; [exact H|]. exfalso.
    rewrite (Hd24 ltac:(lia)) in Hm1. change (2 ^ (24 - 1)) with 8388608 in Hm1.
    unfold floor, value in Hhi.
    destruct (Z.leb_spec 0 e); [|lia].
    rewrite Qfloor_Z in Hhi. cbn [cond_Zopp] in Hhi.
    pose proof (Z.pow_pos_nonneg 2 e ltac:(lia) H) as Hpe.
    change (2 ^ 20) with 1048576 in *. nia. }
  set (P := 2 ^ (- e)).
  assert (HP : 0 < P) by (apply Z.pow_pos_nonneg; lia).
  assert (Hfloor : floor (S754_finite false m e) = Z.pos m / P).
  { unfold floor, value. destruct (Z.leb_spec 0 e); [lia|].
    unfold Qfloor. rewrite Z2Pos.id by exact HP. reflexivity. }
  assert (Hval : value (S754_finite false m e) = (Z.pos m # Z.to_pos P)%Q).
  { unfold value. destruct (Z.leb_spec 0 e); [lia|]. reflexivity. }
  rewrite Hfloor, Hval.
  pose proof (Z.div_mod (Z.pos m) P ltac:(lia)) as Hdm.
  pose proof (Z.mod_pos_bound (Z.pos m) P HP) as Hmod.
  assert (Ht0 : 0 <= Z.pos m / P) by (apply Z.div_pos; lia).
  destruct (Z.eq_dec (Z.pos m / P) 0) as [Hz|Hz].
  - rewrite Hz. change (sub (S754_finite false m e) (of_int 0))
      with (S754_finite false m e).
    split; [exact Hv|]. split; [reflexivity|].
    rewrite Hval. unfold Qeq, Qminus, Qplus, Qopp, inject_Z. cbn [Qnum Qden]. lia.
  - assert (HPm : P <= Z.pos m) by nia.
    assert (Hne : - e < 24).
    { apply (Z.pow_lt_mono_r_iff 2); [lia|lia|]. fold P. lia. }
    rewrite <- (of_scaled_valid false m e Hv) by lia. cbn [cond_Zopp].
    assert (Hof : of_int (Z.pos m / P) = of_scaled (Z.pos m / P * P) e).
    { unfold of_int. rewrite <- (of_scaled_shift (Z.pos m / P) 0 (- e)) by nia.
      f_equal. lia. }
    rewrite Hof, sub_exact by nia.
    destruct (valid_of_scaled (Z.pos m - Z.pos m / P * P) e) as [V F]; [nia|lia|].
    split; [exact V|]. split; [exact F|].
    rewrite value_of_scaled_grid by (try nia; lia). fold P.
    unfold Qeq, Qminus, Qplus, Qopp, inject_Z. cbn [Qnum Qden].
    rewrite Pos2Z.inj_mul. rewrite Z2Pos.id by exact HP. nia.
Qed.

Lemma Qltb_ge (p q : Q) : Qltb p q = false <-> (q <= p)%Q.
Proof. unfold Qltb, Qle. apply Z.ltb_ge. Qed.

End Float32Facts.

(** * Properties of the vertex backend *)

Module GraphicsFacts.

Import Graphics.

Lemma int_wrap_small (z : Z) : - 2 ^ 63 <= z < 2 ^ 63 -> int_wrap z = z.
Proof.
  intros H. unfold int_wrap. rewrite Z.mod_small; lia.
Qed.

Lemma len_zeros (n : Z) : 0 <= n -> len (zeros n) = n.
Proof.
  intros H. unfold len, zeros. rewrite repeat_length. lia.
Qed.

(** [make] returns a zero-filled array within the bound of the runtime, and
    panics beyond it. *)
Lemma make_returns (maxAlloc n : Z) :
  0 <= n < 2 ^ 62 -> 4 * n <= maxAlloc -> make maxAlloc n = Ret (zeros n).
Proof.
  intros Hn Hm. unfold make.
  destruct (Z.ltb_spec n 0); [lia|].
  destruct (Z.leb_spec (2 ^ 64) (4 * n)); [lia|].
  destruct (Z.ltb_spec maxAlloc (4 * n)); [lia|]. reflexivity.
Qed.

Lemma make_panics (maxAlloc n : Z) :
  maxAlloc < 4 * n -> make maxAlloc n = Panic "makeslice: len out of range".
Proof.
  intros Hm. unfold make.
  destruct (Z.ltb_spec maxAlloc (4 * n)); [|lia].
  rewrite orb_true_r. reflexivity.
Qed.

Lemma make_inv (maxAlloc n : Z) (b : list float32) :
  make maxAlloc n = Ret b -> b = zeros n /\ 0 <= n /\ 4 * n <= maxAlloc.
Proof.
  unfold make. intros H.
  destruct (Z.ltb_spec n 0); [discriminate|].
  destruct (Z.leb_spec (2 ^ 64) (4 * n)); [discriminate|].
  destruct (Z.ltb_spec maxAlloc (4 * n)); [discriminate|].
  cbn [orb] in H. injection H as <-. auto.
Qed.

(** The doubling loop ends within [S k] rounds when [k] doublings of [l]
    reach [size]. *)
Lemma doubleUntil_ends (k : nat) :
  forall l size : Z,
    0 < l -> size <= 2 ^ 62 -> size <= l * 2 ^ Z.of_nat k ->
    exists r, doubleUntil (S k) l size = Some r
              /\ size <= r /\ l <= r /\ (r = l \/ r < 2 * size).
Proof.
  induction k as [|k IH]; intros l size Hl Hs Hk.
  - simpl. replace (l * 2 ^ Z.of_nat 0) with l in Hk by (simpl; lia).
    destruct (Z.ltb_spec l size); [lia|].
    exists l. repeat split; auto; lia.
  - cbn [doubleUntil]. destruct (Z.ltb_spec l size) as [Hlt|Hge].
    + rewrite int_wrap_small by lia.
      destruct (IH (l * 2) size) as (r & Hr & H1 & H2 & H3); try lia.
      { rewrite Nat2Z.inj_succ, Z.pow_succ_r in Hk by lia. lia. }
      exists r. repeat split; auto; try lia.
    + exists l. repeat split; auto; lia.
Qed.

Lemma verticesBackendFloat32Size_returns (size : Z) :
  size <= 2 ^ 62 ->
  exists r, verticesBackendFloat32Size size = Some r
            /\ size <= r /\ 1024 <= r /\ (r = 1024 \/ r < 2 * size).
Proof.
  intros H. unfold verticesBackendFloat32Size.
  destruct (doubleUntil_ends 65 (128 * VertexFloatCount) size) as (r & Hr & H1 & H2 & H3).
  - unfold VertexFloatCount. lia.
  - exact H.
  - unfold VertexFloatCount. change (Z.of_nat 65) with 65.
    assert (2 ^ 62 <= 128 * 8 * 2 ^ 65) by (vm_compute; discriminate). lia.
  - exists r. unfold VertexFloatCount in *. repeat split; auto; lia.
Qed.

Section BackendFacts.

Variable maxAlloc : Z.

(** A request within range returns a slice of the requested length and
    leaves the cursor behind it, inside the backing array.  The array made,
    if any, has at most [2 * B] floats. *)
Lemma slice_returns (B : Z) (v : verticesBackend) (n : Z) :
  1024 <= B < 2 ^ 61 -> 8 * B <= maxAlloc ->
  0 <= pos v <= len (backend v) -> len (backend v) <= B ->
  0 <= n * VertexFloatCount <= B ->
  exists s v1,
    slice maxAlloc v n = Ret (s, v1)
    /\ vs_len s = n * VertexFloatCount
    /\ vs_array s = arrays v1
    /\ pos v1 = vs_off s + vs_len s
    /\ 0 <= vs_off s
    /\ pos v1 <= len (backend v1)
    /\ len (backend v1) <= 2 * B
    /\ (arrays v1 = arrays v /\ vs_off s = pos v \/ arrays v1 = S (arrays v)).
Proof.
  intros HB Hmax Hpos Hlen Hn. unfold slice.
  rewrite (int_wrap_small (n * VertexFloatCount)) by lia.
  rewrite (int_wrap_small (pos v + n * VertexFloatCount)) by lia.
  destruct (Z.ltb_spec (len (backend v)) (pos v + n * VertexFloatCount)) as [Hgrow|Hfit].
  - destruct (verticesBackendFloat32Size_returns (n * VertexFloatCount))
      as (r & Hr & H1 & H2 & H3); [lia|].
    rewrite Hr. rewrite (int_wrap_small (len (backend v) * 2)) by lia.
    set (size := max (len (backend v) * 2) r).
    assert (Hsize : n * VertexFloatCount <= size /\ 0 <= size <= 2 * B).
    { unfold size, max. destruct (Z.gtb_spec (len (backend v) * 2) r); lia. }
    rewrite make_returns by lia.
    cbn [pos backend arrays notFullyUsedTime].
    rewrite Z.add_0_l, (int_wrap_small (n * VertexFloatCount)) by lia.
    rewrite len_zeros by lia.
    replace (0 <=? 0) with true by reflexivity.
    destruct (Z.leb_spec 0 (n * VertexFloatCount)); [|lia].
    destruct (Z.leb_spec (n * VertexFloatCount) size); [|lia].
    cbn [andb]. eexists _, _. split; [reflexivity|].
    cbn [vs_len vs_array vs_off pos backend arrays].
    rewrite len_zeros by lia. repeat split; auto; lia.
  - rewrite (int_wrap_small (pos v + n * VertexFloatCount)) by lia.
    destruct (Z.leb_spec 0 (pos v)); [|lia].
    destruct (Z.leb_spec (pos v) (pos v + n * VertexFloatCount)); [|lia].
    destruct (Z.leb_spec (pos v + n * VertexFloatCount) (len (backend v))); [|lia].
    cbn [andb]. eexists _, _. split; [reflexivity|].
    cbn [vs_len vs_array vs_off pos backend arrays]. repeat split; auto; lia.
Qed.

(** A request that needs a backing array beyond the bound of the runtime
    panics in [make]. *)
Lemma slice_beyond_maxAlloc (v : verticesBackend) (n : Z) :
  0 <= pos v <= len (backend v) -> len (backend v) < 2 ^ 61 ->
  0 <= n * VertexFloatCount <= 2 ^ 61 ->
  len (backend v) < pos v + n * VertexFloatCount ->
  maxAlloc < 4 * (n * VertexFloatCount) ->
  slice maxAlloc v n = Panic "makeslice: len out of range".
Proof.
  intros Hpos Hlen Hn Hgrow Hmax. unfold slice.
  rewrite (int_wrap_small (n * VertexFloatCount)) by lia.
  rewrite (int_wrap_small (pos v + n * VertexFloatCount)) by lia.
  destruct (Z.ltb_spec (len (backend v)) (pos v + n * VertexFloatCount)); [|lia].
  destruct (verticesBackendFloat32Size_returns (n * VertexFloatCount))
    as (r & Hr & H1 & H2 & H3); [lia|].
  rewrite Hr. rewrite (int_wrap_small (len (backend v) * 2)) by lia.
  rewrite make_panics; [reflexivity|].
  unfold max. destruct (Z.gtb_spec (len (backend v) * 2) r); lia.
Qed.


End BackendFacts.



(** What one [lockAndReset] with a succeeding callback does to the backend. *)
Lemma lockAndReset_ok (v : verticesBackend) (f : unit -> option error) :
  0 <= pos v <= 2 ^ 62 -> 0 <= notFullyUsedTime v < maxNotFullyUsedTime ->
  f tt = None ->
  exists v',
    lockAndReset v f = Ret (None, v') /\ pos v' = 0 /\ arrays v' = arrays v
    /\ 0 <= notFullyUsedTime v' < maxNotFullyUsedTime
    /\ (underUsed v -> notFullyUsedTime v = maxNotFullyUsedTime - 1 ->
        backend v' = [] /\ notFullyUsedTime v' = 0)
    /\ (underUsed v -> notFullyUsedTime v < maxNotFullyUsedTime - 1 ->
        backend v' = backend v /\ notFullyUsedTime v' = notFullyUsedTime v + 1)
    /\ (~ underUsed v -> backend v' = backend v /\ notFullyUsedTime v' = 0).
Proof.
  intros Hpos Hcnt Hf. unfold lockAndReset, underUsed. rewrite Hf.
  destruct (verticesBackendFloat32Size_returns (pos v)) as (r & Hr & _ & Hr1 & _); [lia|].
  rewrite Hr. unfold maxNotFullyUsedTime in *.
  assert (Hsome : forall l, Some r = Some l -> l = r) by (intros l E; congruence).
  destruct (Z.ltb_spec r (len (backend v))) as [Hu|Hu].
  - destruct (Z.ltb_spec (notFullyUsedTime v) 60); [|lia].
    rewrite int_wrap_small by lia.
    destruct (Z.eqb_spec (notFullyUsedTime v + 1) 60) as [E|E].
    + destruct (Z.gtb_spec (len (backend v)) 0); [|lia].
      cbn [andb]. eexists. split; [reflexivity|].
      cbn [pos arrays backend notFullyUsedTime].
      split; [reflexivity|]. split; [reflexivity|]. split; [lia|].
      split; [|split].
      * intros _ _. split; reflexivity.
      * intros _ Hc. lia.
      * intros Hn. exfalso. apply Hn. exists r. split; auto.
    + cbn [andb]. eexists. split; [reflexivity|].
      cbn [pos arrays backend notFullyUsedTime].
      split; [reflexivity|]. split; [reflexivity|]. split; [lia|].
      split; [|split].
      * intros _ Hc. lia.
      * intros _ _. split; reflexivity.
      * intros Hn. exfalso. apply Hn. exists r. split; auto.
  - replace (0 =? 60) with false by reflexivity.
    cbn [andb]. eexists. split; [reflexivity|].
    cbn [pos arrays backend notFullyUsedTime].
    split; [reflexivity|]. split; [reflexivity|]. split; [lia|].
    split; [|split].
    * intros [l [Hl Hlt]] _. apply Hsome in Hl. lia.
    * intros [l [Hl Hlt]] _. apply Hsome in Hl. lia.
    * intros _. split; reflexivity.
Qed.





(** ** [adjustDestinationPixel] *)

Import Float32Facts.

(** On the numbers whose floor lies within 2^20 of zero the result is the
    floor plus the selected number of sixteenths, with no rounding. *)
Lemma adjustDestinationPixel_sixteenths (x : float32) :
  valid x = true -> isFinite x = true ->
  - 2 ^ 20 < floor x -> floor x + 1 < 2 ^ 20 ->
  adjustDestinationPixel x
  = of_scaled (16 * floor x + offsetSixteenths (sub x (of_int (floor x)))) (-4).
Proof.
  intros Hv Hf Hlo Hhi.
  unfold adjustDestinationPixel. cbv zeta.
  rewrite (floor_as_computed x Hv Hf Hlo Hhi).
  unfold offsetSixteenths.
  destruct (ltb (sub x (of_int (floor x))) (of_scaled 3 (-4))).
  { rewrite of_int_sixteenths by lia. f_equal. lia. }
  destruct (ltb (sub x (of_int (floor x))) (of_scaled 8 (-4))).
  { rewrite of_int_sixteenths by lia. apply add_exact; lia. }
  destruct (ltb (sub x (of_int (floor x))) (of_scaled 13 (-4))).
  { rewrite of_int_sixteenths by lia. apply add_exact; lia. }
  rewrite of_int_sixteenths by lia. apply add_exact; lia.
Qed.

Lemma offsetSixteenths_cases (frac : float32) :
  In (offsetSixteenths frac) [0; 5; 11; 16].
Proof.
  unfold offsetSixteenths.
  destruct (ltb frac (of_scaled 3 (-4))); [left; reflexivity|].
  destruct (ltb frac (of_scaled 8 (-4))); [right; left; reflexivity|].
  destruct (ltb frac (of_scaled 13 (-4))); [right; right; left; reflexivity|].
  right; right; right; left; reflexivity.
Qed.

(** The results are fixed points: a whole number of sixteenths whose
    fractional part is 0, 5/16 or 11/16 is returned as it is. *)
Lemma adjustDestinationPixel_fixed (f k : Z) :
  - 2 ^ 20 < f -> f + 1 < 2 ^ 20 -> In k [0; 5; 11] ->
  adjustDestinationPixel (of_scaled (16 * f + k) (-4)) = of_scaled (16 * f + k) (-4).
Proof.
  intros Hlo Hhi Hk.
  assert (Hk' : 0 <= k < 16) by (cbn [In] in Hk; lia).
  destruct (valid_of_scaled (16 * f + k) (-4)) as [Hv Hfin]; [lia|lia|].
  assert (Hfl : floor (of_scaled (16 * f + k) (-4)) = f).
  { rewrite floor_of_scaled by lia.
    replace (16 * f + k) with (k + f * 16) by lia.
    rewrite Z.div_add by lia. rewrite Z.div_small by lia. lia. }
  rewrite adjustDestinationPixel_sixteenths; rewrite ?Hfl; try assumption.
  rewrite of_int_sixteenths by lia.
  rewrite sub_exact by lia.
  replace (16 * f + k - 16 * f) with k by lia.
  f_equal. f_equal.
  cbn [In] in Hk. destruct Hk as [<-|[<-|[<-|[]]]]; reflexivity.
Qed.

(** For a number that is not negative the thresholds see the exact
    fractional part. *)
Lemma offset_of_exact_fraction (x : float32) :
  valid x = true -> isFinite x = true -> ltb x zero = false ->
  floor x < 2 ^ 20 ->
  offsetSixteenths (sub x (of_int (floor x)))
  = offsetOfFraction (value x - inject_Z (floor x)).
Proof.
  intros Hv Hf Hsign Hhi.
  destruct (fraction_exact x Hv Hf Hsign Hhi) as (V & F & E).
  unfold offsetSixteenths, offsetOfFraction.
  rewrite !ltb_value by (try assumption; reflexivity).
  rewrite (Qltb_comp _ _ _ (3 # 16) E) by reflexivity.
  rewrite (Qltb_comp _ _ _ (8 # 16) E) by reflexivity.
  rewrite (Qltb_comp _ _ _ (13 # 16) E) by reflexivity.
  reflexivity.
Qed.

(** C9, on the range where it holds.  For a finite binary32 number [x] whose
    floor lies strictly between -2^20 and 2^20 - 2, adjusting twice gives the
    same as adjusting once, and the result is exactly the floor of [x] plus
    0, 5/16, 11/16 or 1; the offset is the one the thresholds 3/16, 8/16 and
    13/16 select for the binary32 difference of [x] and its floor.  When [x]
    is not negative that difference is the exact fractional part of [x]. *)
Theorem adjustDestinationPixel_idempotent_offsets (x : float32) :
  valid x = true -> isFinite x = true ->
  - 2 ^ 20 < floor x -> floor x + 2 < 2 ^ 20 ->
  adjustDestinationPixel (adjustDestinationPixel x) = adjustDestinationPixel x
  /\ In (offsetSixteenths (sub x (of_int (floor x)))) [0; 5; 11; 16]
  /\ (value (adjustDestinationPixel x)
      == inject_Z (floor x) + (offsetSixteenths (sub x (of_int (floor x))) # 16))%Q
  /\ (ltb x zero = false ->
      offsetSixteenths (sub x (of_int (floor x)))
      = offsetOfFraction (value x - inject_Z (floor x))).
Proof.
  intros Hv Hf Hlo Hhi.
  assert (Hexact : ltb x zero = false ->
                   offsetSixteenths (sub x (of_int (floor x)))
                   = offsetOfFraction (value x - inject_Z (floor x))).
  { intros Hs. apply offset_of_exact_fraction; try assumption. lia. }
  rewrite (adjustDestinationPixel_sixteenths x Hv Hf Hlo ltac:(lia)).
  pose proof (offsetSixteenths_cases (sub x (of_int (floor x)))) as Hk.
  split; [|split; [exact Hk|split; [|exact Hexact]]]; clear Hexact.
  all: set (k := offsetSixteenths (sub x (of_int (floor x)))) in *.
  - cbn [In] in Hk. destruct Hk as [E|[E|[E|[E|[]]]]]; rewrite <- E.
    + apply adjustDestinationPixel_fixed; [lia|lia|left; reflexivity].
    + apply adjustDestinationPixel_fixed; [lia|lia|right; left; reflexivity].
    + apply adjustDestinationPixel_fixed; [lia|lia|right; right; left; reflexivity].
    + replace (16 * floor x + 16) with (16 * (floor x + 1) + 0) by lia.
      apply adjustDestinationPixel_fixed; [lia|lia|left; reflexivity].
  - assert (Hk' : 0 <= k <= 16) by (cbn [In] in Hk; lia).
    eapply Qeq_trans; [apply value_of_scaled; lia|].
    unfold Qeq, Qplus, inject_Z. cbn [Qnum Qden].
    change (Z.pos (1 * 16)) with 16. change (Z.pos 16) with 16. lia.
Qed.

Lemma adjustDestinationPixel_idempotent_offsets_witness :
  adjustDestinationPixel (adjustDestinationPixel (of_scaled 1 (-1)))
  = adjustDestinationPixel (of_scaled 1 (-1))
  /\ In (offsetSixteenths (sub (of_scaled 1 (-1)) (of_int (floor (of_scaled 1 (-1))))))
        [0; 5; 11; 16]
  /\ (value (adjustDestinationPixel (of_scaled 1 (-1)))
      == inject_Z (floor (of_scaled 1 (-1)))
         + (offsetSixteenths
              (sub (of_scaled 1 (-1)) (of_int (floor (of_scaled 1 (-1))))) # 16))%Q
  /\ (ltb (of_scaled 1 (-1)) zero = false ->
      offsetSixteenths (sub (of_scaled 1 (-1)) (of_int (floor (of_scaled 1 (-1)))))
      = offsetOfFraction (value (of_scaled 1 (-1))
                          - inject_Z (floor (of_scaled 1 (-1))))).
Proof.
  apply (adjustDestinationPixel_idempotent_offsets (of_scaled 1 (-1)));
    vm_compute; reflexivity.
Defined.

(** C9 as stated fails for large inputs.  4194304.5 is a binary32 number; its
    fractional part 1/2 selects the offset 11/16, but the sum is rounded back
    to 4194304.5, so the result exceeds the floor by 1/2. *)
Lemma adjustDestinationPixel_offset_one_half :
  valid (of_scaled 8388609 (-1)) = true
  /\ isFinite (of_scaled 8388609 (-1)) = true
  /\ floor (of_scaled 8388609 (-1)) = 4194304
  /\ adjustDestinationPixel (of_scaled 8388609 (-1)) = of_scaled 8388609 (-1)
  /\ (value (adjustDestinationPixel (of_scaled 8388609 (-1)))
      - inject_Z (floor (of_scaled 8388609 (-1))) == 1 # 2)%Q
  /\ (forall q, In q [0; 5 # 16; 11 # 16; 1]%Q ->
       ~ (value (adjustDestinationPixel (of_scaled 8388609 (-1)))
          - inject_Z (floor (of_scaled 8388609 (-1))) == q)%Q).
Proof.
  do 5 (split; [vm_compute; reflexivity|]).
  intros q Hq. cbn [In] in Hq.
  destruct Hq as [<-|[<-|[<-|[<-|[]]]]]; vm_compute; discriminate.
Qed.

(** The thresholds are applied to the binary32 difference, which is rounded.
    For x = -(3/16 + 2^-26) the fractional part is 13/16 - 2^-26, below the
    last threshold, yet the difference rounds to 13/16 and the result is the
    floor plus 1. *)
Lemma adjustDestinationPixel_rounded_fraction :
  floor (of_scaled (-12582913) (-26)) = -1
  /\ (value (of_scaled (-12582913) (-26)) - inject_Z (-1) < 13 # 16)%Q
  /\ offsetOfFraction (value (of_scaled (-12582913) (-26)) - inject_Z (-1)) = 11
  /\ sub (of_scaled (-12582913) (-26)) (of_int (-1)) = of_scaled 13 (-4)
  /\ offsetSixteenths (sub (of_scaled (-12582913) (-26)) (of_int (-1))) = 16
  /\ adjustDestinationPixel (of_scaled (-12582913) (-26)) = of_int 0.
Proof.
  do 5 (split; [vm_compute; reflexivity|]).
  vm_compute; reflexivity.
Qed.

End GraphicsFacts.

(** * Properties of the command queue *)

Module GraphicsCommandFacts.

Import Graphics GraphicsCommand Float32Facts.

(** ** The merge predicate *)

Lemma image_eqb_eq (a b : option Image) : image_eqb a b = true <-> a = b.
Proof.
  destruct a as [x|], b as [y|]; simpl; try (split; congruence).
  rewrite Pos.eqb_eq. split; congruence.
Qed.

Lemma srcs_eqb_eq (a b : Srcs) : srcs_eqb a b = true <-> a = b.
Proof.
  destruct a as [[[a0 a1] a2] a3], b as [[[b0 b1] b2] b3]. unfold srcs_eqb.
  rewrite !andb_true_iff, !image_eqb_eq. split.
  - intros [[[-> ->] ->] ->]. reflexivity.
  - intros E. injection E as -> -> -> ->. auto.
Qed.

Lemma blend_eqb_eq (a b : Blend) : blend_eqb a b = true <-> a = b.
Proof.
  destruct a, b. unfold blend_eqb. cbn.
  rewrite !andb_true_iff, !Z.eqb_eq. split.
  - intros [[[[[-> ->] ->] ->] ->] ->]. reflexivity.
  - intros E. injection E as -> -> -> -> -> ->. auto 10.
Qed.

Lemma region_eqb_equal (a b : Region) : region_eqb a b = true <-> regionEqual a b.
Proof.
  unfold region_eqb, regionEqual, float_eq. rewrite !andb_true_iff. tauto.
Qed.

Lemma sameFloats_spec (a : list float32) :
  forall b, List.length a = List.length b ->
    (sameFloats a b = true <->
     forall j, (j < List.length a)%nat -> float_eq (nth j a zero) (nth j b zero)).
Proof.
  induction a as [|x a IH]; intros [|y b] Hlen; simpl in Hlen; try discriminate.
  - simpl. split; [intros _ j Hj; lia | intros _; reflexivity].
  - cbn [sameFloats]. unfold neqb. fold (eqb x y).
    destruct (eqb x y) eqn:Exy; cbn [negb].
    + rewrite (IH b) by lia. split.
      * intros H [|j] Hj; [exact Exy|]. apply H. simpl in Hj. lia.
      * intros H j Hj. apply (H (S j)). simpl. lia.
    + split; [discriminate|]. intros H.
      specialize (H 0%nat). simpl in H. unfold float_eq in H.
      rewrite Exy in H. apply H. lia.
Qed.

Lemma sameUniforms_spec (a : list (list float32)) :
  forall b, List.length a = List.length b ->
    (sameUniforms a b = true <-> uniformsEqual a b).
Proof.
  unfold uniformsEqual.
  induction a as [|u a IH]; intros [|w b] Hlen; simpl in Hlen; try discriminate.
  - simpl. split; [intros _; split; [reflexivity|intros i Hi; lia] | intros _; reflexivity].
  - cbn [sameUniforms]. unfold len.
    destruct (Z.eqb_spec (Z.of_nat (List.length u)) (Z.of_nat (List.length w))) as [E|E];
      cbn [negb].
    + apply Nat2Z.inj in E.
      destruct (sameFloats u w) eqn:Ef; cbn [negb].
      * rewrite (IH b) by lia. split.
        -- intros [_ H]. split; [simpl; lia|].
           intros [|i] Hi; simpl.
           ++ split; [exact E|]. apply sameFloats_spec; assumption.
           ++ apply H. simpl in Hi. lia.
        -- intros [_ H]. split; [lia|]. intros i Hi. apply (H (S i)). simpl. lia.
      * split; [discriminate|]. intros [_ H].
        destruct (H 0%nat) as [_ H0]; [simpl; lia|]. simpl in H0.
        apply sameFloats_spec in H0; [congruence|exact E].
    + split; [discriminate|]. intros [_ H].
      destruct (H 0%nat) as [H0 _]; [simpl; lia|]. simpl in H0. lia.
Qed.

(** The loop of [dstRegionFromVertices] computes the bounding box. *)
Lemma dstRegionFromVertices_fold (vs : list float32) (l : list nat) :
  forall minX minY maxX maxY,
    fold_left (dstRegionStep vs) l (minX, minY, maxX, maxY)
    = (fold_left floatMin
         (map (fun i => nth (Z.to_nat VertexFloatCount * i + 0) vs zero) l) minX,
       fold_left floatMin
         (map (fun i => nth (Z.to_nat VertexFloatCount * i + 1) vs zero) l) minY,
       fold_left floatMax
         (map (fun i => nth (Z.to_nat VertexFloatCount * i + 0) vs zero) l) maxX,
       fold_left floatMax
         (map (fun i => nth (Z.to_nat VertexFloatCount * i + 1) vs zero) l) maxY).
Proof.
  induction l as [|i l IH]; intros minX minY maxX maxY; [reflexivity|].
  cbn [fold_left map]. unfold dstRegionStep at 2.
  rewrite IH. rewrite Nat.add_0_r. reflexivity.
Qed.

Lemma dstRegionFromVertices_boundingBox (vs : list float32) :
  dstRegionFromVertices vs = boundingBox vs.
Proof.
  unfold dstRegionFromVertices, boundingBox, coordinates.
  apply dstRegionFromVertices_fold.
Qed.

Lemma mightOverlapDstRegions_spec (vs1 vs2 : list float32) :
  mightOverlapDstRegions vs1 vs2 = true
  <-> overlapRounded (boundingBox vs1) (boundingBox vs2).
Proof.
  unfold mightOverlapDstRegions. rewrite !dstRegionFromVertices_boundingBox.
  destruct (boundingBox vs1) as [[[minX1 minY1] maxX1] maxY1].
  destruct (boundingBox vs2) as [[[minX2 minY2] maxX2] maxY2].
  unfold overlapRounded, float_lt, mergin. rewrite !andb_true_iff. tauto.
Qed.

(** The merge predicate, with the overlap test as the code computes it in
    binary32. *)
Lemma CanMergeWithDrawTrianglesCommand_binary32 (c : drawTrianglesCommand)
    (dst : Image) (srcs : Srcs) (vs : list float32) (blend : Blend)
    (dstRegion : Region) (shader : Shader) (uniforms : list (list float32))
    (evenOdd : bool) :
  CanMergeWithDrawTrianglesCommand c dst srcs vs blend dstRegion shader uniforms evenOdd
  = true
  <->
  c_shader c = shader
  /\ uniformsEqual (c_uniforms c) uniforms
  /\ c_dst c = dst
  /\ c_srcs c = srcs
  /\ c_blend c = blend
  /\ regionEqual (c_dstRegion c) dstRegion
  /\ ((c_evenOdd c = false /\ evenOdd = false)
      \/ (c_evenOdd c = true /\ evenOdd = true
          /\ ~ overlapRounded (boundingBox (c_vertices c)) (boundingBox vs))).
Proof.
  unfold CanMergeWithDrawTrianglesCommand.
  destruct (Pos.eqb_spec (c_shader c) shader) as [Hs|Hs]; cbn [negb];
    [|split; [discriminate | tauto]].
  unfold len at 1 2.
  destruct (Z.eqb_spec (Z.of_nat (List.length (c_uniforms c)))
              (Z.of_nat (List.length uniforms))) as [Hl|Hl]; cbn [negb].
  2:{ split; [discriminate|]. intros (_ & [Hu _] & _). lia. }
  apply Nat2Z.inj in Hl.
  pose proof (sameUniforms_spec (c_uniforms c) uniforms Hl) as Hu.
  destruct (sameUniforms (c_uniforms c) uniforms); cbn [negb].
  2:{ split; [discriminate|]. intros (_ & Hu' & _). apply Hu in Hu'. discriminate. }
  destruct (Pos.eqb_spec (c_dst c) dst) as [Hd|Hd]; cbn [negb];
    [|split; [discriminate | tauto]].
  pose proof (srcs_eqb_eq (c_srcs c) srcs) as Hsrc.
  destruct (srcs_eqb (c_srcs c) srcs); cbn [negb].
  2:{ split; [discriminate|]. intros (_ & _ & _ & E & _). apply Hsrc in E. discriminate. }
  pose proof (blend_eqb_eq (c_blend c) blend) as Hb.
  destruct (blend_eqb (c_blend c) blend); cbn [negb].
  2:{ split; [discriminate|]. intros (_ & _ & _ & _ & E & _). apply Hb in E. discriminate. }
  pose proof (region_eqb_equal (c_dstRegion c) dstRegion) as Hr.
  destruct (region_eqb (c_dstRegion c) dstRegion); cbn [negb].
  2:{ split; [discriminate|]. intros (_ & _ & _ & _ & _ & E & _). apply Hr in E. discriminate. }
  assert (Hrest : c_shader c = shader /\ uniformsEqual (c_uniforms c) uniforms
                  /\ c_dst c = dst /\ c_srcs c = srcs /\ c_blend c = blend
                  /\ regionEqual (c_dstRegion c) dstRegion).
  { split; [exact Hs|]. split; [apply Hu; reflexivity|]. split; [exact Hd|].
    split; [apply Hsrc; reflexivity|]. split; [apply Hb; reflexivity|].
    apply Hr; reflexivity. }
  pose proof (mightOverlapDstRegions_spec (c_vertices c) vs) as Ho.
  destruct (c_evenOdd c), evenOdd; cbn [orb andb].
  - destruct (mightOverlapDstRegions (c_vertices c) vs); cbn [negb].
    + split; [discriminate|]. intros (_ & _ & _ & _ & _ & _ & [[E _]|(_ & _ & Hn)]);
        [discriminate|]. exfalso. apply Hn. apply Ho. reflexivity.
    + split; [|intros _; reflexivity]. intros _. repeat (split; [tauto|]).
      right. repeat split. intros Hn. apply Ho in Hn. discriminate.
  - split; [discriminate|].
    intros (_ & _ & _ & _ & _ & _ & [[E _]|(_ & E & _)]); discriminate.
  - split; [discriminate|].
    intros (_ & _ & _ & _ & _ & _ & [[_ E]|(E & _)]); discriminate.
  - split; [|intros _; reflexivity]. intros _. repeat (split; [tauto|]). left. auto.
Qed.

(** ** The overlap test on numbers *)

Lemma ltb_posInf (x : float32) : ltb posInf x = false.
Proof. destruct x as [s|s| |s m e]; try reflexivity. destruct s; reflexivity. Qed.

Lemma ltb_real (x y : float32) : real x -> real y -> ltb x y = Qltb (value x) (value y).
Proof. intros [Vx Fx] [Vy Fy]. apply ltb_value; assumption. Qed.

Lemma fold_floatMin (l : list float32) :
  forall m, real m -> Forall real l ->
    let r := fold_left floatMin l m in
    (r = m \/ In r l) /\ real r /\ (value r <= value m)%Q
    /\ Forall (fun x => (value r <= value x)%Q) l.
Proof.
  induction l as [|x l IH]; intros m Hm Hl; cbn [fold_left].
  - split; [left; reflexivity|]. split; [exact Hm|]. split; [apply Qle_refl|constructor].
  - inversion Hl as [|? ? Hx Hl']; subst.
    assert (Es : floatMin m x = if Qltb (value x) (value m) then x else m)
      by (unfold floatMin; rewrite (ltb_real x m Hx Hm); reflexivity).
    rewrite Es. clear Es.
    destruct (Qltb (value x) (value m)) eqn:C.
    + apply Qltb_lt in C.
      destruct (IH x Hx Hl') as (Hin & Hr & Hle & Hall).
      split; [destruct Hin as [->|Hin]; right; [left; reflexivity|right; exact Hin]|].
      split; [exact Hr|].
      split; [eapply Qle_trans; [exact Hle|apply Qlt_le_weak; exact C]|].
      constructor; [exact Hle|exact Hall].
    + apply Qltb_ge in C.
      destruct (IH m Hm Hl') as (Hin & Hr & Hle & Hall).
      split; [destruct Hin as [->|Hin]; [left; reflexivity|right; right; exact Hin]|].
      split; [exact Hr|]. split; [exact Hle|].
      constructor; [eapply Qle_trans; [exact Hle|exact C]|exact Hall].
Qed.

Lemma fold_floatMax (l : list float32) :
  forall m, real m -> Forall real l ->
    let r := fold_left floatMax l m in
    (r = m \/ In r l) /\ real r /\ (value m <= value r)%Q
    /\ Forall (fun x => (value x <= value r)%Q) l.
Proof.
  induction l as [|x l IH]; intros m Hm Hl; cbn [fold_left].
  - split; [left; reflexivity|]. split; [exact Hm|]. split; [apply Qle_refl|constructor].
  - inversion Hl as [|? ? Hx Hl']; subst.
    assert (Es : floatMax m x = if Qltb (value m) (value x) then x else m)
      by (unfold floatMax; rewrite (ltb_real m x Hm Hx); reflexivity).
    rewrite Es. clear Es.
    destruct (Qltb (value m) (value x)) eqn:C.
    + apply Qltb_lt in C.
      destruct (IH x Hx Hl') as (Hin & Hr & Hle & Hall).
      split; [destruct Hin as [->|Hin]; right; [left; reflexivity|right; exact Hin]|].
      split; [exact Hr|].
      split; [eapply Qle_trans; [apply Qlt_le_weak; exact C|exact Hle]|].
      constructor; [exact Hle|exact Hall].
    + apply Qltb_ge in C.
      destruct (IH m Hm Hl') as (Hin & Hr & Hle & Hall).
      split; [destruct Hin as [->|Hin]; [left; reflexivity|right; right; exact Hin]|].
      split; [exact Hr|]. split; [exact Hle|].
      constructor; [eapply Qle_trans; [exact C|exact Hle]|exact Hall].
Qed.

Lemma ltb_below_posInf (x : float32) : real x -> ltb x posInf = true.
Proof.
  intros [_ F]. destruct x as [s|s| |s m e]; try discriminate F; reflexivity.
Qed.

Lemma ltb_above_negInf (x : float32) : real x -> ltb negInf x = true.
Proof.
  intros [_ F]. destruct x as [s|s| |s m e]; try discriminate F; reflexivity.
Qed.

Lemma least_coordinate (l : list float32) :
  l <> [] -> Forall real l ->
  In (fold_left floatMin l posInf) l
  /\ Forall (fun x => (value (fold_left floatMin l posInf) <= value x)%Q) l.
Proof.
  intros Hne Hl. destruct l as [|x l]; [congruence|].
  inversion Hl as [|? ? Hx Hl']; subst.
  cbn [fold_left].
  assert (Es : floatMin posInf x = x)
    by (unfold floatMin; rewrite (ltb_below_posInf x Hx); reflexivity).
  rewrite Es. clear Es.
  destruct (fold_floatMin l x Hx Hl') as (Hin & _ & Hle & Hall).
  split; [destruct Hin as [->|Hin]; [left; reflexivity|right; exact Hin]|].
  constructor; [exact Hle|exact Hall].
Qed.

Lemma greatest_coordinate (l : list float32) :
  l <> [] -> Forall real l ->
  In (fold_left floatMax l negInf) l
  /\ Forall (fun x => (value x <= value (fold_left floatMax l negInf))%Q) l.
Proof.
  intros Hne Hl. destruct l as [|x l]; [congruence|].
  inversion Hl as [|? ? Hx Hl']; subst.
  cbn [fold_left].
  assert (Es : floatMax negInf x = x)
    by (unfold floatMax; rewrite (ltb_above_negInf x Hx); reflexivity).
  rewrite Es. clear Es.
  destruct (fold_floatMax l x Hx Hl') as (Hin & _ & Hle & Hall).
  split; [destruct Hin as [->|Hin]; [left; reflexivity|right; exact Hin]|].
  constructor; [exact Hle|exact Hall].
Qed.

Lemma onGrid_real (e : Z) (x : float32) : -23 <= e <= -1 -> onGrid e x -> real x.
Proof.
  intros He (j & Hj & ->).
  assert (0 < 2 ^ (- e)) by (apply Z.pow_pos_nonneg; lia).
  apply valid_of_scaled; lia.
Qed.

Lemma one_on_grid (e : Z) : -23 <= e <= -1 -> of_int 1 = of_scaled (2 ^ (- e)) e.
Proof.
  intros He. unfold of_int.
  rewrite <- (of_scaled_shift 1 0 (- e)) by lia.
  f_equal; lia.
Qed.

Lemma pow_grid (e : Z) : -23 <= e <= -1 -> 2 <= 2 ^ (- e) < 2 ^ 24.
Proof.
  intros He. split.
  - change 2 with (2 ^ 1) at 1. apply Z.pow_le_mono_r; lia.
  - apply Z.pow_lt_mono_r; lia.
Qed.

(** On the grid the sum [b + 1] is exact, and the comparison of the code is
    the comparison of the numbers. *)
Lemma ltb_add_one_exact (e : Z) (a b : float32) :
  -23 <= e <= -1 -> onGrid e a -> onGrid e b ->
  (ltb a (add b mergin) = true <-> (value a < value b + 1)%Q).
Proof.
  intros He (ja & Hja & ->) (jb & Hjb & ->).
  pose proof (pow_grid e He) as Hp.
  unfold mergin. rewrite (one_on_grid e He).
  rewrite add_exact by lia.
  destruct (valid_of_scaled ja e) as [Va Fa]; [lia|lia|].
  destruct (valid_of_scaled (jb + 2 ^ (- e)) e) as [Vb Fb]; [lia|lia|].
  rewrite (ltb_value _ _ Va Vb Fa Fb), Qltb_lt.
  rewrite !value_of_scaled_grid by lia.
  assert (Hd : Z.pos (Z.to_pos (2 ^ (- e))) = 2 ^ (- e)) by (apply Z2Pos.id; lia).
  unfold Qlt, Qplus. cbn [Qnum Qden]. rewrite Pos2Z.inj_mul, !Hd. nia.
Qed.

Lemma fold_floatMin_value (l : list float32) :
  forall m, real m -> Forall real l ->
    value (fold_left floatMin l m)
    = fold_left (fun m x => if Qltb x m then x else m) (map value l) (value m).
Proof.
  induction l as [|x l IH]; intros m Hm Hl; [reflexivity|].
  inversion Hl as [|? ? Hx Hl']; subst. cbn [fold_left map].
  unfold floatMin at 2. rewrite (ltb_real x m Hx Hm).
  destruct (Qltb (value x) (value m)); apply IH; assumption.
Qed.

Lemma fold_floatMax_value (l : list float32) :
  forall m, real m -> Forall real l ->
    value (fold_left floatMax l m)
    = fold_left (fun m x => if Qltb m x then x else m) (map value l) (value m).
Proof.
  induction l as [|x l IH]; intros m Hm Hl; [reflexivity|].
  inversion Hl as [|? ? Hx Hl']; subst. cbn [fold_left map].
  unfold floatMax at 2. rewrite (ltb_real m x Hm Hx).
  destruct (Qltb (value m) (value x)); apply IH; assumption.
Qed.

(** The least and the greatest coordinate the loop finds are those of the
    numbers. *)
Lemma leastOf_coordinates (l : list float32) :
  l <> [] -> Forall real l ->
  leastOf (map value l) = Some (value (fold_left floatMin l posInf)).
Proof.
  intros Hne Hl. destruct l as [|x l]; [congruence|].
  inversion Hl as [|? ? Hx Hl']; subst. cbn [map leastOf fold_left].
  assert (Es : floatMin posInf x = x)
    by (unfold floatMin; rewrite (ltb_below_posInf x Hx); reflexivity).
  rewrite Es, fold_floatMin_value by assumption. reflexivity.
Qed.

Lemma greatestOf_coordinates (l : list float32) :
  l <> [] -> Forall real l ->
  greatestOf (map value l) = Some (value (fold_left floatMax l negInf)).
Proof.
  intros Hne Hl. destruct l as [|x l]; [congruence|].
  inversion Hl as [|? ? Hx Hl']; subst. cbn [map greatestOf fold_left].
  assert (Es : floatMax negInf x = x)
    by (unfold floatMax; rewrite (ltb_above_negInf x Hx); reflexivity).
  rewrite Es, fold_floatMax_value by assumption. reflexivity.
Qed.

(** The bounding box of a vertex list on the grid: none without a vertex,
    else coordinates on the grid whose numbers are the box of the numbers. *)
Lemma boundingBox_on_grid (e : Z) (vs : list float32) :
  -23 <= e <= -1 -> gridded e vs ->
  (boundingBox vs = (posInf, posInf, negInf, negInf) /\ boxOf vs = None)
  \/ exists minX minY maxX maxY,
       boundingBox vs = (minX, minY, maxX, maxY)
       /\ onGrid e minX /\ onGrid e minY /\ onGrid e maxX /\ onGrid e maxY
       /\ boxOf vs = Some (value minX, value minY, value maxX, value maxY).
Proof.
  intros He [Gx Gy]. unfold boundingBox, boxOf.
  assert (Hreal : forall l, Forall (onGrid e) l -> Forall real l).
  { intros l H. eapply Forall_impl; [|exact H]. intros x. apply onGrid_real. exact He. }
  assert (Hin : forall (l : list float32) x, Forall (onGrid e) l -> In x l -> onGrid e x).
  { intros l x H. rewrite Forall_forall in H. apply H. }
  assert (Hsame : coordinates 0 vs = [] <-> coordinates 1 vs = []).
  { unfold coordinates. destruct (seq 0 (Z.to_nat (len vs / VertexFloatCount)));
      cbn [map]; split; intros H; first [reflexivity | discriminate H]. }
  destruct (coordinates 0 vs) as [|x0 xs] eqn:Ex.
  - left. rewrite (proj1 Hsame eq_refl). split; reflexivity.
  - right.
    assert (Nx : x0 :: xs <> []) by discriminate.
    assert (Ny : coordinates 1 vs <> []).
    { intros H. apply Hsame in H. discriminate H. }
    destruct (least_coordinate _ Nx (Hreal _ Gx)) as [I1 _].
    destruct (greatest_coordinate _ Nx (Hreal _ Gx)) as [I2 _].
    destruct (least_coordinate _ Ny (Hreal _ Gy)) as [I3 _].
    destruct (greatest_coordinate _ Ny (Hreal _ Gy)) as [I4 _].
    eexists _, _, _, _. split; [reflexivity|].
    split; [exact (Hin _ _ Gx I1)|]. split; [exact (Hin _ _ Gy I3)|].
    split; [exact (Hin _ _ Gx I2)|]. split; [exact (Hin _ _ Gy I4)|].
    rewrite (leastOf_coordinates _ Nx (Hreal _ Gx)).
    rewrite (leastOf_coordinates _ Ny (Hreal _ Gy)).
    rewrite (greatestOf_coordinates _ Nx (Hreal _ Gx)).
    rewrite (greatestOf_coordinates _ Ny (Hreal _ Gy)). reflexivity.
Qed.

(** On the grid the overlap test of the code is the overlap of the boxes
    within a margin of 1, as numbers. *)
Lemma mightOverlapDstRegions_on_grid (e : Z) (vs1 vs2 : list float32) :
  -23 <= e <= -1 -> gridded e vs1 -> gridded e vs2 ->
  (mightOverlapDstRegions vs1 vs2 = true
   <-> overlapWithinMargin (boxOf vs1) (boxOf vs2)).
Proof.
  intros He G1 G2. rewrite mightOverlapDstRegions_spec.
  destruct (boundingBox_on_grid e vs1 He G1)
    as [[-> ->]|(a1 & b1 & c1 & d1 & -> & Ha1 & Hb1 & Hc1 & Hd1 & ->)].
  { destruct (boundingBox vs2) as [[[a2 b2] c2] d2].
    cbn [overlapRounded overlapWithinMargin]. unfold float_lt.
    rewrite ltb_posInf. split; [intros [H _]; discriminate H|intros []]. }
  destruct (boundingBox_on_grid e vs2 He G2)
    as [[-> ->]|(a2 & b2 & c2 & d2 & -> & Ha2 & Hb2 & Hc2 & Hd2 & ->)].
  { cbn [overlapRounded overlapWithinMargin]. unfold float_lt.
    rewrite (ltb_posInf (add c1 (of_int 1))).
    split; [intros (_ & H & _); discriminate H|intros []]. }
  cbn [overlapRounded overlapWithinMargin]. unfold float_lt.
  change (of_int 1) with mergin.
  rewrite (ltb_add_one_exact e a1 c2 He Ha1 Hc2).
  rewrite (ltb_add_one_exact e a2 c1 He Ha2 Hc1).
  rewrite (ltb_add_one_exact e b1 d2 He Hb1 Hd2).
  rewrite (ltb_add_one_exact e b2 d1 He Hb2 Hd1).
  reflexivity.
Qed.

(** C1, as the code has it.  The x and y of the vertices of the two commands
    are multiples of one power of two [2^e], between 2^-23 and 1/2, of a
    magnitude that leaves room for one more unit: the sums [max + 1] of the
    overlap test are then exact.  On such vertices the merge predicate holds
    exactly when the two commands have the same shader, uniform lists equal
    in shape and in every scalar value, the same destination image, the same
    four sources in the same order, the same blend mode, the same destination
    region, and either no even-odd flag, or both flags and bounding boxes of
    their vertices that, as numbers, do not overlap within a margin of 1
    unit. *)
Theorem CanMergeWithDrawTrianglesCommand_on_grid (e : Z) (c : drawTrianglesCommand)
    (dst : Image) (srcs : Srcs) (vs : list float32) (blend : Blend)
    (dstRegion : Region) (shader : Shader) (uniforms : list (list float32))
    (evenOdd : bool) :
  -23 <= e <= -1 -> gridded e (c_vertices c) -> gridded e vs ->
  (CanMergeWithDrawTrianglesCommand c dst srcs vs blend dstRegion shader uniforms evenOdd
   = true
   <->
   c_shader c = shader
   /\ uniformsEqual (c_uniforms c) uniforms
   /\ c_dst c = dst
   /\ c_srcs c = srcs
   /\ c_blend c = blend
   /\ regionEqual (c_dstRegion c) dstRegion
   /\ ((c_evenOdd c = false /\ evenOdd = false)
       \/ (c_evenOdd c = true /\ evenOdd = true
           /\ ~ overlapWithinMargin (boxOf (c_vertices c)) (boxOf vs)))).
Proof.
  intros He G1 G2.
  rewrite CanMergeWithDrawTrianglesCommand_binary32.
  rewrite <- (mightOverlapDstRegions_on_grid e (c_vertices c) vs He G1 G2).
  rewrite <- mightOverlapDstRegions_spec. reflexivity.
Qed.

Lemma CanMergeWithDrawTrianglesCommand_on_grid_witness :
  CanMergeWithDrawTrianglesCommand (evenOddCommand (vertexAt (of_int 3) (of_int 1)))
    1%positive (None, None, None, None) (vertexAt (of_scaled 69 (-4)) (of_int 1))
    (Build_Blend 1 1 0 0 0 0) (Build_Region zero zero (of_int 16) (of_int 16))
    1%positive [] true = true
  /\ ~ overlapWithinMargin (boxOf (vertexAt (of_int 3) (of_int 1)))
         (boxOf (vertexAt (of_scaled 69 (-4)) (of_int 1))).
Proof.
  assert (G : forall j k, Z.abs j + 2 ^ 4 < 2 ^ 24 -> Z.abs k + 2 ^ 4 < 2 ^ 24 ->
                gridded (-4) (vertexAt (of_scaled j (-4)) (of_scaled k (-4)))).
  { intros j k Hj Hk. split; repeat constructor; [exists j|exists k]; split;
      first [assumption | reflexivity]. }
  pose proof (CanMergeWithDrawTrianglesCommand_on_grid (-4)
                (evenOddCommand (vertexAt (of_int 3) (of_int 1)))
                1%positive (None, None, None, None)
                (vertexAt (of_scaled 69 (-4)) (of_int 1))
                (Build_Blend 1 1 0 0 0 0)
                (Build_Region zero zero (of_int 16) (of_int 16))
                1%positive [] true ltac:(lia)
                (G 48 16 ltac:(lia) ltac:(lia)) (G 69 16 ltac:(lia) ltac:(lia))) as H.
  assert (E : CanMergeWithDrawTrianglesCommand
                (evenOddCommand (vertexAt (of_int 3) (of_int 1)))
                1%positive (None, None, None, None)
                (vertexAt (of_scaled 69 (-4)) (of_int 1))
                (Build_Blend 1 1 0 0 0 0)
                (Build_Region zero zero (of_int 16) (of_int 16))
                1%positive [] true = true) by (vm_compute; reflexivity).
  split; [exact E|].
  destruct (proj1 H E) as (_ & _ & _ & _ & _ & _ & [[D _]|(_ & _ & N)]);
    [discriminate D|exact N].
Defined.

(** C1 as stated fails where the sum [max + 1] is rounded.  Two even-odd
    draws of the same single vertex at x = 2^24 have the same bounding box:
    the boxes overlap.  In binary32 2^24 + 1 is 2^24, the test
    [minX1 < maxX2 + 1] is false, and the draws are merged.  So are two
    vertices at x = 1 and x = 2^-30, which are less than 1 apart. *)
Lemma CanMergeWithDrawTrianglesCommand_merges_overlapping :
  CanMergeWithDrawTrianglesCommand (evenOddCommand (vertexAt (of_int 16777216) zero))
    1%positive (None, None, None, None) (vertexAt (of_int 16777216) zero)
    (Build_Blend 1 1 0 0 0 0) (Build_Region zero zero (of_int 16) (of_int 16))
    1%positive [] true = true
  /\ overlapWithinMargin (boxOf (vertexAt (of_int 16777216) zero))
       (boxOf (vertexAt (of_int 16777216) zero))
  /\ CanMergeWithDrawTrianglesCommand (evenOddCommand (vertexAt (of_int 1) zero))
       1%positive (None, None, None, None) (vertexAt (of_scaled 1 (-30)) zero)
       (Build_Blend 1 1 0 0 0 0) (Build_Region zero zero (of_int 16) (of_int 16))
       1%positive [] true = true
  /\ overlapWithinMargin (boxOf (vertexAt (of_int 1) zero))
       (boxOf (vertexAt (of_scaled 1 (-30)) zero)).
Proof.
  split; [vm_compute; reflexivity|]. split; [vm_compute; repeat split|].
  split; [vm_compute; reflexivity|]. vm_compute; repeat split.
Qed.

(** ** Executing a command *)

(** C10: a draw-triangles command with no index returns nil at once and
    makes no call on the driver. *)
Theorem Exec_without_indices (drv : driver) (c : drawTrianglesCommand)
    (indexOffset : Z) (tr : trace) :
  c_nindices c = 0 ->
  Exec drv (drawTriangles c) indexOffset tr = (None, tr).
Proof.
  intros H. cbn [Exec]. rewrite H. reflexivity.
Qed.

Lemma Exec_without_indices_witness :
  Exec (fun _ _ => Some "device lost"%string)
    (drawTriangles
       {| c_dst := 1%positive; c_srcs := (None, None, None, None);
          c_vertices := []; c_nindices := 0;
          c_blend := Build_Blend 1 1 0 0 0 0;
          c_dstRegion := Build_Region zero zero zero zero;
          c_shader := 1%positive; c_uniforms := []; c_evenOdd := false |})
    5 [Begin]
  = (None, [Begin]).
Proof.
  apply Exec_without_indices. reflexivity.
Defined.

Lemma firstError_app (drv : driver) (c1 : list call) :
  forall (tr : trace) (c2 : list call),
    firstError drv tr (c1 ++ c2)
    = match firstError drv tr c1 with
      | Some err => Some err
      | None => firstError drv (tr ++ c1) c2
      end.
Proof.
  induction c1 as [|c c1 IH]; intros tr c2.
  - simpl. rewrite app_nil_r. reflexivity.
  - simpl. destruct (answer drv tr c); [reflexivity|].
    rewrite IH. rewrite <- app_assoc. reflexivity.
Qed.

(** [Exec] makes at most one call, never [Begin], [End] or [SetVertices], and
    returns its answer. *)
Lemma Exec_calls (drv : driver) (c : command) (off : Z) (tr : trace) :
  exists calls,
    snd (Exec drv c off tr) = tr ++ calls
    /\ fst (Exec drv c off tr) = firstError drv tr calls
    /\ Forall (fun k => isBeginEnd k = false /\ isSetVertices k = false) calls
    /\ (forall e, fst (Exec drv c off tr) = Some e ->
        exists k, calls = [k] /\ answer drv tr k = Some e).
Proof.
  assert (Hone : forall k, isBeginEnd k = false -> isSetVertices k = false ->
            exists calls,
              snd (invoke drv tr k) = tr ++ calls
              /\ fst (invoke drv tr k) = firstError drv tr calls
              /\ Forall (fun k => isBeginEnd k = false /\ isSetVertices k = false) calls
              /\ (forall e, fst (invoke drv tr k) = Some e ->
                  exists k', calls = [k'] /\ answer drv tr k' = Some e)).
  { intros k Hk Hs. exists [k]. cbn [invoke fst snd firstError].
    split; [reflexivity|]. split; [destruct (answer drv tr k); reflexivity|].
    split; [constructor; auto|]. intros e He. exists k. auto. }
  assert (Hnone : exists calls,
              tr = tr ++ calls
              /\ @None error = firstError drv tr calls
              /\ Forall (fun k => isBeginEnd k = false /\ isSetVertices k = false) calls
              /\ (forall e, @None error = Some e ->
                  exists k', calls = [k'] /\ answer drv tr k' = Some e)).
  { exists []. rewrite app_nil_r. repeat split; auto. discriminate. }
  destruct c as [d|dst nargs| | | |res w h screen| |]; cbn [Exec].
  - destruct (c_nindices d =? 0); [exact Hnone|]. apply Hone; reflexivity.
  - destruct (nargs =? 0); [exact Hnone|]. apply Hone; reflexivity.
  - apply Hone; reflexivity.
  - apply Hone; reflexivity.
  - apply Hone; reflexivity.
  - destruct screen; apply Hone; reflexivity.
  - apply Hone; reflexivity.
  - apply Hone; reflexivity.
Qed.

(** The calls of a chunk's commands end with the first error. *)
Lemma execChunk_calls (drv : driver) (cs : list command) :
  forall (off : Z) (tr : trace),
  exists calls,
    snd (execChunk drv cs off tr) = tr ++ calls
    /\ fst (execChunk drv cs off tr) = firstError drv tr calls
    /\ Forall bodyCall calls
    /\ Forall (fun k => isSetVertices k = false) calls.
Proof.
  induction cs as [|c cs IH]; intros off tr.
  - exists []. simpl. rewrite app_nil_r. auto.
  - cbn [execChunk].
    destruct (Exec_calls drv c off tr) as (calls1 & Htr & Hr & Hb & Herr).
    destruct (Exec drv c off tr) as [[e|] tr1]; cbn [fst snd] in *.
    + exists calls1. subst tr1. repeat split; auto.
      * eapply Forall_impl; [|exact Hb]. intros k [Hk _]. exact Hk.
      * eapply Forall_impl; [|exact Hb]. intros k [_ Hk]. exact Hk.
    + subst tr1.
      match goal with
      | |- context [execChunk drv cs ?o (tr ++ calls1)] =>
          destruct (IH o (tr ++ calls1)) as (calls2 & Htr2 & Hr2 & Hb2 & Hs2)
      end.
      exists (calls1 ++ calls2). rewrite firstError_app, <- Hr.
      rewrite Htr2, Hr2, app_assoc. repeat split; auto.
      * apply Forall_app. split; auto.
        eapply Forall_impl; [|exact Hb]. intros k [Hk _]. exact Hk.
      * apply Forall_app. split; auto.
        eapply Forall_impl; [|exact Hb]. intros k [_ Hk]. exact Hk.
Qed.

(** ** The chunk loop *)

(** A chunk takes at least one command, and no more than there are. *)
Lemma scanChunk_count (cs : list command) :
  forall nv ne nc nv' ne' nc',
    0 <= nc ->
    scanChunk cs nv ne nc = Ret (nv', ne', nc') ->
    nc <= nc' <= nc + len cs /\ (nc = 0 -> cs <> [] -> 1 <= nc').
Proof.
  induction cs as [|c cs IH]; intros nv ne nc nv' ne' nc' Hnc E.
  - simpl in E. injection E as -> -> ->. rewrite len_nil. split; [lia|congruence].
  - rewrite len_cons. pose proof (len_nonneg cs) as Hl.
    destruct c as [d| | | | | | |]; cbn [scanChunk] in E;
      try (apply IH in E; [|lia]; destruct E as [E1 E2]; split; [lia|intros; lia]).
    destruct (numIndices d >? IndicesCount); [discriminate|].
    destruct (Z.gtb_spec nc 0) as [Hpos|Hzero]; cbn [andb] in E.
    + destruct (mustUseDifferentVertexBuffer _ _).
      * injection E as -> -> ->. split; [lia|intros; lia].
      * apply IH in E; [|lia]. destruct E as [E1 E2]. split; [lia|intros; lia].
    + apply IH in E; [|lia]. destruct E as [E1 E2]. split; [lia|intros; lia].
Qed.

Lemma scanChunk_ends (cs : list command) :
  forall nv ne nc, scanChunk cs nv ne nc <> Diverge.
Proof.
  induction cs as [|c cs IH]; intros nv ne nc; [discriminate|].
  destruct c; cbn [scanChunk]; try apply IH.
  destruct (numIndices c >? IndicesCount); [discriminate|].
  destruct ((nc >? 0) && mustUseDifferentVertexBuffer _ _); [discriminate|].
  apply IH.
Qed.

Lemma length_skipn_chunk (cs : list command) (nc : Z) (fuel : nat) :
  1 <= nc -> (List.length cs <= S fuel)%nat ->
  (List.length (skipn (Z.to_nat nc) cs) <= fuel)%nat.
Proof.
  intros H1 H2. rewrite length_skipn. lia.
Qed.

(** The chunk loop returns (it does not run out of rounds), makes no [Begin]
    or [End] call, and what it returns is the first error of its calls. *)
Lemma flushChunks_returns (drv : driver) (fuel : nat) :
  forall (cs : list command) (vs : list float32) (es : list Z) (tr : trace),
    (List.length cs <= fuel)%nat ->
    exists calls,
      snd (flushChunks fuel drv cs vs es tr) = tr ++ calls
      /\ Forall bodyCall calls
      /\ fst (flushChunks fuel drv cs vs es tr) <> Diverge
      /\ (forall e, fst (flushChunks fuel drv cs vs es tr) = Ret e ->
          e = firstError drv tr calls).
Proof.
  assert (Hnil : forall (r : outcome (option error)) (tr : trace),
            r <> Diverge -> (forall e, r = Ret e -> e = None) ->
            exists calls,
              snd (r, tr) = tr ++ calls /\ Forall bodyCall calls
              /\ fst (r, tr) <> Diverge
              /\ (forall e, fst (r, tr) = Ret e -> e = firstError drv tr calls)).
  { intros r tr Hr He. exists []. cbn [fst snd firstError]. rewrite app_nil_r.
    split; [reflexivity|]. split; [constructor|]. split; [exact Hr|exact He]. }
  induction fuel as [|fuel IH]; intros cs vs es tr Hfuel.
  - destruct cs; [|simpl in Hfuel; lia].
    cbn [flushChunks]. apply Hnil; [discriminate|congruence].
  - destruct cs as [|c0 cs0]; [cbn [flushChunks]; apply Hnil; [discriminate|congruence]|].
    cbn [flushChunks]. set (cs := c0 :: cs0) in *.
    destruct (scanChunk cs 0 0 0) as [[[nv ne] nc]|msg|] eqn:Escan.
    2:{ apply Hnil; [discriminate|discriminate]. }
    2:{ exfalso. exact (scanChunk_ends _ _ _ _ Escan). }
    apply scanChunk_count in Escan; [|lia].
    destruct Escan as [[_ Hnc2] Hnc1]. specialize (Hnc1 eq_refl).
    assert (H1 : 1 <= nc) by (apply Hnc1; discriminate).
    assert (Hrun : forall (vs1 : list float32) (es1 : list Z) (tr1 : trace),
              exists calls,
                snd (match execChunk drv (firstn (Z.to_nat nc) cs) 0 tr1 with
                     | (Some err, tr2) => (Ret (Some err), tr2)
                     | (None, tr2) =>
                         flushChunks fuel drv (skipn (Z.to_nat nc) cs) vs1 es1 tr2
                     end) = tr1 ++ calls
                /\ Forall bodyCall calls
                /\ fst (match execChunk drv (firstn (Z.to_nat nc) cs) 0 tr1 with
                        | (Some err, tr2) => (Ret (Some err), tr2)
                        | (None, tr2) =>
                            flushChunks fuel drv (skipn (Z.to_nat nc) cs) vs1 es1 tr2
                        end) <> Diverge
                /\ (forall e,
                      fst (match execChunk drv (firstn (Z.to_nat nc) cs) 0 tr1 with
                           | (Some err, tr2) => (Ret (Some err), tr2)
                           | (None, tr2) =>
                               flushChunks fuel drv (skipn (Z.to_nat nc) cs) vs1 es1 tr2
                           end) = Ret e ->
                      e = firstError drv tr1 calls)).
    { intros vs1 es1 tr1.
      destruct (execChunk_calls drv (firstn (Z.to_nat nc) cs) 0 tr1)
        as (calls1 & Htr & Hr & Hb & _).
      destruct (execChunk drv (firstn (Z.to_nat nc) cs) 0 tr1) as [[err|] tr2];
        cbn [fst snd] in Htr, Hr.
      - exists calls1. cbn [fst snd].
        split; [exact Htr|]. split; [exact Hb|]. split; [discriminate|].
        intros e E. injection E as <-. exact Hr.
      - destruct (IH (skipn (Z.to_nat nc) cs) vs1 es1 tr2)
          as (calls2 & Htr2 & Hb2 & Hd2 & He2).
        { apply length_skipn_chunk; assumption. }
        subst tr2. exists (calls1 ++ calls2). rewrite Htr2, app_assoc.
        split; [reflexivity|]. split; [apply Forall_app; auto|]. split; [exact Hd2|].
        intros e E. rewrite firstError_app, <- Hr. apply He2. exact E. }
    destruct (0 <? ne); [|apply Hrun].
    destruct ((nv <=? len vs) && (ne <=? len es));
      [|apply Hnil; [discriminate|discriminate]].
    cbn [invoke].
    destruct (answer drv tr (SetVertices (firstn (Z.to_nat nv) vs) (firstn (Z.to_nat ne) es)))
      as [err|] eqn:Eans.
    + exists [SetVertices (firstn (Z.to_nat nv) vs) (firstn (Z.to_nat ne) es)].
      cbn [fst snd firstError]. rewrite Eans.
      split; [reflexivity|]. split; [constructor; [reflexivity|constructor]|].
      split; [discriminate|]. intros e E. injection E as <-. reflexivity.
    + cbv beta iota zeta.
      destruct (Hrun (skipn (Z.to_nat nv) vs) (skipn (Z.to_nat ne) es)
                  (tr ++ [SetVertices (firstn (Z.to_nat nv) vs) (firstn (Z.to_nat ne) es)]))
        as (calls & Htr & Hb & Hd & He).
      exists (SetVertices (firstn (Z.to_nat nv) vs) (firstn (Z.to_nat ne) es) :: calls).
      rewrite Htr, <- app_assoc. cbn [app firstError]. rewrite Eans.
      split; [reflexivity|]. split; [constructor; [reflexivity|assumption]|].
      split; [exact Hd|exact He].
Qed.

(** ** Flushing: the calls and the error *)

(** C5, as the code has it: the error [flush] returns is the first error
    among the answers to its calls.  When [Begin] fails it is the only call.
    Once [Begin] has succeeded the calls end with [End], whatever happened in
    between; the answer of [End] is returned only when no call before it
    failed. *)
Theorem flush_first_error_and_End (drv : driver) (q : commandQueue)
    (endFrame : bool) (tr : trace) (r : outcome (option error))
    (q' : commandQueue) (tr' : trace) :
  flush drv q endFrame tr = (r, q', tr') ->
  exists calls,
    tr' = tr ++ calls
    /\ r <> Diverge
    /\ (forall e, r = Ret e -> e = firstError drv tr calls)
    /\ (len (commands q) = 0 /\ endFrame = false -> calls = [] /\ r = Ret None)
    /\ (~ (len (commands q) = 0 /\ endFrame = false) ->
        (forall err, answer drv tr Begin = Some err ->
           calls = [Begin] /\ r = Ret (Some err))
        /\ (answer drv tr Begin = None ->
            exists mid, calls = Begin :: mid ++ [End endFrame]
                        /\ Forall bodyCall mid)).
Proof.
  unfold flush. intros E.
  destruct ((len (commands q) =? 0) && negb endFrame) eqn:Hcond.
  { injection E as <- <- <-. exists []. rewrite app_nil_r.
    split; [reflexivity|]. split; [discriminate|].
    split; [intros e He; injection He as <-; reflexivity|].
    split; [auto|]. intros Hn. exfalso. apply Hn.
    apply andb_true_iff in Hcond. destruct Hcond as [H1 H2].
    apply Z.eqb_eq in H1. destruct endFrame; [discriminate|auto]. }
  assert (Hnot : ~ (len (commands q) = 0 /\ endFrame = false)).
  { intros [H1 H2]. rewrite H1, H2 in Hcond. discriminate. }
  cbn [invoke] in E.
  destruct (answer drv tr Begin) as [err|] eqn:Eb.
  { injection E as <- <- <-. exists [Begin]. cbn [firstError]. rewrite Eb.
    split; [reflexivity|]. split; [discriminate|].
    split; [intros e He; injection He as <-; reflexivity|].
    split; [intros H; contradiction|].
    intros _. split; [intros err' He'; injection He' as <-; auto | discriminate]. }
  destruct (flushChunks_returns drv (List.length (commands q)) (commands q)
              (vertices q) (indices q) (tr ++ [Begin]) (le_n _))
    as (mid & Htr & Hb & Hd & He).
  destruct (flushChunks (List.length (commands q)) drv (commands q) (vertices q)
              (indices q) (tr ++ [Begin])) as [rb tr2].
  cbn [fst snd] in Htr, Hd, He. subst tr2.
  injection E as <- <- <-.
  exists (Begin :: mid ++ [End endFrame]).
  split; [rewrite <- !app_assoc; reflexivity|].
  split; [destruct rb as [[e|]| |]; [discriminate|discriminate|discriminate|congruence]|].
  split.
  { intros e Hr. cbn [firstError]. rewrite Eb, firstError_app.
    destruct rb as [[e0|]| |]; try discriminate.
    - injection Hr as <-. rewrite <- (He (Some e0) eq_refl). reflexivity.
    - injection Hr as <-. rewrite <- (He None eq_refl). cbn [firstError].
      rewrite <- app_assoc. cbn [app].
      destruct (answer drv (tr ++ Begin :: mid) (End endFrame)); reflexivity. }
  split; [intros H; contradiction|].
  intros _. split; [intros err' He'; discriminate|].
  intros _. exists mid. auto.
Qed.

Lemma flush_first_error_and_End_witness :
  exists calls,
    [Begin; End true] = [] ++ calls
    /\ Ret (Some "swap failed"%string) <> Diverge
    /\ (forall e, Ret (Some "swap failed"%string) = Ret e ->
        e = firstError
              (fun _ k => match k with End _ => Some "swap failed"%string | _ => None end)
              [] calls)
    /\ (len (commands theCommandQueue) = 0 /\ true = false ->
        calls = [] /\ Ret (Some "swap failed"%string) = Ret None)
    /\ (~ (len (commands theCommandQueue) = 0 /\ true = false) ->
        (forall err,
           answer (fun _ k => match k with End _ => Some "swap failed"%string | _ => None end)
             [] Begin = Some err ->
           calls = [Begin] /\ Ret (Some "swap failed"%string) = Ret (Some err))
        /\ (answer (fun _ k => match k with End _ => Some "swap failed"%string | _ => None end)
              [] Begin = None ->
            exists mid, calls = Begin :: mid ++ [End true] /\ Forall bodyCall mid)).
Proof.
  apply (flush_first_error_and_End
           (fun _ k => match k with End _ => Some "swap failed"%string | _ => None end)
           theCommandQueue true [] (Ret (Some "swap failed"%string))
           theCommandQueue [Begin; End true]).
  reflexivity.
Defined.

(** C5 as stated fails when the failing call is [Begin]: [flush] returns its
    error and [End] is not invoked. *)
Lemma flush_Begin_error_skips_End :
  flush (fun _ k => match k with Begin => Some "no device"%string | _ => None end)
    theCommandQueue true []
  = (Ret (Some "no device"%string), theCommandQueue, [Begin]).
Proof. reflexivity. Qed.

(** ** The invariant of the queue *)

Lemma unsnoc_app_one {A : Type} (l : list A) (x : A) : unsnoc (l ++ [x]) = Some (l, x).
Proof.
  induction l as [|y l IH]; [reflexivity|].
  cbn [app unsnoc]. rewrite IH. reflexivity.
Qed.

Lemma unsnoc_Some {A : Type} (l : list A) :
  forall r y, unsnoc l = Some (r, y) -> l = r ++ [y].
Proof.
  induction l as [|x l IH]; intros r y E; [discriminate|].
  cbn [unsnoc] in E. destruct (unsnoc l) as [[r' y']|] eqn:El.
  - injection E as <- <-. rewrite (IH r' y' eq_refl). reflexivity.
  - injection E as <- <-. destruct l; [reflexivity|].
    cbn [unsnoc] in El. destruct (unsnoc l) as [[? ?]|]; discriminate.
Qed.

Lemma sumZ_app (a b : list Z) : sumZ (a ++ b) = sumZ a + sumZ b.
Proof.
  unfold sumZ. induction a as [|x a IH]; [reflexivity|].
  cbn [app fold_right]. rewrite IH. lia.
Qed.

Lemma lastVertices_app (a b : list float32) : lastVertices (a ++ b) (len b) = Some b.
Proof.
  unfold lastVertices. rewrite len_app.
  pose proof (len_nonneg a). pose proof (len_nonneg b).
  destruct (Z.leb_spec 0 (len b)); [|lia].
  destruct (Z.leb_spec (len b) (len a + len b)); [|lia].
  cbn [andb]. f_equal.
  replace (Z.to_nat (len a + len b - len b)) with (List.length a + 0)%nat
    by (unfold len; lia).
  rewrite skipn_app, Nat.add_0_r, skipn_all. cbn [app].
  replace (List.length a - List.length a)%nat with 0%nat by lia. reflexivity.
Qed.

Lemma pool_get_len (p : list drawTrianglesCommand) : len (pool_get p) <= len p.
Proof.
  unfold pool_get. pose proof (len_nonneg p).
  destruct (Z.eqb_spec (len p) 0); [lia|]. rewrite len_firstn; lia.
Qed.

Lemma pool_put_len (p : list drawTrianglesCommand) (v : drawTrianglesCommand) :
  len p <= 1024 -> len (pool_put p v) <= 1024.
Proof.
  intros H. unfold pool_put. destruct (Z.geb_spec (len p) 1024); [lia|].
  rewrite len_app, len_cons, len_nil. lia.
Qed.

Lemma release_len (cs : list command) :
  forall p, len p <= 1024 -> len (release cs p) <= 1024.
Proof.
  unfold release. induction cs as [|c cs IH]; intros p H; [exact H|].
  cbn [fold_left]. apply IH. destruct c; auto. apply pool_put_len. exact H.
Qed.

(** ** Chunks and uploads *)

Lemma mustUseDifferentVertexBuffer_false (nv ne : Z) :
  mustUseDifferentVertexBuffer nv ne = false ->
  nv <= IndicesCount * VertexFloatCount /\ ne <= IndicesCount.
Proof.
  unfold mustUseDifferentVertexBuffer. intros H.
  apply orb_false_iff in H. destruct H as [H1 H2].
  destruct (Z.gtb_spec nv (IndicesCount * VertexFloatCount)); [discriminate|].
  destruct (Z.gtb_spec ne IndicesCount); [discriminate|]. lia.
Qed.


(** A queued draw with at least one index and within the capacity of one
    upload. *)
Definition drawCmdWithin (c : command) : Prop :=
  exists d, c = drawTriangles d
            /\ 1 <= c_nindices d <= IndicesCount
            /\ numVertices d <= maxVertexFloats.

(** The index array after the draws [ds] have been enqueued on a chunk that
    holds [tmpV] vertex floats and [tmpI] indices. *)
Fixpoint rebasedIndices (tmpV tmpI : Z) (ds : list draw) : list Z :=
  match ds with
  | [] => []
  | d :: ds' =>
      let split :=
        mustUseDifferentVertexBuffer (tmpV + len (d_vertices d))
          (tmpI + len (d_indices d)) in
      let tV := if split then 0 else tmpV in
      let tI := if split then 0 else tmpI in
      map (fun e => uint16 (e + uint16 (tV / VertexFloatCount))) (d_indices d)
      ++ rebasedIndices (tV + len (d_vertices d)) (tI + len (d_indices d)) ds'
  end.

Lemma firstn_len_app {A : Type} (a b : list A) : firstn (Z.to_nat (len a)) (a ++ b) = a.
Proof.
  unfold len. rewrite Nat2Z.id.
  replace (List.length a) with (List.length a + 0)%nat at 1 by lia.
  rewrite firstn_app_2, firstn_O. apply app_nil_r.
Qed.

Lemma skipn_len_app {A : Type} (a b : list A) : skipn (Z.to_nat (len a)) (a ++ b) = b.
Proof.
  unfold len. rewrite Nat2Z.id, skipn_app, skipn_all, Nat.sub_diag. reflexivity.
Qed.

Lemma firstn_len_eq {A : Type} (a b : list A) (n : Z) :
  n = len a -> firstn (Z.to_nat n) (a ++ b) = a.
Proof. intros ->. apply firstn_len_app. Qed.

Lemma skipn_len_eq {A : Type} (a b : list A) (n : Z) :
  n = len a -> skipn (Z.to_nat n) (a ++ b) = b.
Proof. intros ->. apply skipn_len_app. Qed.

Lemma uint16_rebase_undo (e o : Z) : 0 <= e < 2 ^ 16 -> uint16 (uint16 (e + o) - o) = e.
Proof.
  intros H. unfold uint16. rewrite Zminus_mod_idemp_l.
  replace (e + o - o) with e by lia. apply Z.mod_small. exact H.
Qed.

(** Subtracting the offsets from the rebased indices gives back the indices
    of every draw. *)
Lemma undoRebase_rebasedIndices (ds : list draw) :
  forall tmpV tmpI,
    Forall drawWithinChunk ds ->
    undoRebase (rebaseOffsets tmpV tmpI ds) (map (fun d => len (d_indices d)) ds)
      (rebasedIndices tmpV tmpI ds)
    = map d_indices ds.
Proof.
  induction ds as [|d ds IH]; intros tmpV tmpI Hds; [reflexivity|].
  inversion Hds as [|? ? Hd Hds']; subst.
  destruct Hd as (_ & _ & Hrange).
  cbn [rebaseOffsets rebasedIndices map undoRebase].
  set (o := uint16 _).
  rewrite firstn_len_eq, skipn_len_eq by (rewrite len_map; reflexivity).
  rewrite IH by exact Hds'.
  f_equal. rewrite map_map.
  rewrite <- (map_id (d_indices d)) at 2.
  apply map_ext_in. intros e He. apply uint16_rebase_undo.
  rewrite Forall_forall in Hrange. apply Hrange. exact He.
Qed.

Lemma len_rebasedIndices (ds : list draw) :
  forall tmpV tmpI,
    len (rebasedIndices tmpV tmpI ds) = sumZ (map (fun d => len (d_indices d)) ds).
Proof.
  induction ds as [|d ds IH]; intros tmpV tmpI; [reflexivity|].
  cbn [rebasedIndices map]. rewrite len_app, len_map, IH. reflexivity.
Qed.

Lemma len_concat_vertices (ds : list draw) :
  len (List.concat (map d_vertices ds)) = sumZ (map (fun d => len (d_vertices d)) ds).
Proof.
  induction ds as [|d ds IH]; [reflexivity|].
  cbn [map List.concat]. rewrite len_app, IH. reflexivity.
Qed.

Lemma firstError_neverFails (drv : driver) (calls : list call) :
  neverFails drv -> forall tr, firstError drv tr calls = None.
Proof.
  intros Hd. induction calls as [|k calls IH]; intros tr; [reflexivity|].
  cbn [firstError]. rewrite Hd. apply IH.
Qed.

Lemma uploads_app (a b : list call) : uploads (a ++ b) = uploads a ++ uploads b.
Proof. unfold uploads. apply flat_map_app. Qed.

Lemma uploads_none (calls : list call) :
  Forall (fun k => isSetVertices k = false) calls -> uploads calls = [].
Proof.
  induction 1 as [|k calls Hk _ IH]; [reflexivity|].
  unfold uploads in *. cbn [flat_map]. rewrite IH.
  destruct k; try reflexivity. discriminate.
Qed.

Lemma sumZ_indices_nonneg (cs : list command) :
  Forall drawCmdWithin cs -> 0 <= sumZ (map cmdNumIndices cs).
Proof.
  induction 1 as [|c cs (d & -> & Hd & _) _ IH]; [reflexivity|].
  cbn [map sumZ fold_right cmdNumIndices]. unfold sumZ in IH. lia.
Qed.

(** What the measuring loop returns on queued draws: the totals of the
    commands it takes, which stay within the capacity of one upload. *)
Lemma scanChunk_spec (cs : list command) :
  forall nv ne nc,
    Forall drawCmdWithin cs ->
    0 <= nc -> 0 <= nv <= maxVertexFloats -> 0 <= ne <= IndicesCount ->
    (nc = 0 -> nv = 0 /\ ne = 0) ->
    exists k : nat,
      (k <= List.length cs)%nat
      /\ (nc = 0 -> cs <> [] -> (1 <= k)%nat)
      /\ scanChunk cs nv ne nc
         = Ret (nv + len (flat_map cmdVertices (firstn k cs)),
                ne + sumZ (map cmdNumIndices (firstn k cs)),
                nc + Z.of_nat k)
      /\ nv + len (flat_map cmdVertices (firstn k cs)) <= maxVertexFloats
      /\ ne + sumZ (map cmdNumIndices (firstn k cs)) <= IndicesCount.
Proof.
  induction cs as [|c cs IH]; intros nv ne nc Hcs Hnc Hnv Hne Hzero.
  - exists 0%nat. unfold len, sumZ.
    cbn [firstn flat_map map scanChunk List.length fold_right Z.of_nat].
    rewrite !Z.add_0_r.
    split; [lia|]. split; [intros _ H; congruence|]. split; [reflexivity|]. lia.
  - inversion Hcs as [|? ? (d & -> & Hd & Hdv) Hcs']; subst.
    cbn [scanChunk]. unfold numIndices.
    destruct (Z.gtb_spec (c_nindices d) IndicesCount); [lia|].
    assert (Hgo : nv + numVertices d <= maxVertexFloats
                  /\ ne + c_nindices d <= IndicesCount ->
                  exists k : nat,
                    (k <= List.length (drawTriangles d :: cs))%nat
                    /\ (nc = 0 -> drawTriangles d :: cs <> [] -> (1 <= k)%nat)
                    /\ scanChunk cs (nv + numVertices d) (ne + c_nindices d) (nc + 1)
                       = Ret (nv + len (flat_map cmdVertices
                                          (firstn k (drawTriangles d :: cs))),
                              ne + sumZ (map cmdNumIndices
                                           (firstn k (drawTriangles d :: cs))),
                              nc + Z.of_nat k)
                    /\ nv + len (flat_map cmdVertices (firstn k (drawTriangles d :: cs)))
                       <= maxVertexFloats
                    /\ ne + sumZ (map cmdNumIndices (firstn k (drawTriangles d :: cs)))
                       <= IndicesCount).
    { intros [Hv Hi]. pose proof (len_nonneg (c_vertices d)) as Hlv.
      unfold numVertices in *.
      destruct (IH (nv + len (c_vertices d)) (ne + c_nindices d) (nc + 1) Hcs')
        as (k & Hk & _ & E & Bv & Bi); try lia.
      exists (S k). cbn [firstn flat_map map cmdVertices cmdNumIndices List.length].
      rewrite len_app. unfold sumZ in *. cbn [fold_right].
      rewrite Nat2Z.inj_succ.
      split; [lia|]. split; [intros; lia|].
      split; [rewrite E; f_equal; f_equal; [f_equal; lia | lia]|]. split; lia. }
    destruct (Z.gtb_spec nc 0) as [Hpos|Hz]; cbn [andb].
    + destruct (mustUseDifferentVertexBuffer (nv + numVertices d) (ne + c_nindices d))
        eqn:Em.
      * exists 0%nat. unfold len, sumZ.
        cbn [firstn flat_map map List.length fold_right Z.of_nat].
        rewrite !Z.add_0_r.
        split; [lia|]. split; [intros; lia|]. split; [reflexivity|]. lia.
      * apply Hgo. apply mustUseDifferentVertexBuffer_false in Em. exact Em.
    + apply Hgo. destruct Hzero as [-> ->]; [lia|]. unfold maxVertexFloats in *. lia.
Qed.

Lemma sumZ_indices_positive (cs : list command) :
  Forall drawCmdWithin cs -> cs <> [] -> 1 <= sumZ (map cmdNumIndices cs).
Proof.
  intros H Hne. destruct H as [|c cs (d & -> & Hd & _) Hcs]; [congruence|].
  apply sumZ_indices_nonneg in Hcs.
  cbn [map cmdNumIndices]. unfold sumZ in *. cbn [fold_right]. lia.
Qed.

(** With a driver that never fails, the chunk loop uploads the vertex array
    and the index array piece by piece, every piece within the capacity of
    one upload, and returns no error. *)
Lemma flushChunks_uploads (drv : driver) (fuel : nat) :
  neverFails drv ->
  forall (cs : list command) (vs : list float32) (es : list Z) (tr : trace),
    (List.length cs <= fuel)%nat ->
    Forall drawCmdWithin cs ->
    vs = flat_map cmdVertices cs ->
    len es = sumZ (map cmdNumIndices cs) ->
    exists calls,
      flushChunks fuel drv cs vs es tr = (Ret None, tr ++ calls)
      /\ Forall bodyCall calls
      /\ List.concat (map fst (uploads calls)) = vs
      /\ List.concat (map snd (uploads calls)) = es
      /\ Forall (fun u => len (fst u) <= maxVertexFloats
                          /\ len (snd u) <= IndicesCount) (uploads calls).
Proof.
  intros Hdrv.
  induction fuel as [|fuel IH]; intros cs vs es tr Hfuel Hcs Hvs Hes.
  - destruct cs; [|simpl in Hfuel; lia].
    exists []. cbn [flushChunks uploads flat_map map List.concat]. rewrite app_nil_r.
    cbn in Hes. apply len_zero_nil in Hes. subst.
    repeat split; auto.
  - destruct cs as [|c0 cs0].
    { exists []. cbn [flushChunks uploads flat_map map List.concat]. rewrite app_nil_r.
      cbn in Hes. apply len_zero_nil in Hes. subst. repeat split; auto. }
    cbn [flushChunks]. set (cs := c0 :: cs0) in *.
    assert (Hcap : 0 <= 0 <= maxVertexFloats /\ 0 <= 0 <= IndicesCount)
      by (vm_compute; repeat split; discriminate).
    destruct (scanChunk_spec cs 0 0 0 Hcs (Z.le_refl 0) (proj1 Hcap) (proj2 Hcap)
                (fun _ => conj eq_refl eq_refl))
      as (k & Hk & Hk1 & Escan & Bv & Bi).
    specialize (Hk1 eq_refl). assert (Hk1' : (1 <= k)%nat) by (apply Hk1; discriminate).
    rewrite Escan. rewrite !Z.add_0_l in *. rewrite Nat2Z.id.
    set (chunk := firstn k cs) in *. set (rest := skipn k cs).
    assert (Hsplit : cs = chunk ++ rest) by (symmetry; apply firstn_skipn).
    assert (Hchunk : Forall drawCmdWithin chunk /\ Forall drawCmdWithin rest).
    { rewrite Hsplit in Hcs. apply Forall_app in Hcs. exact Hcs. }
    destruct Hchunk as [Hc1 Hc2].
    assert (Hne : 1 <= sumZ (map cmdNumIndices chunk)).
    { apply sumZ_indices_positive; [exact Hc1|].
      unfold chunk. destruct k; [lia|]. discriminate. }
    pose proof (sumZ_indices_nonneg rest Hc2) as Hrest.
    assert (Hes' : len es = sumZ (map cmdNumIndices chunk) + sumZ (map cmdNumIndices rest)).
    { rewrite Hes, Hsplit, map_app, sumZ_app. reflexivity. }
    assert (Hvs' : vs = flat_map cmdVertices chunk ++ flat_map cmdVertices rest).
    { rewrite Hvs, Hsplit, flat_map_app. reflexivity. }
    destruct (Z.ltb_spec 0 (sumZ (map cmdNumIndices chunk))); [|lia].
    pose proof (len_nonneg (flat_map cmdVertices rest)) as Hlr.
    destruct (Z.leb_spec (len (flat_map cmdVertices chunk)) (len vs));
      [|rewrite Hvs', len_app in *; lia].
    destruct (Z.leb_spec (sumZ (map cmdNumIndices chunk)) (len es)); [|lia].
    cbn [andb invoke]. rewrite Hdrv.
    set (up := SetVertices _ _).
    destruct (execChunk_calls drv chunk 0 (tr ++ [up])) as (calls1 & Htr1 & Hr1 & Hb1 & Hs1).
    rewrite firstError_neverFails in Hr1 by exact Hdrv.
    destruct (execChunk drv chunk 0 (tr ++ [up])) as [r1 tr1].
    cbn [fst snd] in Htr1, Hr1. subst r1 tr1.
    destruct (IH rest (skipn (Z.to_nat (len (flat_map cmdVertices chunk))) vs)
                (skipn (Z.to_nat (sumZ (map cmdNumIndices chunk))) es)
                ((tr ++ [up]) ++ calls1))
      as (calls2 & E2 & Hb2 & Hv2 & He2 & Hw2).
    + unfold rest. rewrite length_skipn. lia.
    + exact Hc2.
    + rewrite Hvs'. apply skipn_len_app.
    + rewrite len_skipn by lia. lia.
    + rewrite E2. exists (up :: calls1 ++ calls2).
      split; [rewrite <- !app_assoc; reflexivity|].
      split; [constructor; [reflexivity|]; apply Forall_app; auto|].
      assert (Hup : uploads (up :: calls1 ++ calls2)
                    = (firstn (Z.to_nat (len (flat_map cmdVertices chunk))) vs,
                       firstn (Z.to_nat (sumZ (map cmdNumIndices chunk))) es)
                      :: uploads calls2).
      { unfold uploads at 1. cbn [flat_map up]. fold (uploads (calls1 ++ calls2)).
        rewrite uploads_app, (uploads_none calls1 Hs1). reflexivity. }
      rewrite Hup. cbn [map List.concat fst snd]. rewrite Hv2, He2.
      split; [apply firstn_skipn|]. split; [apply firstn_skipn|].
      constructor; [|exact Hw2]. cbn [fst snd].
      rewrite Hvs' at 1. rewrite firstn_len_app.
      rewrite len_firstn by lia. lia.
Qed.

(** One call of [allocFloat32s] in the goal, named by what it returns. *)
Ltac step_alloc :=
  match goal with
  | |- context [allocFloat32s ?q ?n] =>
      destruct (allocFloat32s q n) as [[? ?] ?]; cbv beta iota
  end.

Section QueueFacts.

Variable InternalSize : Image -> Z * Z.
Variable FilterUniformVariables : Shader -> list (list float32) -> list (list float32).

(** What enqueueing a draw does to a queue that satisfies the invariant: it
    returns, the vertices are appended, the indices are appended rebased by
    the vertex count of the chunk, and the draw is a command of its own or is
    merged into the last one. *)
Lemma EnqueueDrawTrianglesCommand_spec (q : commandQueue) (dst : Image)
    (srcs : Srcs) (offsets : Offsets) (vs : list float32) (es : list Z)
    (blend : Blend) (dstRegion srcRegion : Region) (shader : Shader)
    (uniforms : list (list float32)) (evenOdd : bool) :
  queueInv q -> len es <= IndicesCount ->
  let split :=
    mustUseDifferentVertexBuffer (tmpNumVertexFloats q + len vs)
      (tmpNumIndices q + len es) in
  let tmpV := if split then 0 else tmpNumVertexFloats q in
  let tmpI := if split then 0 else tmpNumIndices q in
  exists q',
    EnqueueDrawTrianglesCommand InternalSize FilterUniformVariables q dst srcs
      offsets vs es blend dstRegion srcRegion shader uniforms evenOdd = Ret q'
    /\ vertices q' = vertices q ++ vs
    /\ indices q' = appendIndices (indices q) es (uint16 (tmpV / VertexFloatCount))
    /\ tmpNumVertexFloats q' = tmpV + len vs
    /\ tmpNumIndices q' = tmpI + len es
    /\ len (pool q') <= len (pool q)
    /\ ((exists c, commands q' = commands q ++ [drawTriangles c]
                   /\ c_vertices c = vs /\ c_nindices c = len es)
        \/ (split = false
            /\ exists cs last last',
                 commands q = cs ++ [drawTriangles last]
                 /\ commands q' = cs ++ [drawTriangles last']
                 /\ c_vertices last' = c_vertices last ++ vs
                 /\ c_nindices last' = c_nindices last + len es)).
Proof.
  intros Hinv Hes split tmpV tmpI.
  unfold EnqueueDrawTrianglesCommand.
  destruct (Z.gtb_spec (len es) IndicesCount) as [Hgt|_]; [lia|].
  destruct (prependPreservedUniforms InternalSize q uniforms dst srcs offsets
              dstRegion srcRegion) as [u q1].
  cbv zeta. fold split. fold tmpV. fold tmpI.
  rewrite lastVertices_app.
  set (fresh := Ret {| commands := commands q ++ [drawTriangles _] |}).
  assert (Hfresh : exists q',
             fresh = Ret q'
             /\ vertices q' = vertices q ++ vs
             /\ indices q' = appendIndices (indices q) es (uint16 (tmpV / VertexFloatCount))
             /\ tmpNumVertexFloats q' = tmpV + len vs
             /\ tmpNumIndices q' = tmpI + len es
             /\ len (pool q') <= len (pool q)
             /\ ((exists c, commands q' = commands q ++ [drawTriangles c]
                            /\ c_vertices c = vs /\ c_nindices c = len es)
                 \/ (split = false
                     /\ exists cs last last',
                          commands q = cs ++ [drawTriangles last]
                          /\ commands q' = cs ++ [drawTriangles last']
                          /\ c_vertices last' = c_vertices last ++ vs
                          /\ c_nindices last' = c_nindices last + len es))).
  { eexists. split; [reflexivity|]. cbn [vertices indices tmpNumVertexFloats tmpNumIndices pool commands].
    do 4 (split; [reflexivity|]). split; [apply pool_get_len|].
    left. eexists. split; [reflexivity|]. split; reflexivity. }
  destruct split eqn:Hsplit; cbn [negb andb]; [exact Hfresh|].
  destruct (0 <? len (commands q)); [|exact Hfresh].
  destruct (unsnoc (commands q)) as [[cs [last| | | | | | |]]|] eqn:Eun; try exact Hfresh.
  destruct (CanMergeWithDrawTrianglesCommand last dst srcs vs blend dstRegion
              shader (FilterUniformVariables shader u) evenOdd); [|exact Hfresh].
  apply unsnoc_Some in Eun.
  destruct Hinv as (Hv & _).
  assert (Hlast : lastVertices (vertices q ++ vs) (len vs + numVertices last)
                  = Some (c_vertices last ++ vs)).
  { rewrite Hv, Eun, flat_map_app. cbn [flat_map cmdVertices]. rewrite app_nil_r.
    rewrite <- app_assoc. unfold numVertices.
    replace (len vs + len (c_vertices last)) with (len (c_vertices last ++ vs))
      by (rewrite len_app; lia).
    apply lastVertices_app. }
  rewrite Hlast. eexists. split; [reflexivity|].
  cbn [vertices indices tmpNumVertexFloats tmpNumIndices pool commands].
  do 4 (split; [reflexivity|]). split; [lia|].
  right. split; [reflexivity|]. exists cs, last. eexists.
  split; [exact Eun|]. split; [reflexivity|]. split; reflexivity.
Qed.

(** ** Preserved uniform variables *)

Lemma copy_shift {A : Type} (u pad : list A) :
  copy (skipn (List.length pad) (u ++ pad)) (u ++ pad) = u.
Proof.
  unfold copy. rewrite length_skipn, length_app.
  replace (List.length u + List.length pad - List.length pad)%nat
    with (List.length u + 0)%nat by lia.
  rewrite firstn_app_2, firstn_O, app_nil_r.
  rewrite skipn_all2; [apply app_nil_r|].
  rewrite length_skipn, length_app. lia.
Qed.

Lemma copy_shift_repeat {A : Type} (u : list A) (x : A) (n : nat) :
  copy (skipn n (u ++ repeat x n)) (u ++ repeat x n) = u.
Proof.
  pose proof (copy_shift u (repeat x n)) as H.
  rewrite repeat_length in H. exact H.
Qed.

Lemma eight_elements {A : Type} (l : list A) :
  List.length l = 8%nat ->
  exists a0 a1 a2 a3 a4 a5 a6 a7, l = [a0; a1; a2; a3; a4; a5; a6; a7].
Proof.
  intros H.
  do 8 (destruct l as [|? l]; [discriminate|]).
  destruct l; [|discriminate]. do 8 eexists. reflexivity.
Qed.

(** The uniform list built before filtering: the 8 preserved entries, at the
    indices 0 to 7, and then the caller's uniforms in their order.  The entry
    at index 1 is a slice of the scratch buffer, as it was, with the sizes of
    the sources that are not nil written over it. *)
Lemma prependPreservedUniforms_layout (q : commandQueue)
    (uniforms : list (list float32)) (dst : Image) (srcs : Srcs)
    (offsets : Offsets) (dstRegion srcRegion : Region) :
  exists b0 b1 b2 b3 b4 b5 b6 b7,
    fst (prependPreservedUniforms InternalSize q uniforms dst srcs offsets
           dstRegion srcRegion)
    = [b0; b1; b2; b3; b4; b5; b6; b7] ++ uniforms
    /\ exists s, b1 = setSourceSizes InternalSize (srcs_list srcs) s.
Proof.
  unfold prependPreservedUniforms. cbv beta iota zeta.
  destruct (eight_elements
              (firstn (Z.to_nat PreservedUniformVariablesCount)
                 (uniforms ++ repeat [] (Z.to_nat PreservedUniformVariablesCount))))
    as (a0 & a1 & a2 & a3 & a4 & a5 & a6 & a7 & Ha).
  { rewrite length_firstn, length_app, repeat_length.
    change (Z.to_nat PreservedUniformVariablesCount) with 8%nat. lia. }
  rewrite Ha, copy_shift_repeat.
  destruct (InternalSize dst) as [dw dh].
  destruct srcs as [[[s0 s1] s2] s3]. cbn [fst].
  destruct s0 as [i|]; [destruct (InternalSize i) as [w h]|];
    repeat step_alloc;
    unfold setIndex, TextureDestinationSizeUniformVariableIndex,
      TextureSourceSizesUniformVariableIndex,
      TextureDestinationRegionOriginUniformVariableIndex,
      TextureDestinationRegionSizeUniformVariableIndex,
      TextureSourceOffsetsUniformVariableIndex,
      TextureSourceRegionOriginUniformVariableIndex,
      TextureSourceRegionSizeUniformVariableIndex,
      ProjectionMatrixUniformVariableIndex;
    cbn [Z.to_nat Pos.to_nat Pos.iter_op Nat.add firstn skipn app fst];
    do 8 eexists; (split; [reflexivity|]); eexists; reflexivity.
Qed.

(** C3: enqueueing a draw panics with the index-count message exactly when
    the draw has more indices than the ceiling, which is 65535, the largest
    multiple of 3 that 2^16 holds; the call gives a queue or a panic, never
    an error value. *)
Theorem EnqueueDrawTrianglesCommand_panics_iff (q : commandQueue) (dst : Image)
    (srcs : Srcs) (offsets : Offsets) (vs : list float32) (es : list Z)
    (blend : Blend) (dstRegion srcRegion : Region) (shader : Shader)
    (uniforms : list (list float32)) (evenOdd : bool) :
  (EnqueueDrawTrianglesCommand InternalSize FilterUniformVariables q dst srcs
     offsets vs es blend dstRegion srcRegion shader uniforms evenOdd
   = Panic enqueuePanic
   <-> IndicesCount < len es)
  /\ IndicesCount = 65535
  /\ IndicesCount mod 3 = 0
  /\ IndicesCount <= 2 ^ 16 < IndicesCount + 3.
Proof.
  split; [|repeat split; vm_compute; congruence].
  unfold EnqueueDrawTrianglesCommand.
  destruct (Z.gtb_spec (len es) IndicesCount) as [Hgt|Hle].
  - split; [intros _; lia | reflexivity].
  - split; [|lia]. intros E. exfalso. revert E.
    destruct (prependPreservedUniforms InternalSize q uniforms dst srcs offsets
                dstRegion srcRegion) as [u q1].
    cbv zeta.
    assert (Hne : boundsPanic <> enqueuePanic) by (vm_compute; discriminate).
    destruct (lastVertices (vertices q ++ vs) (len vs)).
    2:{ repeat match goal with
               | |- context [if ?b then _ else _] => destruct b
               | |- context [match ?x with _ => _ end] => destruct x
               end; intros E; first [discriminate E | injection E as E; exact (Hne E)]. }
    repeat match goal with
           | |- context [if ?b then _ else _] => destruct b
           | |- context [match unsnoc ?x with _ => _ end] => destruct (unsnoc x) as [[? [ | | | | | | | ]]|]
           | |- context [match lastVertices ?x ?y with _ => _ end] => destruct (lastVertices x y)
           end; intros E; first [discriminate E | injection E as E; exact (Hne E)].
Qed.

(** ** Reachable queues satisfy the invariant *)

Lemma EnqueueDrawTrianglesCommand_queueInv (q : commandQueue) (dst : Image)
    (srcs : Srcs) (offsets : Offsets) (vs : list float32) (es : list Z)
    (blend : Blend) (dstRegion srcRegion : Region) (shader : Shader)
    (uniforms : list (list float32)) (evenOdd : bool) (q' : commandQueue) :
  queueInv q ->
  EnqueueDrawTrianglesCommand InternalSize FilterUniformVariables q dst srcs
    offsets vs es blend dstRegion srcRegion shader uniforms evenOdd = Ret q' ->
  queueInv q'.
Proof.
  intros Hinv E.
  destruct (Z.ltb_spec IndicesCount (len es)) as [Hgt|Hle].
  { apply (EnqueueDrawTrianglesCommand_panics_iff q dst srcs offsets vs es blend
             dstRegion srcRegion shader uniforms evenOdd) in Hgt.
    rewrite Hgt in E. discriminate. }
  destruct (EnqueueDrawTrianglesCommand_spec q dst srcs offsets vs es blend
              dstRegion srcRegion shader uniforms evenOdd Hinv Hle)
    as (q2 & E2 & Hv & Hi & HtV & HtI & Hp & Hcs).
  rewrite E in E2. injection E2 as <-.
  destruct Hinv as (Iv & Ii & If & Ip & ItV & ItI & Ilast & Iempty).
  pose proof (len_nonneg vs) as Hvs. pose proof (len_nonneg es) as Hes.
  set (split := mustUseDifferentVertexBuffer (tmpNumVertexFloats q + len vs)
                  (tmpNumIndices q + len es)) in *.
  assert (HI : 0 <= tmpNumIndices q' <= IndicesCount).
  { rewrite HtI. destruct split eqn:Hs; [lia|].
    apply mustUseDifferentVertexBuffer_false in Hs. lia. }
  assert (HV : 0 <= tmpNumVertexFloats q').
  { rewrite HtV. destruct split; lia. }
  assert (Hlen : len (indices q') = len (indices q) + len es).
  { rewrite Hi. unfold appendIndices. rewrite len_app, len_map. reflexivity. }
  destruct Hcs as [(c & Hc & Hcv & Hcn)|(Hs & cs & last & last' & Hq & Hq' & Hlv & Hln)].
  - unfold queueInv. rewrite Hc.
    split; [rewrite Hv, Iv, flat_map_app; cbn [flat_map cmdVertices];
            rewrite Hcv, app_nil_r; reflexivity|].
    split; [rewrite Hlen, Ii, map_app, sumZ_app; cbn [map sumZ fold_right cmdNumIndices]; lia|].
    split; [apply Forall_app; split; [exact If|];
            constructor; [cbn [cmdNumIndices]; lia|constructor]|].
    split; [lia|]. split; [exact HV|]. split; [exact HI|].
    split.
    + intros cs0 last0 E0. apply app_inj_tail in E0. destruct E0 as [_ E0].
      injection E0 as <-. unfold numVertices. rewrite Hcn, Hcv, HtV, HtI.
      destruct split; lia.
    + intros E0. destruct (commands q); discriminate.
  - rewrite Hs in *.
    assert (Hl : c_nindices last <= tmpNumIndices q
                 /\ numVertices last <= tmpNumVertexFloats q) by (apply (Ilast cs); exact Hq).
    rewrite Hq in *. apply Forall_app in If. destruct If as [If1 If2].
    inversion If2 as [|? ? Hlast0 _]; subst. cbn [cmdNumIndices] in Hlast0.
    unfold queueInv. rewrite Hq'.
    split; [rewrite Hv, Iv, !flat_map_app; cbn [flat_map cmdVertices];
            rewrite Hlv, !app_nil_r, app_assoc; reflexivity|].
    split; [rewrite Hlen, Ii, !map_app, !sumZ_app;
            cbn [map sumZ fold_right cmdNumIndices]; lia|].
    split; [apply Forall_app; split; [exact If1|];
            constructor; [cbn [cmdNumIndices]; lia|constructor]|].
    split; [lia|]. split; [exact HV|]. split; [exact HI|].
    split.
    + intros cs0 last0 E0. apply app_inj_tail in E0. destruct E0 as [_ E0].
      injection E0 as <-. unfold numVertices in *. rewrite Hln, Hlv, len_app, HtV, HtI. lia.
    + intros E0. destruct cs; discriminate.
Qed.

Lemma Enqueue_queueInv (q : commandQueue) (c : command) :
  queueInv q -> isDraw c = false -> queueInv (Enqueue q c).
Proof.
  intros (Iv & Ii & If & Ip & ItV & ItI & Ilast & Iempty) Hc.
  assert (Hcv : cmdVertices c = [] /\ cmdNumIndices c = 0)
    by (destruct c; try discriminate; auto).
  destruct Hcv as [Hcv Hcn].
  unfold queueInv, Enqueue.
  cbn [commands vertices indices pool tmpNumVertexFloats tmpNumIndices].
  split; [rewrite flat_map_app; cbn [flat_map]; rewrite Hcv, !app_nil_r; exact Iv|].
  split; [rewrite map_app, sumZ_app; cbn [map sumZ fold_right]; lia|].
  split; [apply Forall_app; split; [exact If|]; constructor; [|constructor];
          rewrite Hcn; vm_compute; split; discriminate|].
  split; [exact Ip|]. split; [exact ItV|]. split; [exact ItI|].
  split.
  - intros cs last E. apply app_inj_tail in E. destruct E as [_ E].
    subst c. discriminate.
  - intros E. destruct (commands q); discriminate.
Qed.

Lemma queueInv_float32sBuffer (q : commandQueue) (b : float32s) :
  queueInv q -> queueInv (setFloat32sBuffer q b).
Proof. intros H. exact H. Qed.

Lemma flush_queueInv (drv : driver) (q : commandQueue) (endFrame : bool)
    (tr : trace) (r : outcome (option error)) (q' : commandQueue) (tr' : trace) :
  queueInv q -> flush drv q endFrame tr = (r, q', tr') -> queueInv q'.
Proof.
  intros Hinv E. unfold flush in E.
  destruct ((len (commands q) =? 0) && negb endFrame).
  { injection E as <- <- <-. exact Hinv. }
  destruct (invoke drv tr Begin) as [[err|] tr1].
  { injection E as <- <- <-. exact Hinv. }
  destruct (flushChunks _ _ _ _ _ _) as [rb tr2].
  destruct (invoke drv tr2 (End endFrame)) as [err1 tr3].
  injection E as <- <- <-.
  destruct Hinv as (_ & _ & _ & Ip & _).
  unfold queueInv. cbn [commands vertices indices pool tmpNumVertexFloats tmpNumIndices].
  split; [reflexivity|]. split; [reflexivity|]. split; [constructor|].
  split; [apply release_len; exact Ip|].
  split; [lia|]. split; [vm_compute; split; discriminate|].
  split; [intros cs last E; destruct cs; discriminate|auto].
Qed.

Lemma Flush_queueInv (drv : driver) (q : commandQueue) (endFrame : bool)
    (tr : trace) (r : outcome (option error)) (q' : commandQueue) (tr' : trace) :
  queueInv q -> Flush drv q endFrame tr = (r, q', tr') -> queueInv q'.
Proof.
  intros Hinv E. unfold Flush in E.
  destruct (flush drv q endFrame tr) as [[r1 q1] tr1] eqn:Ef.
  apply (flush_queueInv _ _ _ _ _ _ _ Hinv) in Ef.
  destruct r1; destruct endFrame; injection E as <- <- <-; exact Ef.
Qed.

Lemma theCommandQueue_queueInv : queueInv theCommandQueue.
Proof.
  unfold queueInv, theCommandQueue.
  cbn [commands vertices indices pool tmpNumVertexFloats tmpNumIndices].
  split; [reflexivity|]. split; [reflexivity|]. split; [constructor|].
  split; [vm_compute; discriminate|]. split; [lia|].
  split; [vm_compute; split; discriminate|].
  split; [intros cs last E; destruct cs; discriminate|auto].
Qed.

Lemma reachable_queueInv (q : commandQueue) :
  reachable InternalSize FilterUniformVariables q -> queueInv q.
Proof.
  induction 1 as [|q c _ IH Hc|q dst srcs offsets vs es blend dR sR sh us eo q' _ IH E
                  |q drv endFrame tr r q' tr' _ IH E].
  - exact theCommandQueue_queueInv.
  - apply Enqueue_queueInv; assumption.
  - eapply EnqueueDrawTrianglesCommand_queueInv; eassumption.
  - eapply Flush_queueInv; eassumption.
Qed.

(** ** Flushing: the queue afterwards *)

(** C4, as the code has it: after a [Flush] of a reachable queue the pool
    holds at most 1024 entries; when the flush did nothing (an empty queue,
    not the end of a frame) or its [Begin] succeeded, the command list, the
    vertex array and the index array have length zero, whatever the later
    calls answered; when [Begin] failed, its error is returned and the three
    are left as they were. *)
Theorem Flush_empties_queue (q : commandQueue) (drv : driver) (endFrame : bool)
    (tr : trace) (r : outcome (option error)) (q' : commandQueue) (tr' : trace) :
  reachable InternalSize FilterUniformVariables q ->
  Flush drv q endFrame tr = (r, q', tr') ->
  len (pool q') <= 1024
  /\ ((len (commands q) = 0 /\ endFrame = false) \/ answer drv tr Begin = None ->
      len (commands q') = 0 /\ len (vertices q') = 0 /\ len (indices q') = 0)
  /\ (~ (len (commands q) = 0 /\ endFrame = false) ->
      forall err, answer drv tr Begin = Some err ->
        r = Ret (Some err) /\ commands q' = commands q
        /\ vertices q' = vertices q /\ indices q' = indices q).
Proof.
  intros Hreach E. apply reachable_queueInv in Hreach.
  pose proof (Flush_queueInv _ _ _ _ _ _ _ Hreach E) as Hinv'.
  split; [apply Hinv'|].
  destruct Hreach as (Iv & Ii & _ & _ & _ & _ & _ & _).
  unfold Flush, flush in E.
  destruct ((len (commands q) =? 0) && negb endFrame) eqn:Hcond.
  - apply andb_true_iff in Hcond. destruct Hcond as [H1 H2].
    apply Z.eqb_eq in H1. destruct endFrame; [discriminate|].
    injection E as <- <- <-.
    assert (Hnil : commands q = []) by (apply len_zero_nil; exact H1).
    split.
    + intros _. split; [exact H1|].
      rewrite Iv, Ii, Hnil. split; reflexivity.
    + intros Hn. exfalso. apply Hn. auto.
  - assert (Hnot : ~ (len (commands q) = 0 /\ endFrame = false)).
    { intros [H1 H2]. rewrite H1, H2 in Hcond. discriminate. }
    cbn [invoke] in E.
    destruct (answer drv tr Begin) as [err|] eqn:Eb.
    + assert (Eq : commands q' = commands q /\ vertices q' = vertices q
                   /\ indices q' = indices q /\ r = Ret (Some err)).
      { destruct endFrame; injection E as <- <- <-; auto. }
      destruct Eq as (E1 & E2 & E3 & E4).
      split.
      * intros [H|H]; [contradiction|discriminate].
      * intros _ err' He. injection He as <-. auto.
    + destruct (flushChunks _ _ _ _ _ _) as [rb tr2].
      assert (Eq : commands q' = [] /\ vertices q' = [] /\ indices q' = []).
      { destruct rb as [[e|]| |]; [| destruct (answer drv tr2 (End endFrame)) | |];
          destruct endFrame; injection E as <- <- <-; auto. }
      destruct Eq as (-> & -> & ->).
      split; [intros _; auto|]. intros _ err He. discriminate.
Qed.

(** ** Chunked uploads of a sequence of draws *)

(** Enqueueing draws that are within a chunk: the queue holds draws within a
    chunk, the vertices in order and the indices rebased. *)
Lemma enqueueDraws_spec (ds : list draw) :
  forall q : commandQueue,
    queueInv q -> Forall drawCmdWithin (commands q) ->
    Forall drawWithinChunk ds ->
    exists q',
      enqueueDraws InternalSize FilterUniformVariables q ds = Ret q'
      /\ queueInv q'
      /\ Forall drawCmdWithin (commands q')
      /\ vertices q' = vertices q ++ List.concat (map d_vertices ds)
      /\ indices q'
         = indices q ++ rebasedIndices (tmpNumVertexFloats q) (tmpNumIndices q) ds.
Proof.
  induction ds as [|d ds IH]; intros q Hinv Hcmds Hds.
  - exists q. cbn [enqueueDraws map List.concat rebasedIndices].
    rewrite !app_nil_r. auto.
  - inversion Hds as [|? ? Hd Hds']; subst.
    destruct Hd as ((Hd1 & Hd2) & Hdv & Hrange).
    cbn [enqueueDraws]. unfold enqueueDraw.
    destruct (EnqueueDrawTrianglesCommand_spec q (d_dst d) (d_srcs d) (d_offsets d)
                (d_vertices d) (d_indices d) (d_blend d) (d_dstRegion d)
                (d_srcRegion d) (d_shader d) (d_uniforms d) (d_evenOdd d) Hinv Hd2)
      as (q1 & E & Hv & Hi & HtV & HtI & _ & Hshape).
    pose proof (EnqueueDrawTrianglesCommand_queueInv _ _ _ _ _ _ _ _ _ _ _ _ _ Hinv E)
      as Hinv1.
    rewrite E.
    assert (Hcmds1 : Forall drawCmdWithin (commands q1)).
    { destruct Hshape as [(c & Hc & Hcv & Hcn)|(Hs & cs & last & last' & Hq & Hq' & Hlv & Hln)].
      - rewrite Hc. apply Forall_app. split; [exact Hcmds|].
        constructor; [|constructor]. exists c. unfold numVertices.
        rewrite Hcv, Hcn. auto.
      - rewrite Hq'. rewrite Hq in Hcmds. apply Forall_app in Hcmds.
        destruct Hcmds as [Hcs Hlast].
        apply Forall_app. split; [exact Hcs|]. constructor; [|constructor].
        inversion Hlast as [|? ? (l0 & El & Hl1 & Hl2) _]; subst.
        injection El as <-.
        exists last'. split; [reflexivity|].
        destruct Hinv1 as (_ & _ & Hf & _). rewrite Hq' in Hf.
        apply Forall_app in Hf. destruct Hf as [_ Hf].
        inversion Hf as [|? ? Hf1 _]; subst. cbn [cmdNumIndices] in Hf1.
        split; [lia|].
        destruct Hinv as (_ & _ & _ & _ & _ & _ & Ilast & _).
        destruct (Ilast cs last Hq) as [_ Hlastv].
        apply mustUseDifferentVertexBuffer_false in Hs.
        unfold numVertices in *. rewrite Hlv, len_app.
        unfold maxVertexFloats. lia. }
    destruct (IH q1 Hinv1 Hcmds1 Hds') as (q' & E' & Hinv' & Hcmds' & Hv' & Hi').
    exists q'. split; [exact E'|]. split; [exact Hinv'|]. split; [exact Hcmds'|].
    cbn [map List.concat rebasedIndices].
    rewrite Hv', Hi', Hv, Hi, HtV, HtI. unfold appendIndices.
    rewrite <- !app_assoc. split; reflexivity.
Qed.

(** C2, as the code has it.  Draws with at least one index, no more indices
    than the ceiling and no more vertex floats than one upload holds are
    enqueued on an idle queue, and their vertex floats or their indices add
    up to more than one upload holds.  Then a [Flush] on a driver that does
    not fail returns no error and makes at least two [SetVertices] calls,
    each within the capacity; the index buffers uploaded, put end to end and
    with the offset of each draw subtracted, are the indices the callers
    submitted, and the vertex buffers uploaded are their vertices. *)
Theorem Flush_uploads_chunks (q0 : commandQueue) (ds : list draw) (drv : driver)
    (endFrame : bool) (tr : trace) :
  reachable InternalSize FilterUniformVariables q0 -> commands q0 = [] ->
  Forall drawWithinChunk ds ->
  maxVertexFloats < sumZ (map (fun d => len (d_vertices d)) ds)
  \/ IndicesCount < sumZ (map (fun d => len (d_indices d)) ds) ->
  neverFails drv ->
  exists q q' calls,
    enqueueDraws InternalSize FilterUniformVariables q0 ds = Ret q
    /\ Flush drv q endFrame tr = (Ret None, q', tr ++ calls)
    /\ 2 <= len (uploads calls)
    /\ Forall (fun u => len (fst u) <= maxVertexFloats
                        /\ len (snd u) <= IndicesCount) (uploads calls)
    /\ undoRebase (rebaseOffsets 0 0 ds) (map (fun d => len (d_indices d)) ds)
         (List.concat (map snd (uploads calls)))
       = map d_indices ds
    /\ List.concat (map fst (uploads calls)) = List.concat (map d_vertices ds).
Proof.
  intros Hreach Hidle Hds Hover Hdrv.
  apply reachable_queueInv in Hreach.
  assert (H0 : vertices q0 = [] /\ indices q0 = []
               /\ tmpNumVertexFloats q0 = 0 /\ tmpNumIndices q0 = 0).
  { destruct Hreach as (Iv & Ii & _ & _ & _ & _ & _ & Ie).
    rewrite Hidle in Iv, Ii. destruct (Ie Hidle) as [-> ->].
    split; [exact Iv|]. split; [apply len_zero_nil; exact Ii|auto]. }
  destruct H0 as (Hv0 & Hi0 & HtV0 & HtI0).
  destruct (enqueueDraws_spec ds q0 Hreach) as (q & E & Hinv & Hcmds & Hv & Hi).
  { rewrite Hidle. constructor. }
  { exact Hds. }
  rewrite Hv0, Hi0, HtV0, HtI0 in *. cbn [app] in Hv, Hi.
  destruct Hinv as (Iv & Ii & _).
  destruct (flushChunks_uploads drv (List.length (commands q)) Hdrv (commands q)
              (vertices q) (indices q) (tr ++ [Begin]) (le_n _) Hcmds Iv Ii)
    as (calls & Ef & Hb & Hcv & Hce & Hw).
  assert (Htot : len (vertices q) = sumZ (map (fun d => len (d_vertices d)) ds)
                 /\ len (indices q) = sumZ (map (fun d => len (d_indices d)) ds)).
  { rewrite Hv, Hi. split; [apply len_concat_vertices|apply len_rebasedIndices]. }
  destruct Htot as [HtotV HtotI].
  assert (Hcmdne : commands q <> []).
  { intros Hnil. rewrite Hnil in Iv, Ii. rewrite Iv in HtotV. rewrite Ii in HtotI.
    cbn in HtotV, HtotI. unfold maxVertexFloats in Hover.
    assert (0 < IndicesCount * VertexFloatCount /\ 0 < IndicesCount)
      by (vm_compute; auto).
    lia. }
  assert (HF : exists q',
             Flush drv q endFrame tr
             = (Ret None, q', tr ++ Begin :: calls ++ [End endFrame])).
  { unfold Flush, flush.
    destruct (Z.eqb_spec (len (commands q)) 0) as [Hz|_];
      [apply len_zero_nil in Hz; contradiction|].
    cbn [andb invoke]. rewrite Hdrv, Ef. cbn [invoke]. rewrite Hdrv.
    destruct endFrame; cbv beta iota zeta; eexists;
      rewrite <- !app_assoc; cbn [app]; reflexivity. }
  destruct HF as [q' HF].
  exists q, q', (Begin :: calls ++ [End endFrame]).
  split; [exact E|]. split; [exact HF|].
  assert (Hup : uploads (Begin :: calls ++ [End endFrame]) = uploads calls).
  { unfold uploads at 1. cbn [flat_map app]. fold (uploads (calls ++ [End endFrame])).
    rewrite uploads_app. cbn. apply app_nil_r. }
  rewrite Hup.
  split.
  { destruct (uploads calls) as [|[v1 e1] [|u2 ups]].
    - cbn [map List.concat] in Hcv, Hce. rewrite <- Hcv in HtotV. rewrite <- Hce in HtotI.
      cbn in HtotV, HtotI. unfold maxVertexFloats in Hover.
      assert (0 < IndicesCount * VertexFloatCount /\ 0 < IndicesCount)
        by (vm_compute; auto).
      lia.
    - cbn [map List.concat fst snd] in Hcv, Hce. rewrite app_nil_r in Hcv, Hce.
      inversion Hw as [|? ? [Hw1 Hw2] _]; subst. cbn [fst snd] in *. lia.
    - rewrite !len_cons. pose proof (len_nonneg ups). lia. }
  split; [exact Hw|].
  rewrite Hce, Hcv, Hi, Hv.
  split; [apply undoRebase_rebasedIndices; exact Hds|reflexivity].
Qed.

End QueueFacts.

Lemma Flush_empties_queue_witness :
  exists q',
    Flush (fun _ k => match k with End _ => Some "swap failed"%string | _ => None end)
      (Enqueue theCommandQueue (disposeImage 1%positive)) true []
    = (Ret (Some "swap failed"%string), q', [Begin; DisposeImage 1%positive; End true])
    /\ len (commands q') = 0 /\ len (vertices q') = 0 /\ len (indices q') = 0
    /\ len (pool q') <= 1024.
Proof.
  eexists. split; [reflexivity|].
  destruct (Flush_empties_queue (fun _ => (16, 16)) (fun _ u => u)
              (Enqueue theCommandQueue (disposeImage 1%positive))
              (fun _ k => match k with End _ => Some "swap failed"%string | _ => None end)
              true [] _ _ _
              (reach_Enqueue _ _ _ (disposeImage 1%positive) (reach_init _ _) eq_refl)
              eq_refl) as (Hp & Hz & _).
  destruct (Hz (or_intror eq_refl)) as (H1 & H2 & H3). auto.
Defined.

(** A draw of one quad's vertices with the given indices. *)
Definition drawOf (vs : list float32) (es : list Z) : draw :=
  {| d_dst := 1%positive; d_srcs := (None, None, None, None);
     d_offsets := ((zero, zero), (zero, zero), (zero, zero));
     d_vertices := vs; d_indices := es;
     d_blend := Build_Blend 1 1 0 0 0 0;
     d_dstRegion := Build_Region zero zero (of_int 16) (of_int 16);
     d_srcRegion := Build_Region zero zero (of_int 16) (of_int 16);
     d_shader := 1%positive; d_uniforms := []; d_evenOdd := false |}.

Lemma Flush_uploads_chunks_witness :
  exists q q' calls,
    enqueueDraws (fun _ => (16, 16)) (fun _ u => u) theCommandQueue
      [drawOf (repeat zero 32) (repeat 3 (Z.to_nat 65535));
       drawOf (repeat zero 32) [0; 1; 2]] = Ret q
    /\ Flush (fun _ _ => None) q false [] = (Ret None, q', [] ++ calls)
    /\ 2 <= len (uploads calls)
    /\ Forall (fun u => len (fst u) <= maxVertexFloats
                        /\ len (snd u) <= IndicesCount) (uploads calls)
    /\ undoRebase
         (rebaseOffsets 0 0
            [drawOf (repeat zero 32) (repeat 3 (Z.to_nat 65535));
             drawOf (repeat zero 32) [0; 1; 2]])
         (map (fun d => len (d_indices d))
            [drawOf (repeat zero 32) (repeat 3 (Z.to_nat 65535));
             drawOf (repeat zero 32) [0; 1; 2]])
         (List.concat (map snd (uploads calls)))
       = map d_indices
           [drawOf (repeat zero 32) (repeat 3 (Z.to_nat 65535));
            drawOf (repeat zero 32) [0; 1; 2]]
    /\ List.concat (map fst (uploads calls))
       = List.concat
           (map d_vertices
              [drawOf (repeat zero 32) (repeat 3 (Z.to_nat 65535));
               drawOf (repeat zero 32) [0; 1; 2]]).
Proof.
  apply (Flush_uploads_chunks (fun _ => (16, 16)) (fun _ u => u) theCommandQueue
           [drawOf (repeat zero 32) (repeat 3 (Z.to_nat 65535));
            drawOf (repeat zero 32) [0; 1; 2]]
           (fun _ _ => None) false []).
  - apply reach_init.
  - reflexivity.
  - constructor; [|constructor; [|constructor]].
    + split; [vm_compute; split; discriminate|].
      split; [vm_compute; discriminate|].
      apply Forall_forall. intros e He. cbn [d_indices drawOf] in He.
      apply repeat_spec in He. subst e. lia.
    + split; [vm_compute; split; discriminate|].
      split; [vm_compute; discriminate|].
      cbn [d_indices drawOf]. repeat constructor; lia.
  - right. vm_compute. reflexivity.
  - intros t k. unfold answer. destruct (infallible k); reflexivity.
Defined.

(** C2 as stated fails for a draw that alone has more vertex floats than one
    upload holds: only the number of indices is checked when it is enqueued.
    The vertex floats add up to 524288, above the capacity of 524280, and the
    flush makes a single [SetVertices] call, with all 524288 of them. *)
Lemma Flush_oversized_draw_single_upload :
  maxVertexFloats
  < sumZ (map (fun d => len (d_vertices d))
            [drawOf (repeat zero (Z.to_nat 524288)) [0; 1; 2]])
  /\ match enqueueDraws (fun _ => (16, 16)) (fun _ u => u) theCommandQueue
             [drawOf (repeat zero (Z.to_nat 524288)) [0; 1; 2]] with
     | Ret q =>
         map (fun u => (len (fst u), len (snd u)))
           (uploads (snd (Flush (fun _ _ => None) q false [])))
         = [(524288, 3)]
     | _ => False
     end.
Proof.
  split; vm_compute; reflexivity.
Qed.

(** A chunk without indices is not uploaded either, and the vertex array is
    not advanced past it: a draw of 65535 vertices and no index, then a draw
    of one vertex and three indices, add up to more vertex floats than one
    upload holds, and the flush makes one [SetVertices] call, whose vertices
    are the first 8 floats of the first draw. *)
Lemma Flush_chunk_without_indices_single_upload :
  match enqueueDraws (fun _ => (16, 16)) (fun _ u => u) theCommandQueue
          [drawOf (repeat zero (Z.to_nat 524280)) [];
           drawOf (repeat (of_int 1) 8) [0; 0; 0]] with
  | Ret q =>
      uploads (snd (Flush (fun _ _ => None) q false []))
      = [(repeat zero 8, [0; 0; 0])]
  | _ => False
  end.
Proof.
  vm_compute. reflexivity.
Qed.

(** On the scratch buffer of a new queue, which [make] has filled with
    zeros, the floats of every source that is nil are zero. *)
Lemma prependPreservedUniforms_new_buffer_zero_filled
    (InternalSize : Image -> Z * Z) (uniforms : list (list float32)) (dst : Image)
    (srcs : Srcs) (offsets : Offsets) (dstRegion srcRegion : Region) (i : nat) :
  (i < 4)%nat -> nth i (srcs_list srcs) None = None ->
  let usizes :=
    nth 1 (fst (prependPreservedUniforms InternalSize theCommandQueue uniforms
                  dst srcs offsets dstRegion srcRegion)) [] in
  nth (2 * i) usizes (of_int 1) = zero /\ nth (2 * i + 1) usizes (of_int 1) = zero.
Proof.
  intros Hi Hnil usizes.
  assert (Eu : usizes
               = setSourceSizes InternalSize (srcs_list srcs) (repeat zero 8)).
  { unfold usizes, prependPreservedUniforms. cbv beta iota zeta.
    destruct (eight_elements
                (firstn (Z.to_nat PreservedUniformVariablesCount)
                   (uniforms ++ repeat [] (Z.to_nat PreservedUniformVariablesCount))))
      as (a0 & a1 & a2 & a3 & a4 & a5 & a6 & a7 & Ha).
    { rewrite length_firstn, length_app, repeat_length.
      change (Z.to_nat PreservedUniformVariablesCount) with 8%nat. lia. }
    rewrite Ha, copy_shift_repeat.
    destruct (InternalSize dst) as [dw dh].
    destruct srcs as [[[s0 s1] s2] s3]. cbn [fst].
    let r := eval vm_compute in (allocFloat32s theCommandQueue 2) in
    change (allocFloat32s theCommandQueue 2) with r.
    cbv beta iota.
    match goal with
    | |- context [allocFloat32s ?q (2 * len (srcs_list (s0, s1, s2, s3)))] =>
        let r := eval cbv - [of_int] in
                   (allocFloat32s q (2 * len (srcs_list (s0, s1, s2, s3)))) in
        change (allocFloat32s q (2 * len (srcs_list (s0, s1, s2, s3)))) with r
    end.
    cbv beta iota.
    destruct s0 as [j|]; [destruct (InternalSize j) as [w h]|];
      repeat step_alloc;
      unfold setIndex, TextureDestinationSizeUniformVariableIndex,
        TextureSourceSizesUniformVariableIndex,
        TextureDestinationRegionOriginUniformVariableIndex,
        TextureDestinationRegionSizeUniformVariableIndex,
        TextureSourceOffsetsUniformVariableIndex,
        TextureSourceRegionOriginUniformVariableIndex,
        TextureSourceRegionSizeUniformVariableIndex,
        ProjectionMatrixUniformVariableIndex;
      cbn [Z.to_nat Pos.to_nat Pos.iter_op Nat.add firstn skipn app fst nth];
      reflexivity. }
  rewrite Eu. clear Eu usizes.
  destruct srcs as [[[s0 s1] s2] s3]. unfold setSourceSizes.
  cbn [srcs_list List.length seq combine fold_left] in *.
  destruct s0 as [j0|]; [destruct (InternalSize j0)|];
    (destruct s1 as [j1|]; [destruct (InternalSize j1)|]);
    (destruct s2 as [j2|]; [destruct (InternalSize j2)|]);
    (destruct s3 as [j3|]; [destruct (InternalSize j3)|]);
    do 4 (destruct i as [|i]; [first [discriminate Hnil | split; reflexivity]|]);
    lia.
Qed.

(** C6 fails on a reused scratch buffer.  A first frame enqueues a draw whose
    source 0 is a 16 x 16 image and ends with [Flush]; the buffer keeps its
    contents and only its length goes back to zero.  In the next frame a draw
    with four nil sources gets, at index 1, the slice [2:10] of that buffer
    as it is: the floats of source 3 are the 1.0 and 1.0 that the first
    frame stored there as its source-region size. *)
Lemma prependPreservedUniforms_stale_source_sizes :
  exists q1 q2 tr,
    EnqueueDrawTrianglesCommand (fun _ => (16, 16)) (fun _ u => u)
      theCommandQueue 1%positive (Some 2%positive, None, None, None)
      ((zero, zero), (zero, zero), (zero, zero))
      (repeat zero 32) [0; 1; 2; 1; 2; 3] (Build_Blend 1 1 0 0 0 0)
      (Build_Region zero zero (of_int 16) (of_int 16))
      (Build_Region zero zero (of_int 16) (of_int 16))
      7%positive [] false = Ret q1
    /\ Flush (fun _ _ => None) q1 true [] = (Ret None, q2, tr)
    /\ nth 1
         (fst (prependPreservedUniforms (fun _ => (16, 16)) q2 [] 1%positive
                 (None, None, None, None)
                 ((zero, zero), (zero, zero), (zero, zero))
                 (Build_Region zero zero (of_int 16) (of_int 16))
                 (Build_Region zero zero (of_int 16) (of_int 16)))) []
       = [zero; zero; zero; zero; zero; zero; of_int 1; of_int 1].
Proof.
  eexists _, _, _. split; [vm_compute; reflexivity|].
  split; [vm_compute; reflexivity|]. vm_compute. reflexivity.
Qed.

(** C4 as stated fails when [Begin] fails: the deferred function that empties
    the queue is not yet in place, and the queued command stays. *)
Lemma Flush_Begin_error_keeps_queue :
  exists q',
    Flush (fun _ k => match k with Begin => Some "no device"%string | _ => None end)
      (Enqueue theCommandQueue (disposeImage 1%positive)) false []
    = (Ret (Some "no device"%string), q', [Begin])
    /\ len (commands q') = 1.
Proof.
  eexists. split; reflexivity.
Qed.

End GraphicsCommandFacts.

(** * Further properties of the vertex backend *)

Module GraphicsCoverage.

Import Graphics Float32Facts GraphicsFacts.

(** ** The size classes *)

Lemma int_wrap_double (k : Z) :
  0 <= k < 52 -> int_wrap (1024 * 2 ^ k * 2) = 1024 * 2 ^ (k + 1).
Proof.
  intros Hk.
  assert (Hpow : 2 ^ (k + 1) = 2 * 2 ^ k) by (rewrite Z.pow_add_r by lia; lia).
  assert (2 ^ k <= 2 ^ 51) by (apply Z.pow_le_mono_r; lia).
  assert (0 < 2 ^ k) by (apply Z.pow_pos_nonneg; lia).
  rewrite Hpow. replace (1024 * (2 * 2 ^ k)) with (1024 * 2 ^ k * 2) by lia.
  apply int_wrap_small. lia.
Qed.

(** The doubling loop, started on a size class, ends on the least size class
    that is not below [size].  From 1024 * 2^52 the next doubling wraps to the
    least integer and the one after to zero, where the loop stays for ever. *)
Lemma doubleUntil_class (fuel : nat) :
  forall (k : Z) (size r : Z),
    0 <= k <= 52 ->
    doubleUntil fuel (1024 * 2 ^ k) size = Some r ->
    exists j, k <= j <= 52 /\ r = 1024 * 2 ^ j /\ size <= r
              /\ (k < j -> 1024 * 2 ^ (j - 1) < size).
Proof.
  induction fuel as [|fuel IH]; intros k size r Hk H; [discriminate|].
  cbn [doubleUntil] in H.
  destruct (Z.ltb_spec (1024 * 2 ^ k) size) as [Hlt|Hge].
  - destruct (Z.eq_dec k 52) as [->|Hne].
    + (* the next doubling wraps to the least integer, then to zero *)
      exfalso.
      change (int_wrap (1024 * 2 ^ 52 * 2)) with (- 2 ^ 63) in H.
      change (1024 * 2 ^ 52) with (2 ^ 62) in Hlt.
      destruct fuel as [|fuel]; [discriminate|]. cbn [doubleUntil] in H.
      destruct (Z.ltb_spec (- 2 ^ 63) size); [|lia].
      change (int_wrap (- 2 ^ 63 * 2)) with 0 in H.
      clear - H Hlt. induction fuel as [|fuel IHf]; [discriminate|].
      cbn [doubleUntil] in H. destruct (Z.ltb_spec 0 size); [|lia].
      apply IHf. exact H.
    + rewrite int_wrap_double in H by lia.
      destruct (IH (k + 1) size r ltac:(lia) H) as (j & Hj & Hr & Hs & Hm).
      exists j. split; [lia|]. split; [exact Hr|]. split; [exact Hs|].
      intros _. destruct (Z.eq_dec j (k + 1)) as [->|Hj'].
      * replace (k + 1 - 1) with k by lia. exact Hlt.
      * apply Hm. lia.
  - injection H as <-. exists k. split; [lia|]. split; [reflexivity|].
    split; [exact Hge|]. intros; lia.
Qed.

(** X1.  For a size of at most 2^62, [verticesBackendFloat32Size] returns the
    least number of the form 1024 * 2^k that is not below the size; it is
    1024 for every size up to 1024. *)
Theorem verticesBackendFloat32Size_least (size : Z) :
  size <= 2 ^ 62 ->
  exists k, 0 <= k <= 52
            /\ verticesBackendFloat32Size size = Some (1024 * 2 ^ k)
            /\ size <= 1024 * 2 ^ k
            /\ (0 < k -> 1024 * 2 ^ (k - 1) < size).
Proof.
  intros Hs.
  destruct (verticesBackendFloat32Size_returns size Hs) as (r & Hr & _).
  unfold verticesBackendFloat32Size in *.
  change (128 * VertexFloatCount) with (1024 * 2 ^ 0) in Hr.
  destruct (doubleUntil_class _ 0 size r ltac:(lia) Hr) as (j & Hj & -> & Hle & Hm).
  exists j. split; [lia|]. split; [exact Hr|]. split; [exact Hle|exact Hm].
Qed.

Lemma verticesBackendFloat32Size_least_witness :
  exists k, 0 <= k <= 52
            /\ verticesBackendFloat32Size 3000 = Some (1024 * 2 ^ k)
            /\ 3000 <= 1024 * 2 ^ k
            /\ (0 < k -> 1024 * 2 ^ (k - 1) < 3000).
Proof. apply (verticesBackendFloat32Size_least 3000). vm_compute. discriminate. Defined.

Lemma doubleUntil_zero_runs (fuel : nat) (size : Z) :
  0 < size -> doubleUntil fuel 0 size = None.
Proof.
  intros H. induction fuel as [|fuel IH]; [reflexivity|].
  cbn [doubleUntil]. destruct (Z.ltb_spec 0 size); [|lia]. exact IH.
Qed.

Lemma doubleUntil_runs (fuel : nat) :
  forall k size, 0 <= k <= 52 -> 2 ^ 62 < size ->
    doubleUntil fuel (1024 * 2 ^ k) size = None.
Proof.
  induction fuel as [|fuel IH]; intros k size Hk Hs; [reflexivity|].
  cbn [doubleUntil].
  assert (Hle : 1024 * 2 ^ k <= 2 ^ 62).
  { change (2 ^ 62) with (1024 * 2 ^ 52).
    assert (2 ^ k <= 2 ^ 52) by (apply Z.pow_le_mono_r; lia). lia. }
  destruct (Z.ltb_spec (1024 * 2 ^ k) size); [|lia].
  destruct (Z.eq_dec k 52) as [->|Hne].
  - change (int_wrap (1024 * 2 ^ 52 * 2)) with (- 2 ^ 63).
    destruct fuel as [|fuel]; [reflexivity|]. cbn [doubleUntil].
    destruct (Z.ltb_spec (- 2 ^ 63) size); [|lia].
    change (int_wrap (- 2 ^ 63 * 2)) with 0.
    apply doubleUntil_zero_runs. lia.
  - rewrite int_wrap_double by lia. apply IH; lia.
Qed.

Section BackendCoverage.

Variable maxAlloc : Z.

(** X2.  A request whose float count lies between 2^62 and 2^63 never returns
    when the cursor is at 0: the doubling loop of the size class wraps to 0
    and runs for ever, whatever the number of rounds it is given. *)
Theorem slice_never_returns (v : verticesBackend) (n : Z) (fuel : nat) :
  pos v = 0 -> len (backend v) <= 2 ^ 62 ->
  2 ^ 62 < n * VertexFloatCount < 2 ^ 63 ->
  doubleUntil fuel (128 * VertexFloatCount) (n * VertexFloatCount) = None
  /\ slice maxAlloc v n = Diverge.
Proof.
  intros Hpos Hlen Hn.
  assert (Hrun : forall k, doubleUntil k (128 * VertexFloatCount) (n * VertexFloatCount)
                           = None).
  { intros k. change (128 * VertexFloatCount) with (1024 * 2 ^ 0).
    apply doubleUntil_runs; lia. }
  split; [apply Hrun|].
  assert (Hneed : int_wrap (n * VertexFloatCount) = n * VertexFloatCount)
    by (apply int_wrap_small; lia).
  unfold slice. rewrite Hneed, Hpos, Z.add_0_l, Hneed.
  destruct (Z.ltb_spec (len (backend v)) (n * VertexFloatCount)); [|lia].
  unfold verticesBackendFloat32Size. rewrite Hrun. reflexivity.
Qed.

(** ** Edge cases of [slice] *)

(** X3.  A request whose float count [n * 8], as a 64-bit integer, is 0
    returns an empty slice at the cursor and leaves the backend as it is,
    allocating nothing: so for no vertex, and so for a multiple of 2^61
    vertices, whose count wraps to 0.  A request whose float count, as a
    64-bit integer, is negative panics on the slice bounds: so for every
    negative number of vertices down to -2^60. *)
Theorem slice_zero_or_negative (v : verticesBackend) (n : Z) :
  0 <= pos v <= len (backend v) -> len (backend v) < 2 ^ 62 ->
  (int_wrap (n * VertexFloatCount) = 0 ->
   slice maxAlloc v n
   = Ret ({| vs_array := arrays v; vs_off := pos v; vs_len := 0 |},
          {| backend := backend v; pos := pos v;
             notFullyUsedTime := notFullyUsedTime v;
             arrays := arrays v |}))
  /\ (int_wrap (n * VertexFloatCount) < 0 ->
      slice maxAlloc v n = Panic "slice bounds out of range")
  /\ (- 2 ^ 60 <= n < 0 -> slice maxAlloc v n = Panic "slice bounds out of range")
  /\ (n mod 2 ^ 61 = 0 -> int_wrap (n * VertexFloatCount) = 0).
Proof.
  intros Hpos Hlen.
  assert (Hrange : - 2 ^ 63 <= int_wrap (n * VertexFloatCount) < 2 ^ 63).
  { unfold int_wrap.
    pose proof (Z.mod_pos_bound (n * VertexFloatCount + 2 ^ 63) (2 ^ 64) ltac:(lia)).
    lia. }
  assert (Hneg : int_wrap (n * VertexFloatCount) < 0 ->
                 slice maxAlloc v n = Panic "slice bounds out of range").
  { intros Hn. unfold slice.
    set (need := int_wrap (n * VertexFloatCount)) in *.
    rewrite (int_wrap_small (pos v + need)) by lia.
    destruct (Z.ltb_spec (len (backend v)) (pos v + need)); [lia|].
    rewrite (int_wrap_small (pos v + need)) by lia.
    destruct (Z.leb_spec (pos v) (pos v + need)); [lia|].
    rewrite andb_false_r. reflexivity. }
  split; [|split; [exact Hneg|split]].
  - intros Hz. unfold slice. cbv zeta. rewrite Hz, !Z.add_0_r.
    rewrite (int_wrap_small (pos v)) by lia.
    destruct (Z.ltb_spec (len (backend v)) (pos v)); [lia|].
    rewrite !Z.add_0_r, (int_wrap_small (pos v)) by lia.
    destruct (Z.leb_spec 0 (pos v)); [|lia].
    destruct (Z.leb_spec (pos v) (pos v)); [|lia].
    destruct (Z.leb_spec (pos v) (len (backend v))); [|lia]. reflexivity.
  - intros Hn. apply Hneg.
    rewrite int_wrap_small by (unfold VertexFloatCount; lia).
    unfold VertexFloatCount. lia.
  - intros Hmod. unfold int_wrap, VertexFloatCount.
    apply Z.mod_divide in Hmod; [|lia]. destruct Hmod as [k ->].
    replace (k * 2 ^ 61 * 8 + 2 ^ 63) with (2 ^ 63 + k * 2 ^ 64) by lia.
    rewrite Z.mod_add by lia. reflexivity.
Qed.

(** ** Sequences of requests *)

(** Requests made one after the other: the slices of the array in use
    start at or after the cursor, and the arrays are numbered upwards. *)
Lemma sliceAll_spec (ns : list Z) :
  forall (B : Z) (v : verticesBackend),
    1024 <= B -> B * 2 ^ len ns < 2 ^ 61 -> 4 * (B * 2 ^ len ns) <= maxAlloc ->
    0 <= pos v <= len (backend v) -> len (backend v) <= B ->
    Forall (fun n => 0 <= n * VertexFloatCount <= B) ns ->
    exists ss v',
      sliceAll maxAlloc v ns = Ret (ss, v')
      /\ map vs_len ss = map (fun n => n * VertexFloatCount) ns
      /\ ForallOrdPairs (fun s1 s2 => ~ overlap s1 s2) ss
      /\ Forall (fun s => (arrays v <= vs_array s)%nat
                          /\ (vs_array s = arrays v -> pos v <= vs_off s)
                          /\ 0 <= vs_off s /\ 0 <= vs_len s
                          /\ (vs_array s = arrays v' ->
                              vs_off s + vs_len s <= pos v')) ss
      /\ (arrays v <= arrays v')%nat
      /\ (arrays v' = arrays v -> pos v <= pos v')
      /\ 0 <= pos v' <= len (backend v').
Proof.
  induction ns as [|n ns IH]; intros B v HB Hpow Hmax Hpos Hlen Hns.
  - exists [], v. cbn [sliceAll map].
    split; [reflexivity|]. split; [reflexivity|]. split; [constructor|].
    split; [constructor|]. split; [lia|]. split; [lia|]. exact Hpos.
  - inversion Hns as [|? ? Hn Hns']; subst.
    rewrite len_cons in Hpow, Hmax.
    assert (Hp2 : 0 < 2 ^ len ns) by (apply Z.pow_pos_nonneg; [lia|apply len_nonneg]).
    assert (Hp3 : 2 ^ (1 + len ns) = 2 * 2 ^ len ns).
    { rewrite Z.pow_add_r by (try apply len_nonneg; lia). lia. }
    rewrite Hp3 in Hpow, Hmax.
    destruct (slice_returns maxAlloc B v n ltac:(nia) ltac:(nia) Hpos Hlen Hn)
      as (s & v1 & Es & Hl & Ha & Hp & Ho & Hp1 & Hb1 & Hep).
    destruct (IH (2 * B) v1) as (ss & v' & Ess & Hls & Hpair & Hall & Har & Hps & Hfin).
    + lia.
    + nia.
    + nia.
    + lia.
    + exact Hb1.
    + eapply Forall_impl; [|exact Hns']. cbv beta. intros; lia.
    + exists (s :: ss), v'. cbn [sliceAll]. rewrite Es, Ess.
      assert (Hlen_s : 0 <= vs_len s) by lia.
      split; [reflexivity|]. split; [cbn [map]; rewrite Hl, Hls; reflexivity|].
      split.
      { constructor; [|exact Hpair].
        rewrite Forall_forall in *. intros s' Hin [Harr (i & Hi1 & Hi2)].
        destruct (Hall s' Hin) as (Hge & Hsame & _).
        specialize (Hsame ltac:(congruence)). lia. }
      split.
      { constructor.
        - split; [destruct Hep as [[E _]|E]; rewrite Ha, E; lia|].
          split; [intros E; destruct Hep as [[_ E']|E']; [lia|rewrite Ha, E' in E; lia]|].
          split; [exact Ho|]. split; [exact Hlen_s|].
          intros E. rewrite Ha in E. specialize (Hps (eq_sym E)). lia.
        - rewrite Forall_forall in *. intros s' Hin.
          destruct (Hall s' Hin) as (Hge & Hsame & Hoff & Hln & Hend).
          split; [destruct Hep as [[E _]|E]; rewrite E in Hge; lia|].
          split.
          { intros E. destruct Hep as [[E1 E2]|E1]; [|rewrite E1 in Hge; lia].
            specialize (Hsame ltac:(congruence)). lia. }
          split; [exact Hoff|]. split; [exact Hln|exact Hend]. }
      split; [destruct Hep as [[E _]|E]; rewrite E in Har; lia|].
      split; [|exact Hfin].
      intros E. destruct Hep as [[E1 E2]|E1]; [|rewrite E1 in Har; lia].
      specialize (Hps ltac:(congruence)). lia.
Qed.

(** X4.  The backing array in use and each of the [k] requests are at most
    [B] floats, and the runtime grants an array of [B * 2^k] floats (each
    request at most doubles the array).  Then the requests, made one after
    the other, return slices of the lengths asked for, no two of which
    overlap; those cut from the array in use at the end lie within it. *)
Theorem sliceAll_never_overlap (B : Z) (v : verticesBackend) (ns : list Z) :
  1024 <= B -> B * 2 ^ len ns < 2 ^ 61 -> 4 * (B * 2 ^ len ns) <= maxAlloc ->
  0 <= pos v <= len (backend v) -> len (backend v) <= B ->
  Forall (fun n => 0 <= n * VertexFloatCount <= B) ns ->
  exists ss v',
    sliceAll maxAlloc v ns = Ret (ss, v')
    /\ map vs_len ss = map (fun n => n * VertexFloatCount) ns
    /\ ForallOrdPairs (fun s1 s2 => ~ overlap s1 s2) ss
    /\ Forall (fun s => 0 <= vs_off s
                        /\ (vs_array s = arrays v' ->
                            vs_off s + vs_len s <= len (backend v'))) ss.
Proof.
  intros HB Hpow Hmax Hpos Hlen Hns.
  destruct (sliceAll_spec ns B v HB Hpow Hmax Hpos Hlen Hns)
    as (ss & v' & E & Hl & Hp & Hall & _ & _ & Hfin).
  exists ss, v'. split; [exact E|]. split; [exact Hl|]. split; [exact Hp|].
  eapply Forall_impl; [|exact Hall]. cbv beta.
  intros s (_ & _ & Ho & _ & He). split; [exact Ho|]. intros Ea.
  specialize (He Ea). lia.
Qed.

(** ** What every state of the backend satisfies *)

Lemma verticesBackendFloat32Size_class (size l : Z) :
  verticesBackendFloat32Size size = Some l -> sizeClass l.
Proof.
  unfold verticesBackendFloat32Size. change (128 * VertexFloatCount) with (1024 * 2 ^ 0).
  intros H. destruct (doubleUntil_class _ 0 size l ltac:(lia) H) as (j & Hj & -> & _).
  exists j. split; [lia|reflexivity].
Qed.

Lemma sizeClass_bounds (l : Z) : sizeClass l -> 1024 <= l <= 2 ^ 62.
Proof.
  intros (k & Hk & ->).
  assert (2 ^ 0 <= 2 ^ k) by (apply Z.pow_le_mono_r; lia).
  assert (2 ^ k <= 2 ^ 52) by (apply Z.pow_le_mono_r; lia).
  change (2 ^ 62) with (1024 * 2 ^ 52). change (2 ^ 0) with 1 in *. lia.
Qed.

(** X5.  In every state the backend can reach the cursor lies within the
    backing array, the backing array is nil or has a length of the form
    1024 * 2^k, and the decay counter is between 0 and 59. *)
Theorem reachableBackend_invariant (v : verticesBackend) :
  reachableBackend maxAlloc v ->
  0 <= pos v <= len (backend v)
  /\ (backend v = [] \/ sizeClass (len (backend v)))
  /\ 0 <= notFullyUsedTime v < maxNotFullyUsedTime.
Proof.
  induction 1 as [|v n s v1 Hr IH E|v f e v1 Hr IH E].
  - cbn. split; [lia|]. split; [left; reflexivity|]. unfold maxNotFullyUsedTime. lia.
  - destruct IH as (Hpos & Hcls & Hcnt).
    unfold slice in E.
    set (need := int_wrap (n * VertexFloatCount)) in *.
    destruct (len (backend v) <? int_wrap (pos v + need)).
    + destruct (verticesBackendFloat32Size need) as [l|] eqn:El; [|discriminate].
      pose proof (verticesBackendFloat32Size_class _ _ El) as Hl.
      pose proof (sizeClass_bounds _ Hl) as Hlb.
      set (size := Graphics.max (int_wrap (len (backend v) * 2)) l) in *.
      assert (Hsize : size = l \/ (sizeClass size /\ size = len (backend v) * 2)).
      { unfold size, Graphics.max.
        destruct (Z.gtb_spec (int_wrap (len (backend v) * 2)) l) as [Hgt|Hle];
          [|left; reflexivity].
        right. destruct Hcls as [Hnil|(k & Hk & Ek)].
        - rewrite Hnil in Hgt. cbn in Hgt. lia.
        - rewrite Ek in *. destruct (Z.eq_dec k 52) as [->|Hne].
          + change (int_wrap (1024 * 2 ^ 52 * 2)) with (- 2 ^ 63) in Hgt. lia.
          + rewrite int_wrap_double by lia. split; [|rewrite Z.pow_add_r by lia; lia].
            exists (k + 1). split; [lia|reflexivity]. }
      assert (Hcs : sizeClass size) by (destruct Hsize as [->|[H _]]; assumption).
      pose proof (sizeClass_bounds _ Hcs) as Hsb.
      destruct (make maxAlloc size) as [b| |] eqn:Em; try discriminate.
      apply make_inv in Em. destruct Em as (-> & _ & _).
      cbn [pos backend arrays notFullyUsedTime] in E.
      destruct ((0 <=? 0) && (0 <=? int_wrap (0 + need))
                && (int_wrap (0 + need) <=? len (zeros size))) eqn:C; [|discriminate].
      injection E as _ <-. cbn [pos backend notFullyUsedTime].
      apply andb_true_iff in C. destruct C as [C C3].
      apply andb_true_iff in C. destruct C as [_ C2].
      apply Z.leb_le in C2, C3. rewrite Z.add_0_l in C2, C3.
      split; [lia|]. split; [|exact Hcnt].
      right. rewrite len_zeros by lia. exact Hcs.
    + destruct ((0 <=? pos v) && (pos v <=? int_wrap (pos v + need))
                && (int_wrap (pos v + need) <=? len (backend v))) eqn:C; [|discriminate].
      injection E as _ <-. cbn [pos backend notFullyUsedTime].
      apply andb_true_iff in C. destruct C as [C C3].
      apply andb_true_iff in C. destruct C as [C1 C2].
      apply Z.leb_le in C1, C2, C3.
      split; [lia|]. split; [exact Hcls|exact Hcnt].
  - destruct IH as (Hpos & Hcls & Hcnt).
    unfold lockAndReset in E.
    destruct (f tt) as [err|].
    + injection E as _ <-. split; [exact Hpos|]. split; [exact Hcls|exact Hcnt].
    + destruct (verticesBackendFloat32Size (pos v)) as [l|] eqn:El; [|discriminate].
      pose proof (sizeClass_bounds _ (verticesBackendFloat32Size_class _ _ El)) as Hlb.
      unfold maxNotFullyUsedTime in *.
      assert (Hw : int_wrap (notFullyUsedTime v + 1) = notFullyUsedTime v + 1)
        by (apply int_wrap_small; lia).
      rewrite Hw in E.
      pose proof (len_nonneg (backend v)) as Hln.
      destruct (Z.ltb_spec l (len (backend v))) as [Hu|Hu].
      * destruct (Z.ltb_spec (notFullyUsedTime v) 60); [|lia].
        destruct (Z.eqb_spec (notFullyUsedTime v + 1) 60) as [E60|N60].
        -- destruct (Z.gtb_spec (len (backend v)) 0); [|lia].
           cbn [andb] in E. injection E as _ <-. cbn. split; [lia|].
           split; [left; reflexivity|lia].
        -- cbn [andb] in E. injection E as _ <-. cbn [pos backend notFullyUsedTime].
           split; [lia|]. split; [exact Hcls|lia].
      * cbn [Z.eqb andb] in E. injection E as _ <-. cbn [pos backend notFullyUsedTime].
        split; [lia|]. split; [exact Hcls|lia].
Qed.

(** ** A window starts at the front of the array *)

Lemma slice_from_zero (v : verticesBackend) (n : Z) (s : vslice) (v' : verticesBackend) :
  pos v = 0 -> slice maxAlloc v n = Ret (s, v') -> vs_off s = 0.
Proof.
  intros Hpos E. unfold slice in E.
  destruct (len (backend v) <? int_wrap (pos v + int_wrap (n * VertexFloatCount))).
  - destruct (verticesBackendFloat32Size (int_wrap (n * VertexFloatCount))); [|discriminate].
    destruct (make maxAlloc _); try discriminate.
    cbn [pos backend arrays notFullyUsedTime] in E.
    match type of E with (if ?c then _ else _) = _ => destruct c end; [|discriminate].
    injection E as <- _. reflexivity.
  - match type of E with (if ?c then _ else _) = _ => destruct c end; [|discriminate].
    injection E as <- _. exact Hpos.
Qed.

(** X6.  The backing array and [n * 8] are at most [B] floats, and the
    runtime grants an array of [2 * B] floats.  Then after a [lockAndReset]
    whose callback succeeds the next slice starts at index 0, whether the
    backing array was kept or released: the slices of one window reuse the
    memory of the windows before it. *)
Theorem lockAndReset_then_slice_restarts (B : Z) (v : verticesBackend)
    (f : unit -> option error) (n : Z) :
  1024 <= B < 2 ^ 60 -> 8 * B <= maxAlloc ->
  0 <= pos v <= len (backend v) -> len (backend v) <= B ->
  0 <= notFullyUsedTime v < maxNotFullyUsedTime ->
  f tt = None -> 0 <= n * VertexFloatCount <= B ->
  exists v1 s v2,
    lockAndReset v f = Ret (None, v1)
    /\ slice maxAlloc v1 n = Ret (s, v2)
    /\ vs_off s = 0 /\ vs_len s = n * VertexFloatCount
    /\ (backend v1 = backend v \/ backend v1 = []).
Proof.
  intros HB Hmax Hpos Hlen Hcnt Hf Hn.
  destruct (lockAndReset_ok v f ltac:(lia) Hcnt Hf)
    as (v1 & E1 & Hp1 & _ & Hc1 & Hrel & Hkeep & Hfull).
  assert (Hb : backend v1 = backend v \/ backend v1 = []).
  { destruct (verticesBackendFloat32Size_returns (pos v) ltac:(lia)) as (l & El & _).
    destruct (Z.lt_ge_cases l (len (backend v))) as [Hu|Hu].
    - assert (U : underUsed v) by (exists l; auto).
      destruct (Z.eq_dec (notFullyUsedTime v) (maxNotFullyUsedTime - 1)) as [Ec|Nc].
      + right. apply Hrel; assumption.
      + left. apply Hkeep; [assumption|]. unfold maxNotFullyUsedTime in *. lia.
    - left. apply Hfull. intros (l' & El' & Hl'). rewrite El in El'.
      injection El' as <-. lia. }
  assert (Hlen1 : len (backend v1) <= B).
  { destruct Hb as [->| ->]; [lia|]. rewrite len_nil. lia. }
  destruct (slice_returns maxAlloc B v1 n) as (s & v2 & E2 & Hl2 & _).
  - lia.
  - exact Hmax.
  - rewrite Hp1. pose proof (len_nonneg (backend v1)). lia.
  - exact Hlen1.
  - lia.
  - exists v1, s, v2. split; [exact E1|]. split; [exact E2|].
    split; [exact (slice_from_zero _ _ _ _ Hp1 E2)|]. split; [exact Hl2|exact Hb].
Qed.

End BackendCoverage.

Lemma slice_never_returns_witness :
  doubleUntil 1000 (128 * VertexFloatCount) ((2 ^ 59 + 1) * VertexFloatCount) = None
  /\ slice (2 ^ 48) theVerticesBackend (2 ^ 59 + 1) = Diverge.
Proof.
  apply (slice_never_returns (2 ^ 48) theVerticesBackend (2 ^ 59 + 1) 1000);
    vm_compute; first [reflexivity | discriminate | split; reflexivity].
Defined.

Lemma slice_zero_or_negative_witness :
  slice (2 ^ 48) {| backend := zeros 1024; pos := 32; notFullyUsedTime := 0;
                    arrays := 1 |} (-1)
  = Panic "slice bounds out of range"
  /\ slice (2 ^ 48) {| backend := zeros 1024; pos := 32; notFullyUsedTime := 0;
                       arrays := 1 |} (- 2 ^ 61)
     = Ret ({| vs_array := 1; vs_off := 32; vs_len := 0 |},
            {| backend := zeros 1024; pos := 32; notFullyUsedTime := 0; arrays := 1 |}).
Proof.
  assert (Hpos : 0 <= 32 <= len (zeros 1024)) by (vm_compute; split; discriminate).
  assert (Hlen : len (zeros 1024) < 2 ^ 62) by (vm_compute; reflexivity).
  split.
  - apply (slice_zero_or_negative (2 ^ 48)
             {| backend := zeros 1024; pos := 32; notFullyUsedTime := 0; arrays := 1 |}
             (-1) Hpos Hlen).
    lia.
  - apply (slice_zero_or_negative (2 ^ 48)
             {| backend := zeros 1024; pos := 32; notFullyUsedTime := 0; arrays := 1 |}
             (- 2 ^ 61) Hpos Hlen).
    reflexivity.
Defined.

Lemma sliceAll_never_overlap_witness :
  exists ss v',
    sliceAll (2 ^ 48) theVerticesBackend [4; 6; 200; 4] = Ret (ss, v')
    /\ map vs_len ss = map (fun n => n * VertexFloatCount) [4; 6; 200; 4]
    /\ ForallOrdPairs (fun s1 s2 => ~ overlap s1 s2) ss
    /\ Forall (fun s => 0 <= vs_off s
                        /\ (vs_array s = arrays v' ->
                            vs_off s + vs_len s <= len (backend v'))) ss.
Proof.
  apply (sliceAll_never_overlap (2 ^ 48) 2048 theVerticesBackend [4; 6; 200; 4]).
  - lia.
  - vm_compute. reflexivity.
  - vm_compute. discriminate.
  - vm_compute. split; discriminate.
  - vm_compute. discriminate.
  - repeat constructor; vm_compute; discriminate.
Defined.

Lemma reachableBackend_invariant_witness :
  0 <= pos {| backend := zeros 1024; pos := 32; notFullyUsedTime := 0; arrays := 1 |}
    <= len (backend {| backend := zeros 1024; pos := 32; notFullyUsedTime := 0;
                       arrays := 1 |})
  /\ (backend {| backend := zeros 1024; pos := 32; notFullyUsedTime := 0; arrays := 1 |}
      = []
      \/ sizeClass (len (backend {| backend := zeros 1024; pos := 32;
                                    notFullyUsedTime := 0; arrays := 1 |})))
  /\ 0 <= notFullyUsedTime {| backend := zeros 1024; pos := 32; notFullyUsedTime := 0;
                              arrays := 1 |} < maxNotFullyUsedTime.
Proof.
  apply (reachableBackend_invariant (2 ^ 48)
           {| backend := zeros 1024; pos := 32; notFullyUsedTime := 0; arrays := 1 |}).
  apply (reach_slice (2 ^ 48) theVerticesBackend 4
           {| vs_array := 1; vs_off := 0; vs_len := 32 |}).
  - constructor.
  - vm_compute. reflexivity.
Defined.

Lemma lockAndReset_then_slice_restarts_witness :
  exists v1 s v2,
    lockAndReset {| backend := zeros 1024; pos := 32; notFullyUsedTime := 0; arrays := 1 |}
      (fun _ => None) = Ret (None, v1)
    /\ slice (2 ^ 48) v1 2 = Ret (s, v2)
    /\ vs_off s = 0 /\ vs_len s = 2 * VertexFloatCount
    /\ (backend v1
        = backend {| backend := zeros 1024; pos := 32; notFullyUsedTime := 0;
                     arrays := 1 |}
        \/ backend v1 = []).
Proof.
  apply (lockAndReset_then_slice_restarts (2 ^ 48) 1024
           {| backend := zeros 1024; pos := 32; notFullyUsedTime := 0; arrays := 1 |}
           (fun _ => None) 2);
    vm_compute;
    first [reflexivity | split; discriminate | split; [discriminate|reflexivity]
          | discriminate].
Defined.

(** ** The distance [adjustDestinationPixel] moves a coordinate *)

Lemma value_nonneg (x : float32) : ltb x zero = false -> (0 <= value x)%Q.
Proof.
  destruct x as [s|s| |s m e]; intros H; try (apply Qle_refl).
  destruct s; [discriminate H|].
  unfold value. destruct (0 <=? e).
  - unfold Qle, inject_Z. cbn [Qnum Qden cond_Zopp].
    assert (0 < 2 ^ e \/ 2 ^ e = 0).
    { destruct (Z.le_gt_cases 0 e); [left; apply Z.pow_pos_nonneg; lia|].
      right. apply Z.pow_neg_r. lia. }
    nia.
  - unfold Qle. cbn [Qnum Qden cond_Zopp]. lia.
Qed.

(** X7.  For a finite binary32 number [x] that is not negative and whose floor
    is below 2^20 - 1, the result of [adjustDestinationPixel] is within 3/16
    of [x]. *)
Theorem adjustDestinationPixel_within_three_sixteenths (x : float32) :
  valid x = true -> isFinite x = true -> ltb x zero = false ->
  floor x + 1 < 2 ^ 20 ->
  (value x - (3 # 16) <= value (adjustDestinationPixel x) <= value x + (3 # 16))%Q.
Proof.
  intros Hv Hf Hs Hhi.
  assert (H0 : 0 <= floor x).
  { unfold floor. change 0 with (Qfloor 0). apply Qfloor_resp_le.
    apply value_nonneg. exact Hs. }
  rewrite (adjustDestinationPixel_sixteenths x Hv Hf ltac:(lia) Hhi).
  rewrite (offset_of_exact_fraction x Hv Hf Hs ltac:(lia)).
  pose proof (Qfloor_le (value x)) as Hlo. pose proof (Qlt_floor (value x)) as Hup.
  fold (floor x) in Hlo, Hup.
  rewrite inject_Z_plus in Hup.
  set (f := floor x) in *. set (q := value x) in *.
  assert (Hval : forall k, 0 <= k <= 16 ->
            (value (of_scaled (16 * f + k) (-4)) == inject_Z f + (k # 16))%Q).
  { intros k Hk'. eapply Qeq_trans; [apply value_of_scaled; lia|].
    unfold Qeq, Qplus, inject_Z. cbn [Qnum Qden].
    change (Z.pos (1 * 16)) with 16. change (Z.pos 16) with 16. lia. }
  change (inject_Z 1) with 1%Q in Hup.
  unfold offsetOfFraction.
  destruct (Qltb (q - inject_Z f) (3 # 16)) eqn:C1.
  { apply Qltb_lt in C1. rewrite (Hval 0) by lia.
    generalize dependent (inject_Z f). intros; split; lra. }
  apply Qltb_ge in C1.
  destruct (Qltb (q - inject_Z f) (8 # 16)) eqn:C2.
  { apply Qltb_lt in C2. rewrite (Hval 5) by lia.
    generalize dependent (inject_Z f). intros; split; lra. }
  apply Qltb_ge in C2.
  destruct (Qltb (q - inject_Z f) (13 # 16)) eqn:C3.
  { apply Qltb_lt in C3. rewrite (Hval 11) by lia.
    generalize dependent (inject_Z f). intros; split; lra. }
  apply Qltb_ge in C3. rewrite (Hval 16) by lia.
  generalize dependent (inject_Z f). intros; split; lra.
Qed.

Lemma adjustDestinationPixel_within_three_sixteenths_witness :
  (value (of_scaled 7 (-2)) - (3 # 16)
   <= value (adjustDestinationPixel (of_scaled 7 (-2)))
   <= value (of_scaled 7 (-2)) + (3 # 16))%Q.
Proof.
  apply (adjustDestinationPixel_within_three_sixteenths (of_scaled 7 (-2)));
    vm_compute; reflexivity.
Defined.

End GraphicsCoverage.

(** * Further properties of the command queue *)

Module GraphicsCommandCoverage.

Import Graphics GraphicsCommand Float32Facts GraphicsFacts GraphicsCommandFacts.

(** ** The calls of a flush *)

Lemma triple_eq (a b c a' b' c' : Z) :
  a = a' -> b = b' -> c = c' -> Ret (a, b, c) = Ret (a', b', c').
Proof. intros; subst; reflexivity. Qed.

(** The loop that measures a chunk, on commands within the ceiling: it
    returns, having taken some first commands of the list, at least one when
    it starts a chunk. *)
Lemma scanChunk_takes (cs : list command) :
  forall nv ne nc,
    Forall withinCeiling cs -> 0 <= nc ->
    exists k : nat,
      (k <= List.length cs)%nat
      /\ (nc = 0 -> cs <> [] -> (1 <= k)%nat)
      /\ scanChunk cs nv ne nc
         = Ret (nv + len (flat_map cmdVertices (firstn k cs)),
                ne + sumZ (map cmdNumIndices (firstn k cs)),
                nc + Z.of_nat k).
Proof.
  induction cs as [|c cs IH]; intros nv ne nc Hall Hnc.
  - exists 0%nat. split; [cbn; lia|]. split; [congruence|].
    cbn [scanChunk firstn flat_map map sumZ fold_right]. unfold len.
    cbn [List.length Z.of_nat]. rewrite !Z.add_0_r. reflexivity.
  - inversion Hall as [|? ? Hc Hcs]; subst.
    destruct c as [dtc| | | | | | |];
      try (destruct (IH nv ne (nc + 1) Hcs ltac:(lia)) as (k & Hk & _ & E);
           exists (S k); split; [cbn [List.length]; lia|]; split; [lia|];
           cbn [scanChunk firstn flat_map cmdVertices map cmdNumIndices sumZ fold_right app];
           rewrite E; apply triple_eq; unfold sumZ; lia).
    cbn [scanChunk]. unfold withinCeiling in Hc. cbn [cmdNumIndices] in Hc.
    unfold numIndices.
    destruct (Z.gtb_spec (c_nindices dtc) IndicesCount); [lia|].
    destruct ((nc >? 0)
              && mustUseDifferentVertexBuffer (nv + numVertices dtc) (ne + c_nindices dtc))
      eqn:Hbrk.
    + exists 0%nat. split; [cbn; lia|]. split.
      * intros ->. discriminate Hbrk.
      * cbn [firstn flat_map map sumZ fold_right]. unfold len.
        cbn [List.length Z.of_nat]. rewrite !Z.add_0_r. reflexivity.
    + destruct (IH (nv + numVertices dtc) (ne + c_nindices dtc) (nc + 1) Hcs ltac:(lia))
        as (k & Hk & _ & E).
      exists (S k). split; [cbn [List.length]; lia|]. split; [lia|].
      rewrite E. cbn [firstn flat_map cmdVertices map cmdNumIndices].
      rewrite len_app. unfold numVertices, sumZ. cbn [fold_right].
      apply triple_eq; lia.
Qed.

Lemma lastUpload_app (a b : list call) (cur : option Z) :
  lastUpload cur (a ++ b) = lastUpload (lastUpload cur a) b.
Proof. unfold lastUpload. apply fold_left_app. Qed.

Lemma lastUpload_none (calls : list call) :
  forall cur, Forall (fun k => isSetVertices k = false) calls ->
    lastUpload cur calls = cur.
Proof.
  induction calls as [|k calls IH]; intros cur H; [reflexivity|].
  inversion H as [|? ? Hk Hr]; subst.
  destruct k; try discriminate Hk; apply IH; exact Hr.
Qed.

Lemma drawsWithinUpload_app (a : list call) :
  forall (cur : option Z) (b : list call),
    drawsWithinUpload cur (a ++ b)
    <-> drawsWithinUpload cur a /\ drawsWithinUpload (lastUpload cur a) b.
Proof.
  induction a as [|k a IH]; intros cur b.
  - cbn. tauto.
  - destruct k as [| |v e|dst srcs shader n o blend dr un eo| | | | | | | |];
      cbn [app drawsWithinUpload]; try apply IH.
    change (lastUpload cur (DrawTriangles dst srcs shader n o blend dr un eo :: a))
        with (lastUpload cur a).
      rewrite IH. tauto.
Qed.

Lemma Exec_callsAt (drv : driver) (c : command) (off : Z) (tr : trace) :
  snd (Exec drv c off tr) = tr ++ callsAt c off.
Proof.
  unfold callsAt.
  destruct c as [d|dst nargs| | | |r w h screen| |]; cbn [Exec];
    try reflexivity.
  - destruct (c_nindices d =? 0); cbn [snd invoke app]; [rewrite app_nil_r|]; reflexivity.
  - destruct (nargs =? 0); cbn [snd invoke app]; [rewrite app_nil_r|]; reflexivity.
  - destruct screen; reflexivity.
Qed.

Lemma callsAt_erase (c : command) (off : Z) :
  map eraseOffset (callsAt c off) = commandCalls c.
Proof.
  unfold commandCalls, callsAt.
  destruct c as [d|dst nargs| | | |r w h screen| |]; cbn [Exec]; try reflexivity.
  - destruct (c_nindices d =? 0); reflexivity.
  - destruct (nargs =? 0); reflexivity.
  - destruct screen; reflexivity.
Qed.

Lemma callsAt_drawn (c : command) (off : Z) :
  sumZ (map drawnIndices (callsAt c off)) = cmdNumIndices c.
Proof.
  unfold callsAt.
  destruct c as [d|dst nargs| | | |r w h screen| |]; cbn [Exec]; try reflexivity.
  - destruct (Z.eqb_spec (c_nindices d) 0) as [E|E]; cbn; lia.
  - destruct (nargs =? 0); reflexivity.
  - destruct screen; reflexivity.
Qed.

Lemma callsAt_noSet (c : command) (off : Z) :
  Forall (fun k => isSetVertices k = false) (callsAt c off).
Proof.
  unfold callsAt.
  destruct c as [d|dst nargs| | | |r w h screen| |]; cbn [Exec];
    try (repeat constructor).
  - destruct (c_nindices d =? 0); repeat constructor.
  - destruct (nargs =? 0); repeat constructor.
  - destruct screen; repeat constructor.
Qed.

Lemma callsAt_within (c : command) (off l : Z) :
  0 <= cmdNumIndices c -> 0 <= off -> off + cmdNumIndices c <= l ->
  drawsWithinUpload (Some l) (callsAt c off).
Proof.
  intros Hn Ho Hl. unfold callsAt.
  destruct c as [d|dst nargs| | | |r w h screen| |]; cbn [Exec]; try exact I.
  - cbn [cmdNumIndices] in *.
    destruct (Z.eqb_spec (c_nindices d) 0) as [E|E]; cbn; [exact I|].
    split; [lia|exact I].
  - destruct (nargs =? 0); exact I.
  - destruct screen; exact I.
Qed.

Lemma callsAt_zero (c : command) (off : Z) (cur : option Z) :
  cmdNumIndices c = 0 -> drawsWithinUpload cur (callsAt c off).
Proof.
  intros Hn. unfold callsAt.
  destruct c as [d|dst nargs| | | |r w h screen| |]; cbn [Exec]; try exact I.
  - cbn [cmdNumIndices] in Hn. rewrite Hn. exact I.
  - destruct (nargs =? 0); exact I.
  - destruct screen; exact I.
Qed.

Lemma sumZ_nonneg (cs : list command) :
  Forall withinCeiling cs -> 0 <= sumZ (map cmdNumIndices cs).
Proof.
  induction 1 as [|c cs Hc _ IH]; [cbn; lia|].
  unfold withinCeiling in Hc. cbn [map sumZ fold_right]. unfold sumZ in IH. lia.
Qed.

Lemma chunkCalls_noSet (cs : list command) :
  forall off, Forall (fun k => isSetVertices k = false) (chunkCalls cs off).
Proof.
  induction cs as [|c cs IH]; intros off; [constructor|].
  cbn [chunkCalls]. apply Forall_app. split; [apply callsAt_noSet|apply IH].
Qed.

Lemma chunkCalls_erase (cs : list command) :
  forall off, map eraseOffset (chunkCalls cs off) = flat_map commandCalls cs.
Proof.
  induction cs as [|c cs IH]; intros off; [reflexivity|].
  cbn [chunkCalls flat_map]. rewrite map_app, callsAt_erase, IH. reflexivity.
Qed.

Lemma chunkCalls_drawn (cs : list command) :
  forall off, sumZ (map drawnIndices (chunkCalls cs off)) = sumZ (map cmdNumIndices cs).
Proof.
  induction cs as [|c cs IH]; intros off; [reflexivity|].
  cbn [chunkCalls map]. rewrite map_app, sumZ_app, callsAt_drawn, IH. reflexivity.
Qed.

Lemma chunkCalls_within (cs : list command) :
  forall off l,
    Forall withinCeiling cs -> 0 <= off ->
    off + sumZ (map cmdNumIndices cs) <= l ->
    drawsWithinUpload (Some l) (chunkCalls cs off).
Proof.
  induction cs as [|c cs IH]; intros off l Hall Ho Hl; [exact I|].
  inversion Hall as [|? ? Hc Hcs]; subst. unfold withinCeiling in Hc.
  pose proof (sumZ_nonneg cs Hcs) as Hs.
  cbn [map sumZ fold_right] in Hl. unfold sumZ in Hs.
  cbn [chunkCalls]. apply drawsWithinUpload_app. split.
  - apply callsAt_within; lia.
  - rewrite lastUpload_none by apply callsAt_noSet.
    apply IH; [exact Hcs|lia|unfold sumZ; lia].
Qed.

Lemma chunkCalls_zero (cs : list command) :
  forall off cur,
    Forall withinCeiling cs -> sumZ (map cmdNumIndices cs) = 0 ->
    drawsWithinUpload cur (chunkCalls cs off).
Proof.
  induction cs as [|c cs IH]; intros off cur Hall Hz; [exact I|].
  inversion Hall as [|? ? Hc Hcs]; subst. unfold withinCeiling in Hc.
  pose proof (sumZ_nonneg cs Hcs) as Hs.
  cbn [map sumZ fold_right] in Hz. unfold sumZ in Hs.
  cbn [chunkCalls]. apply drawsWithinUpload_app. split.
  - apply callsAt_zero. lia.
  - rewrite lastUpload_none by apply callsAt_noSet. apply IH; [exact Hcs|].
    unfold sumZ. lia.
Qed.

(** The calls made by the loop over a chunk are the first calls of the
    chunk, and all of them when no call fails. *)
Lemma execChunk_prefix (drv : driver) (cs : list command) :
  forall (off : Z) (tr : trace),
  exists calls rest,
    snd (execChunk drv cs off tr) = tr ++ calls
    /\ chunkCalls cs off = calls ++ rest
    /\ (fst (execChunk drv cs off tr) = None -> rest = []).
Proof.
  induction cs as [|c cs IH]; intros off tr.
  - exists [], []. cbn. rewrite app_nil_r. auto.
  - cbn [execChunk chunkCalls].
    pose proof (Exec_callsAt drv c off tr) as Hc.
    destruct (Exec drv c off tr) as [[err|] tr1]; cbn [snd] in Hc; subst tr1.
    + exists (callsAt c off), (chunkCalls cs (off + cmdNumIndices c)).
      cbn [fst snd]. split; [reflexivity|]. split; [reflexivity|discriminate].
    + assert (Eoff : match c with
                     | drawTriangles dtc => off + numIndices dtc
                     | _ => off
                     end = off + cmdNumIndices c).
      { destruct c; cbn [cmdNumIndices]; unfold numIndices; lia. }
      rewrite Eoff.
      destruct (IH (off + cmdNumIndices c) (tr ++ callsAt c off))
        as (calls & rest & E1 & E2 & E3).
      exists (callsAt c off ++ calls), rest.
      rewrite E1, E2, !app_assoc. auto.
Qed.

Lemma prefix_noSet (calls rest : list call) (cs : list command) (off : Z) :
  chunkCalls cs off = calls ++ rest ->
  Forall (fun k => isSetVertices k = false) calls.
Proof.
  intros E. pose proof (chunkCalls_noSet cs off) as H. rewrite E in H.
  apply Forall_app in H. apply H.
Qed.

Lemma filter_noSet (calls : list call) :
  Forall (fun k => isSetVertices k = false) calls ->
  filter notSetVertices calls = calls.
Proof.
  induction 1 as [|k calls Hk _ IH]; [reflexivity|].
  cbn [filter]. unfold notSetVertices at 1. rewrite Hk. cbn [negb]. rewrite IH.
  reflexivity.
Qed.

(** The loop over the chunks, on commands within the ceiling and arrays that
    hold their vertices and indices: it returns; every draw call addresses
    the index buffer uploaded for its chunk; and when no call fails the calls
    are those of the commands, in order. *)
Lemma flushChunks_safe (drv : driver) (fuel : nat) :
  forall (cs : list command) (vs : list float32) (es : list Z) (tr : trace)
         (cur : option Z),
    (List.length cs <= fuel)%nat ->
    Forall withinCeiling cs ->
    len (flat_map cmdVertices cs) <= len vs ->
    sumZ (map cmdNumIndices cs) <= len es ->
    exists e calls,
      flushChunks fuel drv cs vs es tr = (Ret e, tr ++ calls)
      /\ drawsWithinUpload cur calls
      /\ (e = None ->
          map eraseOffset (filter notSetVertices calls) = flat_map commandCalls cs
          /\ sumZ (map drawnIndices calls) = sumZ (map cmdNumIndices cs)).
Proof.
  assert (Hnil : forall tr cur,
            exists e calls,
              (Ret (@None error), tr) = (Ret e, tr ++ calls)
              /\ drawsWithinUpload cur calls
              /\ (e = None ->
                  map eraseOffset (filter notSetVertices calls)
                  = flat_map commandCalls []
                  /\ sumZ (map drawnIndices calls) = sumZ (map cmdNumIndices []))).
  { intros tr cur. exists None, []. rewrite app_nil_r. cbn. auto. }
  induction fuel as [|fuel IH]; intros cs vs es tr cur Hfuel Hall Hvs Hes.
  - destruct cs; [|simpl in Hfuel; lia]. cbn [flushChunks]. apply Hnil.
  - destruct cs as [|c0 cs0]; [cbn [flushChunks]; apply Hnil|].
    cbn [flushChunks]. set (cs := c0 :: cs0) in *.
    destruct (scanChunk_takes cs 0 0 0 Hall ltac:(lia)) as (k & Hk & Hk1 & Escan).
    specialize (Hk1 eq_refl ltac:(discriminate)).
    rewrite Escan. rewrite !Z.add_0_l, Nat2Z.id.
    set (c1 := firstn k cs) in *. set (c2 := skipn k cs) in *.
    assert (Ecs : cs = c1 ++ c2) by (symmetry; apply firstn_skipn).
    assert (Hall12 : Forall withinCeiling c1 /\ Forall withinCeiling c2).
    { rewrite Ecs in Hall. apply Forall_app in Hall. exact Hall. }
    destruct Hall12 as [Hall1 Hall2].
    pose proof (sumZ_nonneg c1 Hall1) as Hs1. pose proof (sumZ_nonneg c2 Hall2) as Hs2.
    assert (Hsum : sumZ (map cmdNumIndices cs)
                   = sumZ (map cmdNumIndices c1) + sumZ (map cmdNumIndices c2)).
    { rewrite Ecs, map_app, sumZ_app. reflexivity. }
    assert (Hlenv : len (flat_map cmdVertices cs)
                    = len (flat_map cmdVertices c1) + len (flat_map cmdVertices c2)).
    { rewrite Ecs, flat_map_app, len_app. reflexivity. }
    pose proof (len_nonneg (flat_map cmdVertices c1)) as Hn1.
    pose proof (len_nonneg (flat_map cmdVertices c2)) as Hn2.
    assert (Hrun : forall (vs1 : list float32) (es1 : list Z) (tr1 : trace)
                          (cur1 : option Z),
              len (flat_map cmdVertices c2) <= len vs1 ->
              sumZ (map cmdNumIndices c2) <= len es1 ->
              drawsWithinUpload cur1 (chunkCalls c1 0) ->
              exists e calls,
                match execChunk drv c1 0 tr1 with
                | (Some err, tr2) => (Ret (Some err), tr2)
                | (None, tr2) => flushChunks fuel drv c2 vs1 es1 tr2
                end = (Ret e, tr1 ++ calls)
                /\ drawsWithinUpload cur1 calls
                /\ (e = None ->
                    map eraseOffset (filter notSetVertices calls)
                    = flat_map commandCalls cs
                    /\ sumZ (map drawnIndices calls) = sumZ (map cmdNumIndices cs))).
    { intros vs1 es1 tr1 cur1 Hv1 He1 Hw.
      destruct (execChunk_prefix drv c1 0 tr1) as (calls1 & rest & Htr & Hpre & Hall_).
      pose proof (prefix_noSet _ _ _ _ Hpre) as Hns.
      assert (Hw1 : drawsWithinUpload cur1 calls1).
      { rewrite Hpre in Hw. apply drawsWithinUpload_app in Hw. apply Hw. }
      destruct (execChunk drv c1 0 tr1) as [[err|] tr2]; cbn [fst snd] in Htr, Hall_;
        subst tr2.
      - exists (Some err), calls1. split; [reflexivity|]. split; [exact Hw1|].
        discriminate.
      - specialize (Hall_ eq_refl). subst rest. rewrite app_nil_r in Hpre.
        destruct (IH c2 vs1 es1 (tr1 ++ calls1) cur1) as (e & calls2 & E2 & Hw2 & Hf2).
        { unfold c2. rewrite length_skipn. unfold cs in *. cbn [List.length] in *. lia. }
        { exact Hall2. }
        { exact Hv1. }
        { exact He1. }
        exists e, (calls1 ++ calls2). rewrite E2, app_assoc.
        split; [reflexivity|]. split.
        { apply drawsWithinUpload_app. split; [exact Hw1|].
          rewrite lastUpload_none by exact Hns. exact Hw2. }
        intros He. destruct (Hf2 He) as [Hf Hd].
        rewrite filter_app, map_app, filter_noSet by exact Hns.
        rewrite Hf, <- Hpre, chunkCalls_erase.
        rewrite map_app, sumZ_app, Hd, chunkCalls_drawn.
        split; [rewrite <- flat_map_app, <- Ecs; reflexivity|].
        rewrite Hsum. reflexivity. }
    destruct (Z.ltb_spec 0 (sumZ (map cmdNumIndices c1))) as [Hpos|Hzero].
    + destruct (Z.leb_spec (len (flat_map cmdVertices c1)) (len vs)); [|lia].
      destruct (Z.leb_spec (sumZ (map cmdNumIndices c1)) (len es)); [|lia].
      cbn [andb invoke].
      set (up := SetVertices _ _).
      destruct (answer drv tr up) as [err|].
      * exists (Some err), [up]. split; [reflexivity|].
        split; [exact I|discriminate].
      * cbv beta iota zeta.
        destruct (Hrun (skipn (Z.to_nat (len (flat_map cmdVertices c1))) vs)
                    (skipn (Z.to_nat (sumZ (map cmdNumIndices c1))) es)
                    (tr ++ [up]) (Some (sumZ (map cmdNumIndices c1))))
          as (e & calls & E & Hw & Hf).
        { rewrite len_skipn by lia. lia. }
        { rewrite len_skipn by lia. lia. }
        { apply chunkCalls_within; [exact Hall1|lia|lia]. }
        exists e, (up :: calls). rewrite E, <- app_assoc. split; [reflexivity|].
        split.
        { unfold up. cbn [drawsWithinUpload]. rewrite len_firstn by lia. exact Hw. }
        intros He. destruct (Hf He) as [H1 H2]. split.
        { unfold up at 1. cbn [filter notSetVertices isSetVertices negb]. exact H1. }
        { change (sumZ (map drawnIndices (up :: calls)))
            with (0 + sumZ (map drawnIndices calls)).
          rewrite H2. lia. }
    + destruct (Hrun vs es tr cur) as (e & calls & E & Hw & Hf).
      { lia. }
      { lia. }
      { apply chunkCalls_zero; [exact Hall1|lia]. }
      exists e, calls. auto.
Qed.

Lemma queueInv_withinCeiling (q : commandQueue) :
  queueInv q ->
  Forall withinCeiling (commands q)
  /\ len (flat_map cmdVertices (commands q)) <= len (vertices q)
  /\ sumZ (map cmdNumIndices (commands q)) <= len (indices q).
Proof.
  intros (Hv & Hi & Hall & _). split; [exact Hall|]. rewrite Hv, Hi. lia.
Qed.

(** What [flush], and [Flush], do on a queue that satisfies the invariant. *)
Lemma flush_safe (drv : driver) (q : commandQueue) (endFrame : bool) (tr : trace) :
  queueInv q ->
  exists e q' calls,
    flush drv q endFrame tr = (Ret e, q', tr ++ calls)
    /\ drawsWithinUpload None calls
    /\ (e = None -> ~ (commands q = [] /\ endFrame = false) ->
        exists mid,
          calls = Begin :: mid ++ [End endFrame]
          /\ map eraseOffset (filter notSetVertices mid)
             = flat_map commandCalls (commands q)
          /\ sumZ (map drawnIndices mid) = len (indices q)).
Proof.
  intros Hinv. pose proof Hinv as (_ & Hi & _).
  destruct (queueInv_withinCeiling q Hinv) as (Hall & Hv & He).
  unfold flush.
  destruct ((len (commands q) =? 0) && negb endFrame) eqn:Hcond.
  - apply andb_true_iff in Hcond. destruct Hcond as [H1 H2].
    apply Z.eqb_eq in H1. apply len_zero_nil in H1. destruct endFrame; [discriminate|].
    exists None, q, []. rewrite app_nil_r. split; [reflexivity|]. split; [exact I|].
    intros _ Hn. exfalso. apply Hn. auto.
  - cbn [invoke].
    destruct (answer drv tr Begin) as [err|].
    + exists (Some err), q, [Begin]. split; [reflexivity|]. split; [exact I|discriminate].
    + destruct (flushChunks_safe drv (List.length (commands q)) (commands q)
                  (vertices q) (indices q) (tr ++ [Begin]) None
                  (le_n _) Hall Hv He) as (e & mid & E & Hw & Hf).
      rewrite E.
      exists (match e with None => answer drv ((tr ++ [Begin]) ++ mid) (End endFrame)
                         | Some _ => e end).
      eexists. exists (Begin :: mid ++ [End endFrame]).
      split.
      { destruct e as [err|]; rewrite <- !app_assoc; reflexivity. }
      split.
      { cbn [drawsWithinUpload]. apply drawsWithinUpload_app. split; [exact Hw|exact I]. }
      intros Hnone _. exists mid. split; [reflexivity|].
      destruct e as [err|]; [discriminate|].
      destruct (Hf eq_refl) as [H1 H2]. split; [exact H1|]. rewrite H2, Hi. reflexivity.
Qed.

Lemma Flush_safe (drv : driver) (q : commandQueue) (endFrame : bool) (tr : trace) :
  queueInv q ->
  exists e q' calls,
    Flush drv q endFrame tr = (Ret e, q', tr ++ calls)
    /\ drawsWithinUpload None calls
    /\ (e = None -> ~ (commands q = [] /\ endFrame = false) ->
        exists mid,
          calls = Begin :: mid ++ [End endFrame]
          /\ map eraseOffset (filter notSetVertices mid)
             = flat_map commandCalls (commands q)
          /\ sumZ (map drawnIndices mid) = len (indices q)).
Proof.
  intros Hinv.
  destruct (flush_safe drv q endFrame tr Hinv) as (e & q' & calls & E & Hw & Hf).
  unfold Flush. rewrite E.
  exists e. eexists. exists calls. split; [reflexivity|]. split; [exact Hw|exact Hf].
Qed.

Lemma release_count (cs : list command) :
  forall p, len p <= 1024 ->
    len (release cs p) = Z.min 1024 (len p + len (filter isDraw cs)).
Proof.
  unfold release.
  induction cs as [|c cs IH]; intros p Hp.
  - cbn [fold_left filter]. rewrite len_nil. lia.
  - cbn [fold_left filter].
    destruct c as [d| | | | | | |]; cbn [isDraw];
      try (rewrite IH by exact Hp; reflexivity).
    rewrite len_cons.
    assert (Hput : len (pool_put p d) = Z.min 1024 (len p + 1)).
    { unfold pool_put. destruct (Z.geb_spec (len p) 1024); [lia|].
      rewrite len_app, len_cons, len_nil. lia. }
    rewrite IH by (rewrite Hput; lia). rewrite Hput.
    pose proof (len_nonneg (filter isDraw cs)). lia.
Qed.

(** ** The merge predicate and the bounding box *)

(** X16.  The overlap test of two vertex lists does not depend on their order. *)
Theorem mightOverlapDstRegions_symmetric (vertices1 vertices2 : list float32) :
  mightOverlapDstRegions vertices1 vertices2
  = mightOverlapDstRegions vertices2 vertices1.
Proof.
  unfold mightOverlapDstRegions.
  destruct (dstRegionFromVertices vertices1) as [[[minX1 minY1] maxX1] maxY1].
  destruct (dstRegionFromVertices vertices2) as [[[minX2 minY2] maxX2] maxY2].
  destruct (ltb minX1 (add maxX2 mergin)), (ltb minX2 (add maxX1 mergin)),
    (ltb minY1 (add maxY2 mergin)), (ltb minY2 (add maxY1 mergin)); reflexivity.
Qed.

Lemma dstRegionFromVertices_short (vs : list float32) :
  len vs < VertexFloatCount ->
  dstRegionFromVertices vs = (posInf, posInf, negInf, negInf).
Proof.
  intros H. unfold dstRegionFromVertices.
  assert (E : len vs / VertexFloatCount = 0).
  { apply Z.div_small. pose proof (len_nonneg vs). lia. }
  rewrite E. reflexivity.
Qed.

(** X17.  A vertex list with fewer than 8 floats holds no vertex: its bounding
    box is empty and the overlap test with any other list answers false. *)
Theorem mightOverlapDstRegions_without_vertex (vertices1 vertices2 : list float32) :
  len vertices1 < VertexFloatCount \/ len vertices2 < VertexFloatCount ->
  mightOverlapDstRegions vertices1 vertices2 = false.
Proof.
  intros [H|H]; unfold mightOverlapDstRegions.
  - rewrite (dstRegionFromVertices_short vertices1 H).
    destruct (dstRegionFromVertices vertices2) as [[[minX2 minY2] maxX2] maxY2].
    rewrite ltb_posInf. reflexivity.
  - rewrite (dstRegionFromVertices_short vertices2 H).
    destruct (dstRegionFromVertices vertices1) as [[[minX1 minY1] maxX1] maxY1].
    rewrite (ltb_posInf (add maxX1 mergin)).
    destruct (ltb minX1 (add negInf mergin)); reflexivity.
Qed.

Lemma mightOverlapDstRegions_without_vertex_witness :
  mightOverlapDstRegions [] (repeat (of_int 3) 16) = false.
Proof.
  apply (mightOverlapDstRegions_without_vertex [] (repeat (of_int 3) 16)).
  left. reflexivity.
Defined.

(** X18.  For a vertex list with at least one vertex, all of whose x and y are
    finite binary32 numbers, [dstRegionFromVertices] returns coordinates of
    vertices of the list, and every vertex has its x between the two x
    returned and its y between the two y returned. *)
Theorem dstRegionFromVertices_encloses (vs : list float32) :
  VertexFloatCount <= len vs ->
  Forall real (coordinates 0 vs) -> Forall real (coordinates 1 vs) ->
  let '(minX, minY, maxX, maxY) := dstRegionFromVertices vs in
  In minX (coordinates 0 vs) /\ In maxX (coordinates 0 vs)
  /\ In minY (coordinates 1 vs) /\ In maxY (coordinates 1 vs)
  /\ Forall (fun x => (value minX <= value x <= value maxX)%Q) (coordinates 0 vs)
  /\ Forall (fun y => (value minY <= value y <= value maxY)%Q) (coordinates 1 vs).
Proof.
  intros Hlen Hx Hy.
  rewrite dstRegionFromVertices_boundingBox. unfold boundingBox.
  assert (Hne : forall k, coordinates k vs <> []).
  { intros k. unfold coordinates.
    assert (1 <= len vs / VertexFloatCount)
      by (apply Z.div_le_lower_bound; unfold VertexFloatCount in *; lia).
    destruct (Z.to_nat (len vs / VertexFloatCount)) as [|n] eqn:E; [lia|].
    cbn [seq map]. discriminate. }
  destruct (least_coordinate _ (Hne 0%nat) Hx) as [I1 A1].
  destruct (greatest_coordinate _ (Hne 0%nat) Hx) as [I2 A2].
  destruct (least_coordinate _ (Hne 1%nat) Hy) as [I3 A3].
  destruct (greatest_coordinate _ (Hne 1%nat) Hy) as [I4 A4].
  split; [exact I1|]. split; [exact I2|]. split; [exact I3|]. split; [exact I4|].
  rewrite Forall_forall in A1, A2, A3, A4.
  split; apply Forall_forall; intros x Hin; split; auto.
Qed.

Lemma dstRegionFromVertices_encloses_witness :
  let '(minX, minY, maxX, maxY) :=
    dstRegionFromVertices
      [of_int 3; of_int 1; zero; zero; zero; zero; zero; zero;
       of_int (-2); of_int 5; zero; zero; zero; zero; zero; zero; of_int 9] in
  In minX (coordinates 0
             [of_int 3; of_int 1; zero; zero; zero; zero; zero; zero;
              of_int (-2); of_int 5; zero; zero; zero; zero; zero; zero; of_int 9])
  /\ In maxX (coordinates 0
                [of_int 3; of_int 1; zero; zero; zero; zero; zero; zero;
                 of_int (-2); of_int 5; zero; zero; zero; zero; zero; zero; of_int 9])
  /\ In minY (coordinates 1
                [of_int 3; of_int 1; zero; zero; zero; zero; zero; zero;
                 of_int (-2); of_int 5; zero; zero; zero; zero; zero; zero; of_int 9])
  /\ In maxY (coordinates 1
                [of_int 3; of_int 1; zero; zero; zero; zero; zero; zero;
                 of_int (-2); of_int 5; zero; zero; zero; zero; zero; zero; of_int 9])
  /\ Forall (fun x => (value minX <= value x <= value maxX)%Q)
       (coordinates 0
          [of_int 3; of_int 1; zero; zero; zero; zero; zero; zero;
           of_int (-2); of_int 5; zero; zero; zero; zero; zero; zero; of_int 9])
  /\ Forall (fun y => (value minY <= value y <= value maxY)%Q)
       (coordinates 1
          [of_int 3; of_int 1; zero; zero; zero; zero; zero; zero;
           of_int (-2); of_int 5; zero; zero; zero; zero; zero; zero; of_int 9]).
Proof.
  apply (dstRegionFromVertices_encloses
           [of_int 3; of_int 1; zero; zero; zero; zero; zero; zero;
            of_int (-2); of_int 5; zero; zero; zero; zero; zero; zero; of_int 9]).
  - vm_compute. discriminate.
  - vm_compute. repeat constructor.
  - vm_compute. repeat constructor.
Defined.

Lemma neqb_nan_r (x : float32) : neqb x S754_nan = true.
Proof. destruct x as [s|s| |s m e]; reflexivity. Qed.

Lemma neqb_nan_l (x : float32) : neqb S754_nan x = true.
Proof. destruct x as [s|s| |s m e]; reflexivity. Qed.

Lemma sameFloats_nan (a : list float32) :
  forall b, List.length a = List.length b ->
    In S754_nan a \/ In S754_nan b -> sameFloats a b = false.
Proof.
  induction a as [|x a IH]; intros b Hlen Hin.
  - destruct b; [|discriminate]. destruct Hin as [[]|[]].
  - destruct b as [|y b]; [discriminate|]. cbn [sameFloats].
    destruct (neqb x y) eqn:E; [reflexivity|].
    apply IH; [cbn in Hlen; lia|].
    destruct Hin as [[->|Hin]|[->|Hin]]; auto.
    + rewrite neqb_nan_l in E. discriminate.
    + rewrite neqb_nan_r in E. discriminate.
Qed.

Lemma sameUniforms_nan (a : list (list float32)) :
  forall b, List.length a = List.length b ->
    In S754_nan (List.concat a) \/ In S754_nan (List.concat b) ->
    sameUniforms a b = false.
Proof.
  induction a as [|u a IH]; intros b Hlen Hin.
  - destruct b; [|discriminate]. destruct Hin as [[]|[]].
  - destruct b as [|w b]; [discriminate|]. cbn [sameUniforms].
    match goal with
    | |- context [negb (?x =? ?y)] => destruct (Z.eqb_spec x y) as [El|]
    end; [|reflexivity]. cbn [negb].
    destruct (sameFloats u w) eqn:Es; [|reflexivity]. cbn [negb].
    apply IH; [cbn in Hlen; lia|].
    cbn [List.concat] in Hin. rewrite !in_app_iff in Hin.
    destruct Hin as [[Hin|Hin]|[Hin|Hin]]; auto.
    + rewrite sameFloats_nan in Es; [discriminate|apply Nat2Z.inj; exact El|auto].
    + rewrite sameFloats_nan in Es; [discriminate|apply Nat2Z.inj; exact El|auto].
Qed.

(** X19.  A draw is never merged when a NaN is among its uniform values or
    among those of the last command, even when the two lists are the same:
    a NaN differs from every float. *)
Theorem CanMergeWithDrawTrianglesCommand_rejects_NaN (c : drawTrianglesCommand)
    (dst : Image) (srcs : Srcs) (vs : list float32) (blend : Blend)
    (dstRegion : Region) (shader : Shader) (uniforms : list (list float32))
    (evenOdd : bool) :
  In S754_nan (List.concat (c_uniforms c)) \/ In S754_nan (List.concat uniforms) ->
  CanMergeWithDrawTrianglesCommand c dst srcs vs blend dstRegion shader uniforms evenOdd
  = false.
Proof.
  intros Hin. unfold CanMergeWithDrawTrianglesCommand.
  destruct (Pos.eqb (c_shader c) shader); [|reflexivity]. cbn [negb].
  destruct (Z.eqb_spec (len (c_uniforms c)) (len uniforms)) as [El|]; [|reflexivity].
  cbn [negb].
  rewrite sameUniforms_nan; [reflexivity|apply Nat2Z.inj; exact El|exact Hin].
Qed.

Lemma CanMergeWithDrawTrianglesCommand_rejects_NaN_witness :
  CanMergeWithDrawTrianglesCommand
    {| c_dst := 1%positive; c_srcs := (None, None, None, None);
       c_vertices := []; c_nindices := 3;
       c_blend := Build_Blend 1 1 0 0 0 0;
       c_dstRegion := Build_Region zero zero zero zero;
       c_shader := 1%positive; c_uniforms := [[S754_nan]]; c_evenOdd := false |}
    1%positive (None, None, None, None) [] (Build_Blend 1 1 0 0 0 0)
    (Build_Region zero zero zero zero) 1%positive [[S754_nan]] false
  = false.
Proof.
  apply CanMergeWithDrawTrianglesCommand_rejects_NaN. left. left. reflexivity.
Defined.

(** ** Executing a command *)


(** ** The scratch buffer of uniform values *)

Lemma roundUpPower2_loop_spec (x : Z) (fuel : nat) :
  forall j, 0 <= j -> x <= j + Z.of_nat fuel ->
    exists k, j <= k
              /\ roundUpPower2_loop fuel (2 ^ j) x = 2 ^ k
              /\ x <= 2 ^ k
              /\ (j < k -> 2 ^ (k - 1) < x).
Proof.
  induction fuel as [|fuel IH]; intros j Hj Hx.
  - exists j. pose proof (Z.pow_gt_lin_r 2 j ltac:(lia) Hj).
    cbn [roundUpPower2_loop]. split; [lia|]. split; [reflexivity|]. split; lia.
  - cbn [roundUpPower2_loop].
    destruct (Z.ltb_spec (2 ^ j) x) as [Hlt|Hge].
    + replace (2 ^ j * 2) with (2 ^ (j + 1)) by (rewrite Z.pow_add_r by lia; lia).
      destruct (IH (j + 1) ltac:(lia) ltac:(lia)) as (k & Hk & E & Hle & Hm).
      exists k. split; [lia|]. split; [exact E|]. split; [exact Hle|].
      intros _. destruct (Z.eq_dec k (j + 1)) as [->|Hne].
      * replace (j + 1 - 1) with j by lia. exact Hlt.
      * apply Hm. lia.
    + exists j. split; [lia|]. split; [reflexivity|]. split; [exact Hge|lia].
Qed.

Lemma roundUpPower2_spec (x : Z) :
  exists k, 0 <= k /\ roundUpPower2 x = 2 ^ k /\ x <= 2 ^ k
            /\ (0 < k -> 2 ^ (k - 1) < x).
Proof.
  unfold roundUpPower2.
  destruct (roundUpPower2_loop_spec x (Z.to_nat x) 0 ltac:(lia) ltac:(lia))
    as (k & Hk & E & Hle & Hm).
  change (2 ^ 0) with 1 in E. exists k. auto.
Qed.

(** X20.  For an argument of at most 2^62, [roundUpPower2] returns the least
    power of two that is not below it; it is 1 for every argument up to 1. *)
Theorem roundUpPower2_least (x : Z) :
  x <= 2 ^ 62 ->
  exists k, 0 <= k <= 62
            /\ roundUpPower2 x = 2 ^ k
            /\ x <= 2 ^ k
            /\ (0 < k -> 2 ^ (k - 1) < x).
Proof.
  intros Hx. unfold roundUpPower2.
  destruct (roundUpPower2_loop_spec x (Z.to_nat x) 0 ltac:(lia) ltac:(lia))
    as (k & Hk & E & Hle & Hm).
  change (2 ^ 0) with 1 in E.
  exists k. split; [|auto].
  split; [lia|].
  destruct (Z.le_gt_cases k 62) as [H|H]; [exact H|]. exfalso.
  specialize (Hm ltac:(lia)).
  assert (2 ^ 62 <= 2 ^ (k - 1)) by (apply Z.pow_le_mono_r; lia). lia.
Qed.

Lemma roundUpPower2_least_witness :
  exists k, 0 <= k <= 62
            /\ roundUpPower2 40 = 2 ^ k
            /\ 40 <= 2 ^ k
            /\ (0 < k -> 2 ^ (k - 1) < 40).
Proof. apply (roundUpPower2_least 40). vm_compute. discriminate. Defined.

Lemma len_repeat {A : Type} (x : A) (n : nat) : len (repeat x n) = Z.of_nat n.
Proof. unfold len. rewrite repeat_length. reflexivity. Qed.

Lemma firstn_repeat_le {A : Type} (x : A) (n : nat) :
  forall m, (n <= m)%nat -> firstn n (repeat x m) = repeat x n.
Proof.
  induction n as [|n IH]; intros m H; [reflexivity|].
  destruct m as [|m]; [lia|]. cbn [repeat firstn]. rewrite IH by lia. reflexivity.
Qed.

(** X21.  [allocFloat32s], on a buffer whose length is within its capacity
    and for a request that brings the length to at most 2^30 floats (where
    the doubling of [roundUpPower2] does not wrap and the 4 GiB asked of
    [make] are far below the 2^48 bytes the runtime allocates on amd64),
    returns a slice of exactly [n] floats that lies within the
    capacity and starts where the buffer ended; the commands, vertices and
    indices are untouched.  When the [n] floats fit, the array is kept, with
    what it held.  When they do not, a new zero-filled array is made, of the
    least power of two that holds the old length and [n] floats and of no
    less than 16, and the buffer restarts at 0. *)
Theorem allocFloat32s_contract (q : commandQueue) (n : Z) :
  0 <= n -> 0 <= used (float32sBuffer q) <= len (arr (float32sBuffer q)) ->
  used (float32sBuffer q) + n <= 2 ^ 30 ->
  exists p s q',
    allocFloat32s q n = (p, s, q')
    /\ len s = n /\ 0 <= p
    /\ used (float32sBuffer q') = p + n
    /\ p + n <= len (arr (float32sBuffer q'))
    /\ s = firstn (Z.to_nat n) (skipn (Z.to_nat p) (arr (float32sBuffer q')))
    /\ commands q' = commands q /\ vertices q' = vertices q /\ indices q' = indices q
    /\ ((used (float32sBuffer q) + n <= len (arr (float32sBuffer q))
         /\ p = used (float32sBuffer q)
         /\ arr (float32sBuffer q') = arr (float32sBuffer q))
        \/ (len (arr (float32sBuffer q)) < used (float32sBuffer q) + n
            /\ p = 0 /\ s = repeat zero (Z.to_nat n)
            /\ exists k, 0 <= k <= 30
                 /\ arr (float32sBuffer q') = repeat zero (Z.to_nat (Z.max (2 ^ k) 16))
                 /\ used (float32sBuffer q) + n <= 2 ^ k
                 /\ (0 < k -> 2 ^ (k - 1) < used (float32sBuffer q) + n))).
Proof.
  intros Hn Hu Hcap30. unfold allocFloat32s.
  set (b := float32sBuffer q) in *.
  destruct (Z.gtb_spec (used b + n) (len (arr b))) as [Hgrow|Hfit].
  - destruct (roundUpPower2_spec (used b + n)) as (k & Hk & E & Hle & Hm).
    assert (Hk30 : k <= 30).
    { destruct (Z.le_gt_cases k 30) as [H|H]; [exact H|]. exfalso.
      specialize (Hm ltac:(lia)).
      assert (2 ^ 30 <= 2 ^ (k - 1)) by (apply Z.pow_le_mono_r; lia). lia. }
    assert (Emax : GraphicsCommand.max (roundUpPower2 (used b + n)) 16
                   = Z.max (2 ^ k) 16).
    { unfold GraphicsCommand.max. rewrite E.
      destruct (Z.ltb_spec (2 ^ k) 16); lia. }
    rewrite Emax. cbn [used arr].
    set (cap := Z.max (2 ^ k) 16) in *.
    assert (Hcap : n <= cap) by lia.
    assert (Es : firstn (Z.to_nat n) (skipn (Z.to_nat 0) (repeat zero (Z.to_nat cap)))
                 = repeat zero (Z.to_nat n)).
    { cbn [Z.to_nat skipn]. apply firstn_repeat_le. lia. }
    eexists _, _, _. split; [reflexivity|].
    cbn [float32sBuffer setFloat32sBuffer used arr commands vertices indices].
    rewrite Es. split; [rewrite len_repeat; lia|]. split; [lia|].
    split; [reflexivity|]. split; [rewrite len_repeat; lia|].
    split; [reflexivity|]. do 3 (split; [reflexivity|]).
    right. split; [lia|]. split; [reflexivity|]. split; [reflexivity|].
    exists k. split; [lia|]. auto.
  - eexists _, _, _. split; [reflexivity|].
    cbn [float32sBuffer setFloat32sBuffer used arr commands vertices indices].
    split.
    { unfold len. rewrite length_firstn, length_skipn. unfold len in *. lia. }
    split; [lia|]. split; [reflexivity|]. split; [lia|].
    split; [reflexivity|]. do 3 (split; [reflexivity|]).
    left. auto.
Qed.

Lemma allocFloat32s_contract_witness :
  exists p s q',
    allocFloat32s theCommandQueue 2 = (p, s, q')
    /\ len s = 2 /\ 0 <= p
    /\ used (float32sBuffer q') = p + 2
    /\ p + 2 <= len (arr (float32sBuffer q'))
    /\ s = firstn (Z.to_nat 2) (skipn (Z.to_nat p) (arr (float32sBuffer q')))
    /\ commands q' = commands theCommandQueue
    /\ vertices q' = vertices theCommandQueue
    /\ indices q' = indices theCommandQueue
    /\ ((used (float32sBuffer theCommandQueue) + 2
         <= len (arr (float32sBuffer theCommandQueue))
         /\ p = used (float32sBuffer theCommandQueue)
         /\ arr (float32sBuffer q') = arr (float32sBuffer theCommandQueue))
        \/ (len (arr (float32sBuffer theCommandQueue))
            < used (float32sBuffer theCommandQueue) + 2
            /\ p = 0 /\ s = repeat zero (Z.to_nat 2)
            /\ exists k, 0 <= k <= 30
                 /\ arr (float32sBuffer q') = repeat zero (Z.to_nat (Z.max (2 ^ k) 16))
                 /\ used (float32sBuffer theCommandQueue) + 2 <= 2 ^ k
                 /\ (0 < k -> 2 ^ (k - 1) < used (float32sBuffer theCommandQueue) + 2))).
Proof.
  apply (allocFloat32s_contract theCommandQueue 2).
  - lia.
  - vm_compute. split; discriminate.
  - vm_compute. discriminate.
Defined.

Lemma allocFloat32s_len (q : commandQueue) (n : Z) (p : Z) (s : list float32)
    (q' : commandQueue) :
  0 <= n -> 0 <= used (float32sBuffer q) ->
  allocFloat32s q n = (p, s, q') ->
  len s = n /\ 0 <= used (float32sBuffer q').
Proof.
  intros Hn Hu E. unfold allocFloat32s in E.
  set (b := float32sBuffer q) in *.
  destruct (Z.gtb_spec (used b + n) (len (arr b))) as [Hgrow|Hfit].
  - destruct (roundUpPower2_spec (used b + n)) as (k & Hk & Ek & Hle & Hm).
    cbn [used arr] in E. injection E as <- <- <-.
    cbn [float32sBuffer setFloat32sBuffer used]. split; [|lia].
    cbn [Z.to_nat skipn]. rewrite firstn_repeat_le, len_repeat; [lia|].
    unfold GraphicsCommand.max. rewrite Ek. destruct (Z.ltb_spec (2 ^ k) 16); lia.
  - injection E as <- <- <-.
    cbn [float32sBuffer setFloat32sBuffer used]. split; [|lia].
    unfold len. rewrite length_firstn, length_skipn. unfold len in *. lia.
Qed.

(** ** Enqueueing and flushing *)

(** X23.  After a [Flush] that found the queue empty or whose [Begin] succeeded,
    a [Flush] that does not end the frame makes no call on the driver and
    leaves the queue as it is. *)
Theorem Flush_again_does_nothing (drv : driver) (q : commandQueue)
    (endFrame : bool) (tr : trace) (e : option error) (q' : commandQueue)
    (tr' : trace) (drv2 : driver) (tr2 : trace) :
  Flush drv q endFrame tr = (Ret e, q', tr') ->
  commands q = [] \/ answer drv tr Begin = None ->
  Flush drv2 q' false tr2 = (Ret None, q', tr2).
Proof.
  intros E Hor.
  assert (Hc : commands q' = []).
  { unfold Flush, flush in E.
    destruct ((len (commands q) =? 0) && negb endFrame) eqn:Hcond.
    - apply andb_true_iff in Hcond. destruct Hcond as [H1 H2].
      apply Z.eqb_eq in H1. apply len_zero_nil in H1.
      destruct endFrame; [discriminate|]. injection E as _ <- _. exact H1.
    - cbn [invoke] in E.
      destruct (answer drv tr Begin) as [err|] eqn:Eb.
      + destruct Hor as [Hnil|Hb]; [|discriminate].
        destruct endFrame; injection E as _ <- _; exact Hnil.
      + destruct (flushChunks _ _ _ _ _ _) as [rb tr3].
        destruct rb as [[err|]| |]; [| destruct (answer drv tr3 (End endFrame)) | |];
          try discriminate E;
          destruct endFrame; injection E as _ <- _; reflexivity. }
  unfold Flush, flush. rewrite Hc. reflexivity.
Qed.

Lemma Flush_again_does_nothing_witness :
  Flush (fun _ _ => Some "device lost"%string)
    (snd (fst (Flush (fun _ _ => None)
                 (Enqueue theCommandQueue (disposeImage 1%positive)) true [])))
    false [Begin]
  = (Ret None,
     snd (fst (Flush (fun _ _ => None)
                 (Enqueue theCommandQueue (disposeImage 1%positive)) true [])),
     [Begin]).
Proof.
  apply (Flush_again_does_nothing (fun _ _ => None)
           (Enqueue theCommandQueue (disposeImage 1%positive)) true [] None
           (snd (fst (Flush (fun _ _ => None)
                        (Enqueue theCommandQueue (disposeImage 1%positive)) true [])))
           (snd (Flush (fun _ _ => None)
                   (Enqueue theCommandQueue (disposeImage 1%positive)) true []))).
  - vm_compute. reflexivity.
  - right. reflexivity.
Defined.

Section QueueCoverage.

Variable InternalSize : Image -> Z * Z.
Variable FilterUniformVariables : Shader -> list (list float32) -> list (list float32).

(** X8.  In every state the queue can reach, the vertex array is the vertices
    of the queued draws one after the other, the index array has as many
    elements as the draws have indices, no command is beyond the ceiling of
    65535 indices, and an empty queue has its chunk counters at zero. *)
Theorem reachable_queue_consistent (q : commandQueue) :
  reachable InternalSize FilterUniformVariables q ->
  vertices q = flat_map cmdVertices (commands q)
  /\ len (indices q) = sumZ (map cmdNumIndices (commands q))
  /\ Forall (fun c => 0 <= cmdNumIndices c <= IndicesCount) (commands q)
  /\ (commands q = [] -> tmpNumVertexFloats q = 0 /\ tmpNumIndices q = 0).
Proof.
  intros Hr. apply reachable_queueInv in Hr.
  destruct Hr as (H1 & H2 & H3 & _ & _ & _ & _ & H8). auto.
Qed.

(** X9.  On a queue the program can reach, a draw of at most 65535 indices is
    always accepted: the call returns, with no panic on the slice bounds; the
    vertices are appended to the vertex array and as many indices as given to
    the index array; and the draw is a new last command, or the last command
    takes its vertices and its indices. *)
Theorem EnqueueDrawTrianglesCommand_accepts (q : commandQueue) (dst : Image)
    (srcs : Srcs) (offsets : Offsets) (vs : list float32) (es : list Z)
    (blend : Blend) (dstRegion srcRegion : Region) (shader : Shader)
    (uniforms : list (list float32)) (evenOdd : bool) :
  reachable InternalSize FilterUniformVariables q ->
  len es <= IndicesCount ->
  exists q',
    EnqueueDrawTrianglesCommand InternalSize FilterUniformVariables q dst srcs
      offsets vs es blend dstRegion srcRegion shader uniforms evenOdd = Ret q'
    /\ vertices q' = vertices q ++ vs
    /\ len (indices q') = len (indices q) + len es
    /\ ((exists c, commands q' = commands q ++ [drawTriangles c]
                   /\ c_vertices c = vs /\ c_nindices c = len es)
        \/ (exists cs last last',
              commands q = cs ++ [drawTriangles last]
              /\ commands q' = cs ++ [drawTriangles last']
              /\ c_vertices last' = c_vertices last ++ vs
              /\ c_nindices last' = c_nindices last + len es)).
Proof.
  intros Hr Hes. apply reachable_queueInv in Hr.
  destruct (EnqueueDrawTrianglesCommand_spec InternalSize FilterUniformVariables
              q dst srcs offsets vs es blend dstRegion srcRegion shader uniforms
              evenOdd Hr Hes) as (q' & E & Hv & Hi & _ & _ & _ & Hc).
  exists q'. split; [exact E|]. split; [exact Hv|]. split.
  - rewrite Hi. unfold appendIndices. rewrite len_app, len_map. reflexivity.
  - destruct Hc as [Hc|[_ Hc]]; [left; exact Hc|right; exact Hc].
Qed.

(** X10.  When every index of a draw names one of the vertices of the draw,
    the indices are appended with the number of vertices of the chunk added
    to each, and no sum wraps around: every one is below the number of
    vertices of the chunk, and below 2^16. *)
Theorem EnqueueDrawTrianglesCommand_rebases_without_wrap (q : commandQueue)
    (dst : Image) (srcs : Srcs) (offsets : Offsets) (vs : list float32)
    (es : list Z) (blend : Blend) (dstRegion srcRegion : Region) (shader : Shader)
    (uniforms : list (list float32)) (evenOdd : bool) :
  reachable InternalSize FilterUniformVariables q ->
  len es <= IndicesCount ->
  Forall (fun e => 0 <= e < 2 ^ 16 /\ e < len vs / VertexFloatCount) es ->
  exists q' o,
    EnqueueDrawTrianglesCommand InternalSize FilterUniformVariables q dst srcs
      offsets vs es blend dstRegion srcRegion shader uniforms evenOdd = Ret q'
    /\ o = (tmpNumVertexFloats q' - len vs) / VertexFloatCount
    /\ 0 <= o
    /\ indices q' = indices q ++ map (fun e => e + o) es
    /\ Forall (fun e => e + o < tmpNumVertexFloats q' / VertexFloatCount
                        /\ e + o < 2 ^ 16) es.
Proof.
  intros Hr Hes Hvalid. apply reachable_queueInv in Hr.
  destruct (EnqueueDrawTrianglesCommand_spec InternalSize FilterUniformVariables
              q dst srcs offsets vs es blend dstRegion srcRegion shader uniforms
              evenOdd Hr Hes) as (q' & E & _ & Hi & Hv & _ & _ & _).
  destruct Hr as (_ & _ & _ & _ & Htmp & _).
  cbv zeta in Hi, Hv.
  set (split := mustUseDifferentVertexBuffer (tmpNumVertexFloats q + len vs)
                  (tmpNumIndices q + len es)) in *.
  set (tmpV := if split then 0 else tmpNumVertexFloats q) in *.
  pose proof (len_nonneg vs) as Hlv.
  assert (HtmpV : 0 <= tmpV /\ (split = false -> tmpV + len vs <= 65535 * 8)).
  { unfold tmpV. destruct split eqn:Hs; [split; [lia|discriminate]|].
    split; [exact Htmp|]. intros _.
    apply mustUseDifferentVertexBuffer_false in Hs. destruct Hs as [Hs _].
    exact Hs. }
  destruct HtmpV as [HtV0 HtV1].
  exists q', (tmpV / VertexFloatCount).
  split; [exact E|].
  split; [rewrite Hv; f_equal; lia|].
  unfold VertexFloatCount in *.
  split; [apply Z.div_pos; lia|].
  assert (Ho : uint16 (tmpV / 8) = tmpV / 8).
  { unfold uint16. apply Z.mod_small. split; [apply Z.div_pos; lia|].
    destruct split eqn:Hs.
    - unfold tmpV. cbn. lia.
    - specialize (HtV1 eq_refl). apply Z.div_lt_upper_bound; lia. }
  assert (Hin : Forall (fun e => e + tmpV / 8 < (tmpV + len vs) / 8
                                 /\ e + tmpV / 8 < 2 ^ 16) es).
  { eapply Forall_impl; [|exact Hvalid]. cbv beta. intros e [[He0 He1] He2].
    assert (Hsum : tmpV / 8 + len vs / 8 <= (tmpV + len vs) / 8).
    { pose proof (Z.div_mod tmpV 8 ltac:(lia)).
      pose proof (Z.div_mod (len vs) 8 ltac:(lia)).
      pose proof (Z.mod_pos_bound tmpV 8 ltac:(lia)).
      pose proof (Z.mod_pos_bound (len vs) 8 ltac:(lia)).
      apply Z.div_le_lower_bound; lia. }
    split; [lia|].
    destruct split eqn:Hs.
    - unfold tmpV. cbn. lia.
    - specialize (HtV1 eq_refl).
      assert ((tmpV + len vs) / 8 <= 65535)
        by (apply Z.div_le_upper_bound; lia).
      lia. }
  split.
  - rewrite Hi. unfold appendIndices. f_equal. rewrite Ho.
    apply map_ext_in. intros e He.
    rewrite Forall_forall in Hin, Hvalid.
    destruct (Hin e He) as [_ H2]. destruct (Hvalid e He) as [[H0 _] _].
    unfold uint16. apply Z.mod_small.
    assert (0 <= tmpV / 8) by (apply Z.div_pos; lia). lia.
  - rewrite Hv. exact Hin.
Qed.


(** X12.  Whatever the driver answers, every [DrawTriangles] call of a flush
    comes after a [SetVertices] call of the same flush, draws at least one
    index, and its range of indices lies within the index buffer of the last
    such call. *)
Theorem Flush_draws_within_upload (q : commandQueue) (drv : driver)
    (endFrame : bool) (tr : trace) :
  reachable InternalSize FilterUniformVariables q ->
  exists calls,
    snd (Flush drv q endFrame tr) = tr ++ calls
    /\ drawsWithinUpload None calls.
Proof.
  intros Hr. apply reachable_queueInv in Hr.
  destruct (Flush_safe drv q endFrame tr Hr) as (e & q' & calls & E & Hw & _).
  exists calls. rewrite E. split; [reflexivity|exact Hw].
Qed.

(** X13.  When [Flush] returns nil, it has called [Begin], then executed
    every queued command exactly once and in the order of the queue, with
    uploads in between, then [End]; and the draw calls draw as many indices
    as the index array held. *)
Theorem Flush_executes_in_order (q : commandQueue) (drv : driver)
    (endFrame : bool) (tr : trace) (q' : commandQueue) (tr' : trace) :
  reachable InternalSize FilterUniformVariables q ->
  Flush drv q endFrame tr = (Ret None, q', tr') ->
  ~ (commands q = [] /\ endFrame = false) ->
  exists mid,
    tr' = tr ++ Begin :: mid ++ [End endFrame]
    /\ map eraseOffset (filter notSetVertices mid) = flat_map commandCalls (commands q)
    /\ sumZ (map drawnIndices mid) = len (indices q).
Proof.
  intros Hr E Hne. apply reachable_queueInv in Hr.
  destruct (Flush_safe drv q endFrame tr Hr) as (e & q1 & calls & E1 & _ & Hf).
  rewrite E in E1. injection E1 as <- _ ->.
  destruct (Hf eq_refl Hne) as (mid & -> & H1 & H2).
  exists mid. auto.
Qed.

(** X14.  A [Flush] whose [Begin] succeeded returns every queued draw to the
    free list, until the list holds 1024: its length is the least of 1024 and
    of the former length plus the number of queued draws. *)
Theorem Flush_returns_draws_to_pool (q : commandQueue) (drv : driver)
    (endFrame : bool) (tr : trace) (r : outcome (option error))
    (q' : commandQueue) (tr' : trace) :
  reachable InternalSize FilterUniformVariables q ->
  Flush drv q endFrame tr = (r, q', tr') ->
  answer drv tr Begin = None ->
  ~ (commands q = [] /\ endFrame = false) ->
  len (pool q') = Z.min 1024 (len (pool q) + len (filter isDraw (commands q))).
Proof.
  intros Hr E Hb Hne. apply reachable_queueInv in Hr.
  destruct Hr as (_ & _ & _ & Hp & _).
  unfold Flush, flush in E.
  destruct ((len (commands q) =? 0) && negb endFrame) eqn:Hcond.
  { exfalso. apply Hne. apply andb_true_iff in Hcond. destruct Hcond as [H1 H2].
    apply Z.eqb_eq in H1. apply len_zero_nil in H1. destruct endFrame; [discriminate|].
    auto. }
  cbn [invoke] in E. rewrite Hb in E.
  destruct (flushChunks _ _ _ _ _ _) as [rb tr2].
  assert (Epool : pool q' = release (commands q) (pool q)).
  { destruct rb as [[e|]| |]; [| destruct (answer drv tr2 (End endFrame)) | |];
      destruct endFrame; injection E as <- <- <-; reflexivity. }
  rewrite Epool. apply release_count. exact Hp.
Qed.

(** ** Preserved uniform variables *)

Lemma setSourceSizes_values (s0 s1 s2 s3 : option Image)
    (a0 a1 a2 a3 a4 a5 a6 a7 : float32) (i : nat) (im : Image) :
  nth_error [s0; s1; s2; s3] i = Some (Some im) ->
  let usizes := setSourceSizes InternalSize [s0; s1; s2; s3]
                  [a0; a1; a2; a3; a4; a5; a6; a7] in
  List.length usizes = 8%nat
  /\ nth (2 * i) usizes zero = of_int (fst (InternalSize im))
  /\ nth (2 * i + 1) usizes zero = of_int (snd (InternalSize im)).
Proof.
  intros Hi. unfold setSourceSizes. cbn [List.length seq combine fold_left].
  destruct s0 as [i0|]; [destruct (InternalSize i0) as [w0 h0] eqn:E0|];
  (destruct s1 as [i1|]; [destruct (InternalSize i1) as [w1 h1] eqn:E1|]);
  (destruct s2 as [i2|]; [destruct (InternalSize i2) as [w2 h2] eqn:E2|]);
  (destruct s3 as [i3|]; [destruct (InternalSize i3) as [w3 h3] eqn:E3|]);
  unfold setIndex;
  cbn [Z.of_nat Z.mul Z.add Pos.of_succ_nat Pos.succ Pos.mul Pos.add Z.to_nat
       Pos.to_nat Pos.iter_op Nat.add firstn skipn app List.length];
  (split; [reflexivity|]);
  do 4 (destruct i as [|i]; [cbn in Hi; try discriminate Hi;
                             injection Hi as <-;
                             rewrite ?E0, ?E1, ?E2, ?E3; split; reflexivity|]);
  destruct i; discriminate Hi.
Qed.

(** X22.  The uniform list [prependPreservedUniforms] builds, on a buffer of
    a length that is not negative: the 8 preserved entries and then the
    caller's uniforms.  The entries are the destination size; the source
    sizes; the origin and the size of the destination region, divided by the
    destination size; the source offsets, and the origin and the size of the
    source region, divided by the size of the first source when there is
    one and as given when there is none; and the projection matrix.  The
    source sizes are 8 floats, and hold the size of every source that is not
    nil. *)
Theorem prependPreservedUniforms_values (q : commandQueue)
    (uniforms : list (list float32)) (dst : Image) (srcs : Srcs)
    (offsets : Offsets) (dstRegion srcRegion : Region) :
  0 <= used (float32sBuffer q) ->
  let dw := of_int (fst (InternalSize dst)) in
  let dh := of_int (snd (InternalSize dst)) in
  let sx := bySource0Width InternalSize srcs in
  let sy := bySource0Height InternalSize srcs in
  exists usizes,
    fst (prependPreservedUniforms InternalSize q uniforms dst srcs offsets
           dstRegion srcRegion)
    = [ [dw; dh];
        usizes;
        [div (X dstRegion) dw; div (Y dstRegion) dh];
        [div (Width dstRegion) dw; div (Height dstRegion) dh];
        flat_map (fun o : float32 * float32 => [sx (fst o); sy (snd o)])
          (offsets_list offsets);
        [sx (X srcRegion); sy (Y srcRegion)];
        [sx (Width srcRegion); sy (Height srcRegion)];
        [div (of_int 2) dw; zero; zero; zero;
         zero; div (of_int 2) dh; zero; zero;
         zero; zero; of_int 1; zero;
         of_int (-1); of_int (-1); zero; of_int 1] ] ++ uniforms
    /\ len usizes = 2 * ShaderImageCount
    /\ forall (i : nat) (im : Image),
         nth_error (srcs_list srcs) i = Some (Some im) ->
         nth (2 * i) usizes zero = of_int (fst (InternalSize im))
         /\ nth (2 * i + 1) usizes zero = of_int (snd (InternalSize im)).
Proof.
  intros Hu dw dh sx sy. subst dw dh sx sy.
  unfold prependPreservedUniforms, bySource0Width, bySource0Height.
  cbv beta iota zeta.
  destruct (eight_elements
              (firstn (Z.to_nat PreservedUniformVariablesCount)
                 (uniforms ++ repeat [] (Z.to_nat PreservedUniformVariablesCount))))
    as (a0 & a1 & a2 & a3 & a4 & a5 & a6 & a7 & Ha).
  { rewrite length_firstn, length_app, repeat_length.
    change (Z.to_nat PreservedUniformVariablesCount) with 8%nat. lia. }
  rewrite Ha, copy_shift_repeat. clear Ha.
  destruct (InternalSize dst) as [w h]. cbn [fst snd].
  destruct (allocFloat32s q 2) as [[p1 s1] q1] eqn:E1. cbv beta iota.
  destruct (allocFloat32s_len q 2 p1 s1 q1 ltac:(lia) Hu E1) as [_ Hu1].
  destruct srcs as [[[s0 s1'] s2'] s3']. cbn [fst srcs_list].
  match goal with
  | |- context [allocFloat32s ?qq (2 * len [s0; s1'; s2'; s3'])] =>
      destruct (allocFloat32s qq (2 * len [s0; s1'; s2'; s3'])) as [[p2 u2] q2] eqn:E2;
      assert (Hlen2 : len u2 = 8)
        by (apply (allocFloat32s_len qq _ p2 u2 q2); [vm_compute; discriminate
                                                     |exact Hu1|exact E2])
  end.
  cbv beta iota.
  destruct (eight_elements u2) as (b0 & b1 & b2 & b3 & b4 & b5 & b6 & b7 & ->).
  { unfold len in Hlen2. lia. }
  exists (setSourceSizes InternalSize [s0; s1'; s2'; s3']
            [b0; b1; b2; b3; b4; b5; b6; b7]).
  split.
  - destruct offsets as [[o0 o1] o2].
    destruct s0 as [i|]; [destruct (InternalSize i) as [w0 h0]|];
      repeat step_alloc;
      unfold setIndex, TextureDestinationSizeUniformVariableIndex,
        TextureSourceSizesUniformVariableIndex,
        TextureDestinationRegionOriginUniformVariableIndex,
        TextureDestinationRegionSizeUniformVariableIndex,
        TextureSourceOffsetsUniformVariableIndex,
        TextureSourceRegionOriginUniformVariableIndex,
        TextureSourceRegionSizeUniformVariableIndex,
        ProjectionMatrixUniformVariableIndex;
      cbn [Z.to_nat Pos.to_nat Pos.iter_op Nat.add firstn skipn app fst snd
           offsets_list map flat_map X Y Width Height];
      reflexivity.
  - split.
    + unfold setSourceSizes. cbn [List.length seq combine fold_left].
      destruct s0 as [i0|]; [destruct (InternalSize i0)|];
      (destruct s1' as [i1|]; [destruct (InternalSize i1)|]);
      (destruct s2' as [i2|]; [destruct (InternalSize i2)|]);
      (destruct s3' as [i3|]; [destruct (InternalSize i3)|]);
      reflexivity.
    + intros i im Hi.
      destruct (setSourceSizes_values s0 s1' s2' s3' b0 b1 b2 b3 b4 b5 b6 b7 i im Hi)
        as (_ & H1 & H2).
      split; [exact H1|exact H2].
Qed.

End QueueCoverage.

(** ** Instances *)

Lemma reachable_queue_consistent_witness :
  vertices (Enqueue theCommandQueue (disposeImage 1%positive))
  = flat_map cmdVertices (commands (Enqueue theCommandQueue (disposeImage 1%positive)))
  /\ len (indices (Enqueue theCommandQueue (disposeImage 1%positive)))
     = sumZ (map cmdNumIndices
               (commands (Enqueue theCommandQueue (disposeImage 1%positive))))
  /\ Forall (fun c => 0 <= cmdNumIndices c <= IndicesCount)
       (commands (Enqueue theCommandQueue (disposeImage 1%positive)))
  /\ (commands (Enqueue theCommandQueue (disposeImage 1%positive)) = [] ->
      tmpNumVertexFloats (Enqueue theCommandQueue (disposeImage 1%positive)) = 0
      /\ tmpNumIndices (Enqueue theCommandQueue (disposeImage 1%positive)) = 0).
Proof.
  apply (reachable_queue_consistent (fun _ => (16, 16)) (fun _ u => u)
           (Enqueue theCommandQueue (disposeImage 1%positive))).
  apply reach_Enqueue; [apply reach_init|reflexivity].
Defined.

Lemma EnqueueDrawTrianglesCommand_accepts_witness :
  exists q',
    EnqueueDrawTrianglesCommand (fun _ => (16, 16)) (fun _ u => u) theCommandQueue
      1%positive (Some 2%positive, None, None, None)
      ((zero, zero), (zero, zero), (zero, zero))
      (repeat zero 32) [0; 1; 2; 1; 2; 3] (Build_Blend 1 1 0 0 0 0)
      (Build_Region zero zero (of_int 16) (of_int 16))
      (Build_Region zero zero (of_int 16) (of_int 16))
      7%positive [] false = Ret q'
    /\ vertices q' = vertices theCommandQueue ++ repeat zero 32
    /\ len (indices q') = len (indices theCommandQueue) + len [0; 1; 2; 1; 2; 3]
    /\ ((exists c, commands q' = commands theCommandQueue ++ [drawTriangles c]
                   /\ c_vertices c = repeat zero 32
                   /\ c_nindices c = len [0; 1; 2; 1; 2; 3])
        \/ (exists cs last last',
              commands theCommandQueue = cs ++ [drawTriangles last]
              /\ commands q' = cs ++ [drawTriangles last']
              /\ c_vertices last' = c_vertices last ++ repeat zero 32
              /\ c_nindices last' = c_nindices last + len [0; 1; 2; 1; 2; 3])).
Proof.
  apply (EnqueueDrawTrianglesCommand_accepts (fun _ => (16, 16)) (fun _ u => u)
           theCommandQueue).
  - apply reach_init.
  - vm_compute. discriminate.
Defined.

Lemma EnqueueDrawTrianglesCommand_rebases_without_wrap_witness :
  exists q' o,
    EnqueueDrawTrianglesCommand (fun _ => (16, 16)) (fun _ u => u) theCommandQueue
      1%positive (Some 2%positive, None, None, None)
      ((zero, zero), (zero, zero), (zero, zero))
      (repeat zero 32) [0; 1; 2; 1; 2; 3] (Build_Blend 1 1 0 0 0 0)
      (Build_Region zero zero (of_int 16) (of_int 16))
      (Build_Region zero zero (of_int 16) (of_int 16))
      7%positive [] false = Ret q'
    /\ o = (tmpNumVertexFloats q' - len (repeat zero 32)) / VertexFloatCount
    /\ 0 <= o
    /\ indices q' = indices theCommandQueue ++ map (fun e => e + o) [0; 1; 2; 1; 2; 3]
    /\ Forall (fun e => e + o < tmpNumVertexFloats q' / VertexFloatCount
                        /\ e + o < 2 ^ 16) [0; 1; 2; 1; 2; 3].
Proof.
  apply (EnqueueDrawTrianglesCommand_rebases_without_wrap (fun _ => (16, 16))
           (fun _ u => u) theCommandQueue).
  - apply reach_init.
  - vm_compute. discriminate.
  - repeat (apply Forall_cons;
            [vm_compute; repeat apply conj; first [reflexivity | discriminate]|]).
    apply Forall_nil.
Defined.


Lemma Flush_draws_within_upload_witness :
  match
    EnqueueDrawTrianglesCommand (fun _ => (16, 16)) (fun _ u => u) theCommandQueue
      1%positive (Some 2%positive, None, None, None)
      ((zero, zero), (zero, zero), (zero, zero))
      (repeat zero 32) [0; 1; 2; 1; 2; 3] (Build_Blend 1 1 0 0 0 0)
      (Build_Region zero zero (of_int 16) (of_int 16))
      (Build_Region zero zero (of_int 16) (of_int 16))
      7%positive [] false
  with
  | Ret q =>
      exists calls,
        snd (Flush (fun _ _ => None) q false []) = [] ++ calls
        /\ drawsWithinUpload None calls
  | _ => True
  end.
Proof.
  destruct (EnqueueDrawTrianglesCommand (fun _ => (16, 16)) (fun _ u => u)
              theCommandQueue 1%positive (Some 2%positive, None, None, None)
              ((zero, zero), (zero, zero), (zero, zero))
              (repeat zero 32) [0; 1; 2; 1; 2; 3] (Build_Blend 1 1 0 0 0 0)
              (Build_Region zero zero (of_int 16) (of_int 16))
              (Build_Region zero zero (of_int 16) (of_int 16))
              7%positive [] false) as [q|msg|] eqn:E; [|exact I|exact I].
  apply (Flush_draws_within_upload (fun _ => (16, 16)) (fun _ u => u) q).
  eapply reach_EnqueueDrawTriangles; [apply reach_init|exact E].
Defined.

Lemma Flush_executes_in_order_witness :
  exists mid,
    snd (Flush (fun _ _ => None)
           (Enqueue (Enqueue theCommandQueue (writePixels 1%positive 2))
              (disposeImage 1%positive)) false [])
    = [] ++ Begin :: mid ++ [End false]
    /\ map eraseOffset (filter notSetVertices mid)
       = flat_map commandCalls
           (commands (Enqueue (Enqueue theCommandQueue (writePixels 1%positive 2))
                        (disposeImage 1%positive)))
    /\ sumZ (map drawnIndices mid)
       = len (indices (Enqueue (Enqueue theCommandQueue (writePixels 1%positive 2))
                         (disposeImage 1%positive))).
Proof.
  apply (Flush_executes_in_order (fun _ => (16, 16)) (fun _ u => u)
           (Enqueue (Enqueue theCommandQueue (writePixels 1%positive 2))
              (disposeImage 1%positive))
           (fun _ _ => None) false []
           (snd (fst (Flush (fun _ _ => None)
                        (Enqueue (Enqueue theCommandQueue (writePixels 1%positive 2))
                           (disposeImage 1%positive)) false [])))).
  - apply reach_Enqueue; [apply reach_Enqueue; [apply reach_init|reflexivity]
                         |reflexivity].
  - vm_compute. reflexivity.
  - intros [H _]. discriminate H.
Defined.

Lemma Flush_returns_draws_to_pool_witness :
  len (pool (snd (fst (Flush (fun _ _ => None)
                         (Enqueue theCommandQueue (disposeImage 1%positive))
                         false []))))
  = Z.min 1024
      (len (pool (Enqueue theCommandQueue (disposeImage 1%positive)))
       + len (filter isDraw
                (commands (Enqueue theCommandQueue (disposeImage 1%positive))))).
Proof.
  apply (Flush_returns_draws_to_pool (fun _ => (16, 16)) (fun _ u => u)
           (Enqueue theCommandQueue (disposeImage 1%positive))
           (fun _ _ => None) false []
           (fst (fst (Flush (fun _ _ => None)
                        (Enqueue theCommandQueue (disposeImage 1%positive))
                        false [])))
           (snd (fst (Flush (fun _ _ => None)
                        (Enqueue theCommandQueue (disposeImage 1%positive))
                        false [])))
           (snd (Flush (fun _ _ => None)
                   (Enqueue theCommandQueue (disposeImage 1%positive)) false []))).
  - apply reach_Enqueue; [apply reach_init|reflexivity].
  - vm_compute. reflexivity.
  - reflexivity.
  - intros [H _]. discriminate H.
Defined.

Lemma prependPreservedUniforms_values_witness :
  let dw := of_int (fst ((fun _ : Image => (16, 32)) 1%positive)) in
  let dh := of_int (snd ((fun _ : Image => (16, 32)) 1%positive)) in
  let sx := bySource0Width (fun _ : Image => (16, 32))
              (Some 2%positive, None, None, None) in
  let sy := bySource0Height (fun _ : Image => (16, 32))
              (Some 2%positive, None, None, None) in
  exists usizes,
    fst (prependPreservedUniforms (fun _ : Image => (16, 32)) theCommandQueue
           [[of_int 7]] 1%positive (Some 2%positive, None, None, None)
           ((zero, zero), (zero, zero), (zero, zero))
           (Build_Region zero zero (of_int 16) (of_int 32))
           (Build_Region zero zero (of_int 8) (of_int 8)))
    = [ [dw; dh];
        usizes;
        [div (X (Build_Region zero zero (of_int 16) (of_int 32))) dw;
         div (Y (Build_Region zero zero (of_int 16) (of_int 32))) dh];
        [div (Width (Build_Region zero zero (of_int 16) (of_int 32))) dw;
         div (Height (Build_Region zero zero (of_int 16) (of_int 32))) dh];
        flat_map (fun o : float32 * float32 => [sx (fst o); sy (snd o)])
          (offsets_list ((zero, zero), (zero, zero), (zero, zero)));
        [sx (X (Build_Region zero zero (of_int 8) (of_int 8)));
         sy (Y (Build_Region zero zero (of_int 8) (of_int 8)))];
        [sx (Width (Build_Region zero zero (of_int 8) (of_int 8)));
         sy (Height (Build_Region zero zero (of_int 8) (of_int 8)))];
        [div (of_int 2) dw; zero; zero; zero;
         zero; div (of_int 2) dh; zero; zero;
         zero; zero; of_int 1; zero;
         of_int (-1); of_int (-1); zero; of_int 1] ] ++ [[of_int 7]]
    /\ len usizes = 2 * ShaderImageCount
    /\ forall (i : nat) (im : Image),
         nth_error (srcs_list (Some 2%positive, None, None, None)) i = Some (Some im) ->
         nth (2 * i) usizes zero = of_int (fst ((fun _ : Image => (16, 32)) im))
         /\ nth (2 * i + 1) usizes zero = of_int (snd ((fun _ : Image => (16, 32)) im)).
Proof.
  apply (prependPreservedUniforms_values (fun _ : Image => (16, 32)) theCommandQueue
           [[of_int 7]] 1%positive (Some 2%positive, None, None, None)
           ((zero, zero), (zero, zero), (zero, zero))
           (Build_Region zero zero (of_int 16) (of_int 32))
           (Build_Region zero zero (of_int 8) (of_int 8))).
  vm_compute. discriminate.
Defined.

End GraphicsCommandCoverage.

(** * The chunks of the command queue *)

(** [EnqueueDrawTrianglesCommand] rebases the indices of a draw for the
    chunk its counters describe; [flush] measures the chunks again from the
    commands.  The two agree: the queue is cut into the same chunks. *)

Module GraphicsCommandChunks.

Import Graphics GraphicsCommand Float32Facts GraphicsFacts GraphicsCommandFacts.
Import GraphicsCommandCoverage.

(** The vertex floats and the indices of the commands of a chunk. *)
Definition nvOf (ch : list command) : Z := len (flat_map cmdVertices ch).
Definition neOf (ch : list command) : Z := sumZ (map cmdNumIndices ch).

(** The first command of [ch2] does not fit into the chunk [ch1]. *)
Definition noFit (ch1 ch2 : list command) : Prop :=
  match ch2 with
  | c :: _ =>
      mustUseDifferentVertexBuffer (nvOf ch1 + len (cmdVertices c))
        (neOf ch1 + cmdNumIndices c) = true
  | [] => False
  end.

(** A chunk: draws, at least one, that one upload holds. *)
Definition chunkOK (ch : list command) : Prop :=
  ch <> [] /\ Forall drawCmdWithin ch
  /\ nvOf ch <= maxVertexFloats /\ neOf ch <= IndicesCount.

(** The indices of a chunk: as many as its draws have, each the number of a
    vertex of the chunk. *)
Definition chunkIdx (ch : list command) (ix : list Z) : Prop :=
  len ix = neOf ch /\ Forall (fun i => 0 <= i < nvOf ch / VertexFloatCount) ix.

(** The chunks in the order of the queue, and most recent first: no chunk
    could have taken the first command of the next. *)
Fixpoint greedy (chs : list (list command)) : Prop :=
  match chs with
  | ch1 :: ((ch2 :: _) as r) => noFit ch1 ch2 /\ greedy r
  | _ => True
  end.

Fixpoint greedyR (rchs : list (list command)) : Prop :=
  match rchs with
  | ch1 :: ((ch0 :: _) as r) => noFit ch0 ch1 /\ greedyR r
  | _ => True
  end.

Definition lastTotals (rchs : list (list command)) : Z * Z :=
  match rchs with
  | ch :: _ => (nvOf ch, neOf ch)
  | [] => (0, 0)
  end.

(** The queue is cut into the chunks [rchs], with the indices [rixs], most
    recent first, and its counters describe the most recent chunk. *)
Definition chunkInv (q : commandQueue) (rchs : list (list command))
    (rixs : list (list Z)) : Prop :=
  commands q = List.concat (rev rchs)
  /\ indices q = List.concat (rev rixs)
  /\ Forall chunkOK rchs
  /\ Forall2 chunkIdx rchs rixs
  /\ greedyR rchs
  /\ (tmpNumVertexFloats q, tmpNumIndices q) = lastTotals rchs.

Lemma nvOf_app (a b : list command) : nvOf (a ++ b) = nvOf a + nvOf b.
Proof. unfold nvOf. rewrite flat_map_app, len_app. reflexivity. Qed.

Lemma neOf_app (a b : list command) : neOf (a ++ b) = neOf a + neOf b.
Proof. unfold neOf. rewrite map_app, sumZ_app. reflexivity. Qed.

Lemma nvOf_one (c : command) : nvOf [c] = len (cmdVertices c).
Proof. unfold nvOf. cbn [flat_map]. rewrite app_nil_r. reflexivity. Qed.

Lemma neOf_one (c : command) : neOf [c] = cmdNumIndices c.
Proof. unfold neOf, sumZ. cbn. lia. Qed.

Lemma nvOf_nonneg (a : list command) : 0 <= nvOf a.
Proof. apply len_nonneg. Qed.

Lemma neOf_nonneg (a : list command) : Forall drawCmdWithin a -> 0 <= neOf a.
Proof. apply sumZ_indices_nonneg. Qed.

Lemma mustUse_fits (nv ne : Z) :
  nv <= maxVertexFloats -> ne <= IndicesCount ->
  mustUseDifferentVertexBuffer nv ne = false.
Proof.
  intros Hv He. unfold mustUseDifferentVertexBuffer, maxVertexFloats in *.
  destruct (Z.gtb_spec nv (IndicesCount * VertexFloatCount)); [lia|].
  destruct (Z.gtb_spec ne IndicesCount); [lia|]. reflexivity.
Qed.

Lemma mustUse_mono (nv ne nv' ne' : Z) :
  mustUseDifferentVertexBuffer nv ne = true -> nv <= nv' -> ne <= ne' ->
  mustUseDifferentVertexBuffer nv' ne' = true.
Proof.
  unfold mustUseDifferentVertexBuffer. intros H Hv He.
  apply orb_true_iff in H. apply orb_true_iff.
  destruct H as [H|H]; [left|right]; apply Z.gtb_lt in H; apply Z.gtb_lt; lia.
Qed.

(** The scan of a chunk that is followed by nothing or by a command that
    does not fit. *)
Lemma scanChunk_chunk (ch : list command) :
  forall (rest : list command) (nv ne nc : Z),
    Forall drawCmdWithin ch ->
    nv + nvOf ch <= maxVertexFloats -> ne + neOf ch <= IndicesCount ->
    0 <= nc -> (0 < nc \/ ch <> []) ->
    (rest = []
     \/ exists c r, rest = c :: r /\ drawCmdWithin c
          /\ mustUseDifferentVertexBuffer (nv + nvOf ch + len (cmdVertices c))
               (ne + neOf ch + cmdNumIndices c) = true) ->
    scanChunk (ch ++ rest) nv ne nc = Ret (nv + nvOf ch, ne + neOf ch, nc + len ch).
Proof.
  induction ch as [|c ch IH]; intros rest nv ne nc Hch Hv He Hnc Hne Hrest.
  - cbn [app]. change (nvOf []) with 0 in *. change (neOf []) with 0 in *.
    rewrite ?len_nil, ?Z.add_0_r. rewrite ?Z.add_0_r in Hrest.
    destruct Hne as [Hpos|Hnil]; [|congruence].
    destruct Hrest as [->|(c & r & -> & (d & -> & Hd1 & Hd2) & Hm)]; [reflexivity|].
    cbn [scanChunk]. unfold numIndices. cbn [cmdVertices cmdNumIndices] in Hm.
    destruct (Z.gtb_spec (c_nindices d) IndicesCount); [lia|].
    destruct (Z.gtb_spec nc 0); [|lia]. unfold numVertices. rewrite Hm. reflexivity.
  - inversion Hch as [|? ? (d & -> & Hd1 & Hd2) Hch']; subst.
    change (drawTriangles d :: ch) with ([drawTriangles d] ++ ch) in *.
    rewrite nvOf_app, neOf_app, nvOf_one, neOf_one in *.
    cbn [cmdVertices cmdNumIndices] in *.
    pose proof (nvOf_nonneg ch). pose proof (neOf_nonneg ch Hch').
    pose proof (len_nonneg (c_vertices d)).
    cbn [app scanChunk]. unfold numIndices, numVertices.
    destruct (Z.gtb_spec (c_nindices d) IndicesCount); [lia|].
    rewrite mustUse_fits by lia. rewrite andb_false_r.
    rewrite (IH rest (nv + len (c_vertices d)) (ne + c_nindices d) (nc + 1));
      try assumption; try lia.
    + rewrite len_cons. apply triple_eq; lia.
    + destruct Hrest as [->|(c & r & -> & Hc & Hm)]; [left; reflexivity|].
      right. exists c, r. split; [reflexivity|]. split; [exact Hc|].
      rewrite <- Hm. f_equal; lia.
Qed.

Lemma chunkOK_first (ch : list command) :
  chunkOK ch -> exists c r, ch = c :: r /\ drawCmdWithin c.
Proof.
  intros (Hne & Hall & _). destruct ch as [|c r]; [congruence|].
  exists c, r. inversion Hall; auto.
Qed.

(** With a driver that never fails, the chunk loop uploads the chunks the
    queue is cut into, one upload for each. *)
Lemma flushChunks_chunks (drv : driver) :
  neverFails drv ->
  forall (chs : list (list command)) (ixs : list (list Z)) (fuel : nat) (tr : trace),
    Forall chunkOK chs -> Forall2 chunkIdx chs ixs -> greedy chs ->
    (List.length (List.concat chs) <= fuel)%nat ->
    exists calls,
      flushChunks fuel drv (List.concat chs)
        (flat_map cmdVertices (List.concat chs)) (List.concat ixs) tr
      = (Ret None, tr ++ calls)
      /\ uploads calls = combine (map (flat_map cmdVertices) chs) ixs.
Proof.
  intros Hdrv.
  induction chs as [|ch chs IH]; intros ixs fuel tr Hok Hix Hgr Hfuel.
  - exists []. rewrite app_nil_r. cbn [List.concat]. destruct fuel; split; reflexivity.
  - inversion Hix as [|? ix ? ixr [Hlen Hrange] Hix']; subst.
    inversion Hok as [|? ? Hch Hok']; subst.
    destruct (chunkOK_first ch Hch) as (c0 & ch0 & Ech & _).
    destruct Hch as (_ & Hall & Hcv & Hce).
    cbn [List.concat]. set (rest := List.concat chs).
    destruct fuel as [|fuel].
    { rewrite Ech in Hfuel. cbn in Hfuel. lia. }
    assert (Escan : scanChunk (ch ++ rest) 0 0 0 = Ret (nvOf ch, neOf ch, len ch)).
    { rewrite (scanChunk_chunk ch rest 0 0 0); try assumption; try lia.
      - reflexivity.
      - right. rewrite Ech. discriminate.
      - destruct chs as [|ch2 chs2]; [left; reflexivity|]. right.
        inversion Hok' as [|? ? Hch2 _]; subst.
        destruct (chunkOK_first ch2 Hch2) as (c & r & -> & Hc).
        exists c, (r ++ List.concat chs2). split; [reflexivity|]. split; [exact Hc|].
        destruct Hgr as [Hnf _]. exact Hnf. }
    assert (Ecs : exists c1 cs1, ch ++ rest = c1 :: cs1).
    { rewrite Ech. cbn [app]. eauto. }
    destruct Ecs as (c1 & cs1 & Ecs).
    assert (Estep : forall vs es,
               flushChunks (S fuel) drv (ch ++ rest) vs es tr
               = match scanChunk (ch ++ rest) 0 0 0 with
                 | Panic msg => (Panic msg, tr)
                 | Diverge => (Diverge, tr)
                 | Ret (nv, ne, nc) =>
                     let run (vs1 : list float32) (es1 : list Z) (tr1 : trace) :=
                       match execChunk drv (firstn (Z.to_nat nc) (ch ++ rest)) 0 tr1 with
                       | (Some err, tr2) => (Ret (Some err), tr2)
                       | (None, tr2) =>
                           flushChunks fuel drv (skipn (Z.to_nat nc) (ch ++ rest)) vs1 es1 tr2
                       end in
                     if 0 <? ne then
                       if (nv <=? len vs) && (ne <=? len es) then
                         match invoke drv tr
                                 (SetVertices (firstn (Z.to_nat nv) vs)
                                    (firstn (Z.to_nat ne) es)) with
                         | (Some err, tr1) => (Ret (Some err), tr1)
                         | (None, tr1) =>
                             run (skipn (Z.to_nat nv) vs) (skipn (Z.to_nat ne) es) tr1
                         end
                       else (Panic boundsPanic, tr)
                     else run vs es tr
                 end).
    { intros vs es. rewrite Ecs. reflexivity. }
    rewrite Estep, Escan. clear Estep.
    assert (Hpos : 1 <= neOf ch).
    { apply sumZ_indices_positive; [exact Hall|]. rewrite Ech. discriminate. }
    replace (Z.to_nat (len ch)) with (List.length ch)
      by (unfold len; rewrite Nat2Z.id; reflexivity).
    rewrite firstn_app, Nat.sub_diag, firstn_O, app_nil_r, firstn_all.
    rewrite skipn_app, Nat.sub_diag, skipn_all. cbn [skipn app].
    rewrite flat_map_app. fold (nvOf ch).
    destruct (Z.ltb_spec 0 (neOf ch)); [|lia].
    pose proof (len_nonneg (flat_map cmdVertices rest)).
    pose proof (len_nonneg (List.concat ixr)).
    destruct (Z.leb_spec (nvOf ch) (len (flat_map cmdVertices ch ++ flat_map cmdVertices rest)))
      as [_|Hgt]; [|rewrite len_app in Hgt; unfold nvOf in Hgt; lia].
    destruct (Z.leb_spec (neOf ch) (len (ix ++ List.concat ixr))) as [_|Hgt];
      [|rewrite len_app in Hgt; lia].
    cbn [andb invoke]. rewrite Hdrv.
    unfold nvOf at 1 2. rewrite firstn_len_app, skipn_len_app.
    rewrite <- Hlen. rewrite firstn_len_app, skipn_len_app.
    set (up := SetVertices _ _).
    destruct (execChunk_calls drv ch 0 (tr ++ [up])) as (calls1 & Htr1 & Hr1 & Hb1 & Hs1).
    rewrite firstError_neverFails in Hr1 by exact Hdrv.
    destruct (execChunk drv ch 0 (tr ++ [up])) as [r1 tr1].
    cbn [fst snd] in Htr1, Hr1. subst r1 tr1.
    destruct (IH ixr fuel ((tr ++ [up]) ++ calls1) Hok' Hix') as (calls2 & E2 & Hup2).
    + destruct chs as [|ch2 chs2]; [exact I|]. apply Hgr.
    + cbn [List.concat] in Hfuel. rewrite length_app in Hfuel. rewrite Ech in Hfuel. cbn [List.length] in Hfuel.
      lia.
    + fold rest in E2. rewrite E2. exists (up :: calls1 ++ calls2).
      split; [rewrite <- !app_assoc; reflexivity|].
      unfold uploads at 1. cbn [flat_map up]. fold (uploads (calls1 ++ calls2)).
      rewrite uploads_app, (uploads_none calls1 Hs1), Hup2. reflexivity.
Qed.


Lemma capacity_values : IndicesCount = 65535 /\ VertexFloatCount = 8
                        /\ maxVertexFloats = 65535 * 8.
Proof. repeat split. Qed.

(** The indices of a draw that is added to a chunk of [nv] vertex floats:
    rebased, they name vertices of the longer chunk, and none wraps. *)
Lemma rebase_addressed (nv : Z) (vs : list float32) (es : list Z) :
  0 <= nv -> nv + len vs <= maxVertexFloats ->
  Forall (fun e => 0 <= e < len vs / VertexFloatCount) es ->
  Forall (fun i => 0 <= i < (nv + len vs) / VertexFloatCount)
    (map (fun e => uint16 (e + uint16 (nv / VertexFloatCount))) es).
Proof.
  destruct capacity_values as (_ & -> & ->). intros Hnv Hcap Hes.
  pose proof (len_nonneg vs) as Hlv.
  apply Forall_map. eapply Forall_impl; [|exact Hes]. cbv beta. intros e [He0 He1].
  assert (Hq : 0 <= nv / 8) by (apply Z.div_pos; lia).
  assert (Hsum : nv / 8 + len vs / 8 <= (nv + len vs) / 8).
  { pose proof (Z.div_mod nv 8 ltac:(lia)).
    pose proof (Z.div_mod (len vs) 8 ltac:(lia)).
    pose proof (Z.mod_pos_bound nv 8 ltac:(lia)).
    pose proof (Z.mod_pos_bound (len vs) 8 ltac:(lia)).
    apply Z.div_le_lower_bound; lia. }
  assert (Htop : (nv + len vs) / 8 <= 65535) by (apply Z.div_le_upper_bound; lia).
  unfold uint16. rewrite (Z.mod_small (nv / 8)) by lia.
  rewrite Z.mod_small by lia. lia.
Qed.

(** A chunk that grows by the vertices [vs] and the indices [es] of a draw,
    as a command of its own or merged into its last command. *)
Lemma chunk_grows (ch ch' : list command) (ix : list Z) (vs : list float32)
    (es : list Z) :
  chunkIdx ch ix -> ch' <> [] -> Forall drawCmdWithin ch' ->
  nvOf ch' = nvOf ch + len vs -> neOf ch' = neOf ch + len es ->
  nvOf ch' <= maxVertexFloats -> neOf ch' <= IndicesCount ->
  Forall (fun e => 0 <= e < len vs / VertexFloatCount) es ->
  chunkOK ch'
  /\ chunkIdx ch' (ix ++ map (fun e => uint16 (e + uint16 (nvOf ch / VertexFloatCount))) es).
Proof.
  intros [Hlen Hran] Hne Hall Hv He Hcv Hce Hes.
  split; [repeat split; assumption|]. split.
  - rewrite len_app, len_map. lia.
  - apply Forall_app. split.
    + eapply Forall_impl; [|exact Hran]. cbv beta. intros i [Hi0 Hi1]. split; [exact Hi0|].
      eapply Z.lt_le_trans; [exact Hi1|].
      destruct capacity_values as (_ & -> & _).
      apply Z.div_le_mono; [lia|]. pose proof (len_nonneg vs). lia.
    + rewrite Hv. apply rebase_addressed; [apply nvOf_nonneg|lia|exact Hes].
Qed.

Lemma greedyR_head (ch ch' : list command) (r : list (list command)) :
  greedyR (ch :: r) -> (forall ch0, noFit ch0 ch -> noFit ch0 ch') ->
  greedyR (ch' :: r).
Proof.
  destruct r as [|ch0 r]; [intros; exact I|].
  cbn [greedyR]. intros [H1 H2] Himp. split; [apply Himp; exact H1|exact H2].
Qed.

Lemma greedy_snoc (chs : list (list command)) :
  forall ch0 ch1 : list command,
    greedy (chs ++ [ch0]) -> noFit ch0 ch1 -> greedy ((chs ++ [ch0]) ++ [ch1]).
Proof.
  induction chs as [|ch chs IH]; intros ch0 ch1 Hg Hn.
  - cbn. auto.
  - destruct chs as [|ch2 chs].
    + cbn in *. destruct Hg as [Hg _]. auto.
    + cbn [app greedy] in *. destruct Hg as [Hg1 Hg2]. split; [exact Hg1|].
      apply (IH ch0 ch1); assumption.
Qed.

Lemma greedyR_rev (rchs : list (list command)) : greedyR rchs -> greedy (rev rchs).
Proof.
  induction rchs as [|ch1 r IH]; [intros; exact I|].
  destruct r as [|ch0 r]; [intros; exact I|].
  intros [Hn Hg]. specialize (IH Hg). cbn [rev] in *.
  apply greedy_snoc; assumption.
Qed.

Lemma concat_rev_cons {A : Type} (x : list A) (l : list (list A)) :
  List.concat (rev (x :: l)) = List.concat (rev l) ++ x.
Proof.
  cbn [rev]. rewrite concat_app. cbn [List.concat]. rewrite app_nil_r. reflexivity.
Qed.

Lemma Forall2_rev_chunks {A B : Type} (R : A -> B -> Prop) (l : list A) (m : list B) :
  Forall2 R l m -> Forall2 R (rev l) (rev m).
Proof.
  induction 1 as [|x y l m Hxy _ IH]; [constructor|].
  cbn [rev]. apply Forall2_app; [exact IH|]. constructor; [exact Hxy|constructor].
Qed.

Lemma chunkIdx_addressed (chs : list (list command)) (ixs : list (list Z)) :
  Forall2 chunkIdx chs ixs ->
  Forall uploadAddressed (combine (map (flat_map cmdVertices) chs) ixs).
Proof.
  induction 1 as [|ch ix chs ixs [_ Hran] _ IH]; [constructor|].
  cbn [map combine]. constructor; [exact Hran|exact IH].
Qed.

Section ChunkCoverage.

Variable InternalSize : Image -> Z * Z.
Variable FilterUniformVariables : Shader -> list (list float32) -> list (list float32).

(** Enqueueing a draw keeps the queue cut into chunks: the draw joins the
    most recent chunk, or starts one when that chunk cannot take it. *)
Lemma enqueueDraw_chunkInv (q : commandQueue) (d : draw)
    (rchs : list (list command)) (rixs : list (list Z)) :
  queueInv q -> chunkInv q rchs rixs -> drawWithinChunk d -> drawAddressed d ->
  exists q' rchs' rixs',
    enqueueDraw InternalSize FilterUniformVariables q d = Ret q'
    /\ queueInv q' /\ chunkInv q' rchs' rixs'.
Proof.
  intros Hinv (Hc & Hi & Hok & Hix & Hgr & Htot) ((Hd1 & Hd2) & Hdv & _) Hadr.
  unfold enqueueDraw, drawAddressed in *.
  destruct (EnqueueDrawTrianglesCommand_spec InternalSize FilterUniformVariables
              q (d_dst d) (d_srcs d) (d_offsets d)
              (d_vertices d) (d_indices d) (d_blend d) (d_dstRegion d)
              (d_srcRegion d) (d_shader d) (d_uniforms d) (d_evenOdd d) Hinv Hd2)
    as (q' & E & _ & Hi' & HtV & HtI & _ & Hshape).
  pose proof (EnqueueDrawTrianglesCommand_queueInv _ _ _ _ _ _ _ _ _ _ _ _ _ _ _ Hinv E)
    as Hinv'.
  exists q'.
  set (vs := d_vertices d) in *. set (es := d_indices d) in *.
  pose proof (len_nonneg vs) as Hlv.
  unfold appendIndices in Hi'.
  assert (Hnew : forall c, c_vertices c = vs -> c_nindices c = len es ->
                   drawCmdWithin (drawTriangles c)
                   /\ nvOf [drawTriangles c] = len vs
                   /\ neOf [drawTriangles c] = len es).
  { intros c Hcv Hcn. rewrite nvOf_one, neOf_one. cbn [cmdVertices cmdNumIndices].
    rewrite Hcv, Hcn. split; [|auto]. exists c. unfold numVertices.
    rewrite Hcv, Hcn. auto. }
  destruct rchs as [|ch1 r].
  - (* the queue is empty *)
    inversion Hix; subst. cbn [rev List.concat] in Hc, Hi.
    cbn [lastTotals] in Htot. injection Htot as HtV0 HtI0.
    rewrite HtV0, HtI0 in *. rewrite Hi in Hi'. cbn [app] in Hi'.
    rewrite !Z.add_0_l in *.
    rewrite (mustUse_fits (len vs) (len es)) in * by assumption.
    destruct Hshape as [(c & Hq' & Hcv & Hcn)|(_ & cs & last & _ & Hq & _)];
      [|rewrite Hc in Hq; destruct cs; discriminate].
    destruct (Hnew c Hcv Hcn) as (Hw & Hnv & Hne).
    destruct (chunk_grows [] [drawTriangles c] [] vs es) as [Hok1 Hix1];
      try assumption; try (rewrite ?Hnv, ?Hne; change (nvOf []) with 0;
                           change (neOf []) with 0; lia).
    { split; [reflexivity|constructor]. }
    { discriminate. }
    { constructor; [exact Hw|constructor]. }
    exists [[drawTriangles c]]. eexists [_].
    split; [exact E|]. split; [exact Hinv'|].
    split; [rewrite Hq', Hc; reflexivity|].
    split; [rewrite Hi'; cbn [rev app List.concat]; rewrite app_nil_r; reflexivity|].
    split; [constructor; [exact Hok1|constructor]|].
    split; [constructor; [exact Hix1|constructor]|].
    split; [exact I|]. cbn [lastTotals]. rewrite HtV, HtI, Hnv, Hne. reflexivity.
  - inversion Hix as [|? ix1 ? rx Hix1 Hixr]; subst.
    inversion Hok as [|? ? Hok1 Hokr]; subst.
    rewrite concat_rev_cons in Hc. rewrite concat_rev_cons in Hi.
    cbn [lastTotals] in Htot. injection Htot as HtV0 HtI0.
    rewrite HtV0, HtI0 in *.
    destruct (mustUseDifferentVertexBuffer (nvOf ch1 + len vs) (neOf ch1 + len es))
      eqn:Hsplit.
    + (* the draw starts a chunk *)
      destruct Hshape as [(c & Hq' & Hcv & Hcn)|(Hf & _)]; [|discriminate].
      destruct (Hnew c Hcv Hcn) as (Hw & Hnv & Hne).
      destruct (chunk_grows [] [drawTriangles c] [] vs es) as [Hokn Hixn];
        try assumption; try (rewrite ?Hnv, ?Hne; change (nvOf []) with 0;
                             change (neOf []) with 0; lia).
      { split; [reflexivity|constructor]. }
      { discriminate. }
      { constructor; [exact Hw|constructor]. }
      exists ([drawTriangles c] :: ch1 :: r). eexists (_ :: ix1 :: rx).
      split; [exact E|]. split; [exact Hinv'|].
      split; [rewrite Hq', Hc, (concat_rev_cons [drawTriangles c]), concat_rev_cons;
              reflexivity|].
      split; [rewrite Hi', Hi, (concat_rev_cons _ (ix1 :: rx)), concat_rev_cons;
              reflexivity|].
      split; [constructor; [exact Hokn|exact Hok]|].
      split; [constructor; [exact Hixn|exact Hix]|].
      split.
      { cbn [greedyR]. split; [|exact Hgr]. cbn [noFit cmdVertices cmdNumIndices].
        rewrite Hcv, Hcn. exact Hsplit. }
      cbn [lastTotals]. rewrite HtV, HtI, Hnv, Hne. reflexivity.
    + (* the draw joins the most recent chunk *)
      pose proof (mustUseDifferentVertexBuffer_false _ _ Hsplit) as [Hfv Hfe].
      fold maxVertexFloats in Hfv.
      destruct Hok1 as (Hne1 & Hall1 & _ & _).
      assert (Hjoin : exists ch',
                 commands q' = List.concat (rev r) ++ ch'
                 /\ ch' <> [] /\ Forall drawCmdWithin ch'
                 /\ nvOf ch' = nvOf ch1 + len vs /\ neOf ch' = neOf ch1 + len es
                 /\ (forall ch0, noFit ch0 ch1 -> noFit ch0 ch')).
      { destruct Hshape as [(c & Hq' & Hcv & Hcn)
                           |(_ & cs & last & last' & Hq & Hq' & Hlv' & Hln)].
        - destruct (Hnew c Hcv Hcn) as (Hw & Hnv & Hne).
          exists (ch1 ++ [drawTriangles c]).
          split; [rewrite Hq', Hc, <- app_assoc; reflexivity|].
          split; [destruct ch1; discriminate|].
          split; [apply Forall_app; split; [exact Hall1|constructor; [exact Hw|constructor]]|].
          split; [rewrite nvOf_app, Hnv; reflexivity|].
          split; [rewrite neOf_app, Hne; reflexivity|].
          intros ch0. destruct ch1 as [|c1 t1]; [congruence|]. cbn [app noFit]. auto.
        - destruct (exists_last Hne1) as (t1 & x & Ech1). subst ch1.
          rewrite app_assoc in Hc. rewrite Hc in Hq.
          apply app_inj_tail in Hq. destruct Hq as [<- ->].
          apply Forall_app in Hall1. destruct Hall1 as [Ht1 Hl].
          inversion Hl as [|? ? (l0 & El & Hl1 & Hl2) _]; subst. injection El as <-.
          pose proof (nvOf_nonneg t1) as Hn1. pose proof (neOf_nonneg t1 Ht1) as Hn2.
          pose proof (len_nonneg (c_vertices last)) as Hn3.
          rewrite ?nvOf_app, ?nvOf_one in Hfv. rewrite ?neOf_app, ?neOf_one in Hfe.
          cbn [cmdVertices cmdNumIndices] in Hfv, Hfe.
          exists (t1 ++ [drawTriangles last']).
          rewrite !nvOf_app, !neOf_app, !nvOf_one, !neOf_one.
          cbn [cmdVertices cmdNumIndices]. rewrite Hlv', len_app.
          split; [rewrite Hq', <- app_assoc; reflexivity|].
          split; [destruct t1; discriminate|].
          split.
          { apply Forall_app. split; [exact Ht1|]. constructor; [|constructor].
            exists last'. split; [reflexivity|].
            unfold numVertices. rewrite Hlv', len_app. lia. }
          split; [lia|]. split; [lia|].
          intros ch0. destruct t1 as [|c1 t1]; cbn [app noFit]; [|auto].
          cbn [cmdVertices cmdNumIndices]. intros Hnf.
          eapply mustUse_mono; [exact Hnf| |]; [rewrite Hlv', len_app|]; lia. }
      destruct Hjoin as (ch' & Hq' & Hne' & Hall' & Hv' & He' & Hfit).
      destruct (chunk_grows ch1 ch' ix1 vs es) as [Hokn Hixn];
        try assumption; try lia.
      exists (ch' :: r). eexists (_ :: rx).
      split; [exact E|]. split; [exact Hinv'|].
      split; [rewrite Hq', concat_rev_cons; reflexivity|].
      split; [rewrite Hi', Hi, concat_rev_cons, <- app_assoc; reflexivity|].
      split; [constructor; [exact Hokn|exact Hokr]|].
      split; [constructor; [exact Hixn|exact Hixr]|].
      split; [eapply greedyR_head; [exact Hgr|exact Hfit]|].
      cbn [lastTotals]. rewrite HtV, HtI, Hv', He'. reflexivity.
Qed.

Lemma enqueueDraws_chunkInv (ds : list draw) :
  forall (q : commandQueue) (rchs : list (list command)) (rixs : list (list Z)),
    queueInv q -> chunkInv q rchs rixs ->
    Forall drawWithinChunk ds -> Forall drawAddressed ds ->
    exists q' rchs' rixs',
      enqueueDraws InternalSize FilterUniformVariables q ds = Ret q'
      /\ queueInv q' /\ chunkInv q' rchs' rixs'.
Proof.
  induction ds as [|d ds IH]; intros q rchs rixs Hinv Hch Hds Had.
  - exists q, rchs, rixs. cbn [enqueueDraws]. auto.
  - inversion Hds; subst. inversion Had; subst.
    destruct (enqueueDraw_chunkInv q d rchs rixs) as (q1 & r1 & x1 & E1 & Hinv1 & Hch1);
      try assumption.
    cbn [enqueueDraws]. rewrite E1. apply (IH q1 r1 x1); assumption.
Qed.


(** X24.  Draws within a chunk whose indices name their own vertices are
    enqueued on an idle queue and flushed to a driver that does not fail.
    Then every index of every index buffer that is uploaded names a vertex of
    the vertex buffer uploaded with it: the chunks the flush measures are the
    chunks the indices were rebased for. *)
Theorem Flush_uploads_address_own_vertices (q0 : commandQueue) (ds : list draw)
    (drv : driver) (endFrame : bool) (tr : trace) :
  reachable InternalSize FilterUniformVariables q0 -> commands q0 = [] ->
  Forall drawWithinChunk ds -> Forall drawAddressed ds ->
  neverFails drv ->
  exists q q' calls,
    enqueueDraws InternalSize FilterUniformVariables q0 ds = Ret q
    /\ Flush drv q endFrame tr = (Ret None, q', tr ++ calls)
    /\ Forall uploadAddressed (uploads calls).
Proof.
  intros Hreach Hidle Hds Had Hdrv.
  apply reachable_queueInv in Hreach.
  assert (H0 : chunkInv q0 [] []).
  { destruct Hreach as (_ & Ii & _ & _ & _ & _ & _ & Ie).
    rewrite Hidle in Ii. destruct (Ie Hidle) as [HV HI].
    split; [exact Hidle|]. split; [apply len_zero_nil; exact Ii|].
    split; [constructor|]. split; [constructor|]. split; [exact I|].
    cbn [lastTotals]. rewrite HV, HI. reflexivity. }
  destruct (enqueueDraws_chunkInv ds q0 [] [] Hreach H0 Hds Had)
    as (q & rchs & rixs & E & Hinv & Hc & Hi & Hok & Hix & Hgr & _).
  destruct Hinv as (Iv & _).
  destruct (flushChunks_chunks drv Hdrv (rev rchs) (rev rixs)
              (List.length (commands q)) (tr ++ [Begin]))
    as (calls & Ef & Hup).
  { apply Forall_rev. exact Hok. }
  { apply Forall2_rev_chunks. exact Hix. }
  { apply greedyR_rev. exact Hgr. }
  { rewrite Hc. apply le_n. }
  rewrite <- Hc, <- Iv, <- Hi in Ef.
  assert (Hup' : uploads (Begin :: calls ++ [End endFrame]) = uploads calls).
  { unfold uploads at 1. cbn [flat_map app]. fold (uploads (calls ++ [End endFrame])).
    rewrite uploads_app. cbn. apply app_nil_r. }
  assert (HF : exists q' calls',
             Flush drv q endFrame tr = (Ret None, q', tr ++ calls')
             /\ (calls' = [] \/ calls' = Begin :: calls ++ [End endFrame])).
  { unfold Flush, flush.
    destruct ((len (commands q) =? 0) && negb endFrame).
    - eexists. exists []. split; [rewrite app_nil_r; reflexivity|left; reflexivity].
    - cbn [invoke]. rewrite Hdrv, Ef. cbn [invoke]. rewrite Hdrv.
      destruct endFrame; cbv beta iota zeta; eexists; eexists;
        (split; [rewrite <- !app_assoc; cbn [app]; reflexivity|right; reflexivity]). }
  destruct HF as (q' & calls' & HF & Hcalls).
  exists q, q', calls'. split; [exact E|]. split; [exact HF|].
  destruct Hcalls as [->| ->]; [constructor|].
  rewrite Hup', Hup. apply chunkIdx_addressed, Forall2_rev_chunks. exact Hix.
Qed.

End ChunkCoverage.

Lemma Flush_uploads_address_own_vertices_witness :
  exists q q' calls,
    enqueueDraws (fun _ => (16, 16)) (fun _ u => u) theCommandQueue
      [drawOf (repeat zero 32) (repeat 3 (Z.to_nat 65535));
       drawOf (repeat zero 32) [0; 1; 2]] = Ret q
    /\ Flush (fun _ _ => None) q false [] = (Ret None, q', [] ++ calls)
    /\ Forall uploadAddressed (uploads calls).
Proof.
  apply (Flush_uploads_address_own_vertices (fun _ => (16, 16)) (fun _ u => u)
           theCommandQueue
           [drawOf (repeat zero 32) (repeat 3 (Z.to_nat 65535));
            drawOf (repeat zero 32) [0; 1; 2]]
           (fun _ _ => None) false []).
  - apply reach_init.
  - reflexivity.
  - constructor; [|constructor; [|constructor]].
    + split; [vm_compute; split; discriminate|].
      split; [vm_compute; discriminate|].
      apply Forall_forall. intros e He. cbn [d_indices drawOf] in He.
      apply repeat_spec in He. subst e. lia.
    + split; [vm_compute; split; discriminate|].
      split; [vm_compute; discriminate|].
      cbn [d_indices drawOf]. repeat constructor; lia.
  - constructor; [|constructor; [|constructor]]; unfold drawAddressed.
    + apply Forall_forall. intros e He. cbn [d_indices drawOf] in He.
      apply repeat_spec in He. subst e. vm_compute. split; [discriminate|reflexivity].
    + cbn [d_indices drawOf]. repeat constructor; vm_compute; try discriminate; reflexivity.
  - intros tr k. destruct k; reflexivity.
Defined.

End GraphicsCommandChunks.
